(** * The HLB code generator: a shallow embedding of [codegen/codegen.go]
      and of the callable registry, with the properties of its specification.

    Layout:
    - [GoStrings]: the Go library routines the generator calls on strings
      ([strings.TrimLeft], [strings.TrimSpace], [bufio.Scanner],
      [strconv.UnquoteChar], [dedent.Dedent], ...), on byte strings;
    - [Reflect]: the reflected method signatures and [CheckPrototype] /
      [initCallables];
    - [CodeGen]: values, registers, the scope store and the evaluator
      ([Generate], [EmitExpr], [EmitBlock], [EmitIdentExpr], ...). *)

From Stdlib Require Import ZArith NArith String Ascii List Bool Lia.
From stdpp Require Import base option list gmap strings.

Set Warnings "-register-all".
Open Scope string_scope.

(** ** Go strings *)

(** A Go [string] is a sequence of bytes: Rocq's [string] of [ascii]. *)
Module GoStrings.

Definition NL : ascii := "010".
Definition TAB : ascii := "009".
Definition VT : ascii := "011".
Definition FF : ascii := "012".
Definition CR : ascii := "013".
Definition SP : ascii := " ".
Definition DQUOTE : ascii := "034".
Definition DOLLAR : ascii := "$".
Definition BACKSLASH : ascii := "\".

Definition byte (c : ascii) : N := N_of_ascii c.

(** [s[n:]] *)
Fixpoint drop_bytes (n : nat) (s : string) : string :=
  match n, s with
  | O, _ => s
  | S n', String _ t => drop_bytes n' t
  | S _, EmptyString => EmptyString
  end.

(** [s[:n]] *)
Fixpoint take_bytes (n : nat) (s : string) : string :=
  match n, s with
  | O, _ => EmptyString
  | S n', String c t => String c (take_bytes n' t)
  | S _, EmptyString => EmptyString
  end.

(** [strings.HasPrefix(s, prefix)] *)
Fixpoint HasPrefix (s prefix : string) : bool :=
  match prefix, s with
  | EmptyString, _ => true
  | String p prefix', String c s' => Ascii.eqb c p && HasPrefix s' prefix'
  | String _ _, EmptyString => false
  end.

(** [strings.HasSuffix(s, suffix)]:
    [len(s) >= len(suffix) && s[len(s)-len(suffix):] == suffix] *)
Definition HasSuffix (s suffix : string) : bool :=
  (String.length suffix <=? String.length s)%nat
  && String.eqb (drop_bytes (String.length s - String.length suffix) s) suffix.

(** [strings.TrimSuffix(s, suffix)] *)
Definition TrimSuffix (s suffix : string) : string :=
  if HasSuffix s suffix
  then take_bytes (String.length s - String.length suffix) s
  else s.

(** Membership of a byte in an ASCII cutset. *)
Fixpoint inCutset (c : ascii) (cutset : string) : bool :=
  match cutset with
  | EmptyString => false
  | String d cutset' => Ascii.eqb c d || inCutset c cutset'
  end.

(** [strings.TrimLeft(s, cutset)] for a cutset of ASCII bytes: the leading
    bytes that belong to the cutset are removed.  (Go decodes runes; a
    byte of a multi-byte rune is never an ASCII byte, so for the ASCII
    cutsets used by the generator both readings agree.) *)
Fixpoint TrimLeft (s cutset : string) : string :=
  match s with
  | EmptyString => EmptyString
  | String c t => if inCutset c cutset then TrimLeft t cutset else s
  end.

(** [strings.TrimRight(s, cutset)] for a cutset of ASCII bytes. *)
Fixpoint TrimRight (s cutset : string) : string :=
  match s with
  | EmptyString => EmptyString
  | String c t =>
      match TrimRight t cutset with
      | EmptyString => if inCutset c cutset then EmptyString else String c EmptyString
      | t' => String c t'
      end
  end.

(** [strings.Join(elems, sep)] *)
Fixpoint Join (elems : list string) (sep : string) : string :=
  match elems with
  | [] => EmptyString
  | [x] => x
  | x :: rest => x ++ sep ++ Join rest sep
  end.

(** [strings.Split(s, "\n")]: the segments between newlines; never empty. *)
Fixpoint SplitLines (s : string) : list string :=
  match s with
  | EmptyString => [EmptyString]
  | String c t =>
      if Ascii.eqb c NL then EmptyString :: SplitLines t
      else match SplitLines t with
           | l :: ls => String c l :: ls
           | [] => [String c EmptyString]
           end
  end.

(** *** UTF-8: [utf8.DecodeRuneInString] *)

Definition RuneError : N := 65533.

Definition between (lo b hi : N) : bool := ((lo <=? b) && (b <=? hi))%N.

(** The rune at the head of [s] and its width in bytes; invalid or short
    input gives [(RuneError, 1)], the empty string [(RuneError, 0)]. *)
Definition DecodeRuneInString (s : string) : N * nat :=
  match s with
  | EmptyString => (RuneError, 0)
  | String c0 t =>
      let b0 := byte c0 in
      if (b0 <? 128)%N then (b0, 1)
      else if between 194 b0 223 then
        match t with
        | String c1 _ =>
            let b1 := byte c1 in
            if between 128 b1 191
            then (N.lor (N.shiftl (N.land b0 31) 6) (N.land b1 63), 2)
            else (RuneError, 1)
        | _ => (RuneError, 1)
        end
      else if between 224 b0 239 then
        match t with
        | String c1 (String c2 _) =>
            let b1 := byte c1 in
            let b2 := byte c2 in
            let lo := if (b0 =? 224)%N then 160%N else 128%N in
            let hi := if (b0 =? 237)%N then 159%N else 191%N in
            if between lo b1 hi && between 128 b2 191
            then (N.lor (N.shiftl (N.land b0 15) 12)
                    (N.lor (N.shiftl (N.land b1 63) 6) (N.land b2 63)), 3)
            else (RuneError, 1)
        | _ => (RuneError, 1)
        end
      else if between 240 b0 244 then
        match t with
        | String c1 (String c2 (String c3 _)) =>
            let b1 := byte c1 in
            let b2 := byte c2 in
            let b3 := byte c3 in
            let lo := if (b0 =? 240)%N then 144%N else 128%N in
            let hi := if (b0 =? 244)%N then 143%N else 191%N in
            if between lo b1 hi && between 128 b2 191 && between 128 b3 191
            then (N.lor (N.shiftl (N.land b0 7) 18)
                    (N.lor (N.shiftl (N.land b1 63) 12)
                       (N.lor (N.shiftl (N.land b2 63) 6) (N.land b3 63))), 4)
            else (RuneError, 1)
        | _ => (RuneError, 1)
        end
      else (RuneError, 1)
  end.

(** *** White space: [unicode.IsSpace] on UTF-8 text *)

Definition isAsciiSpace (c : ascii) : bool :=
  Ascii.eqb c TAB || Ascii.eqb c NL || Ascii.eqb c VT || Ascii.eqb c FF
  || Ascii.eqb c CR || Ascii.eqb c SP.

(** [unicode.IsSpace]: in Latin-1 the runes tab, newline, vertical tab,
    form feed, carriage return, space, U+0085 (NEL) and U+00A0 (NBSP);
    beyond it the runes of the category Z and the property Pattern_White_Space. *)
Definition IsSpace (r : N) : bool :=
  (between 9 r 13 || (r =? 32) || (r =? 133) || (r =? 160)
   || (r =? 5760) || between 8192 r 8202 || (r =? 8232) || (r =? 8233)
   || (r =? 8239) || (r =? 8287) || (r =? 12288))%N.

(** Length in bytes of the white-space rune that begins [s], or [0] when
    [s] does not begin with one. *)
Definition spacePrefixLen (s : string) : nat :=
  let (r, size) := DecodeRuneInString s in
  if IsSpace r then size else 0.

(** [strings.TrimLeftFunc(s, unicode.IsSpace)] *)
Fixpoint trimLeftSpace_aux (fuel : nat) (s : string) : string :=
  match fuel with
  | O => s
  | S fuel' =>
      match spacePrefixLen s with
      | O => s
      | k => trimLeftSpace_aux fuel' (drop_bytes k s)
      end
  end.

Definition trimLeftSpace (s : string) : string :=
  trimLeftSpace_aux (String.length s) s.

(** [s] consists of white-space runes only. *)
Definition allSpace (s : string) : bool :=
  String.eqb (trimLeftSpace s) EmptyString.

(** [strings.TrimRightFunc(s, unicode.IsSpace)]: the longest suffix made of
    white-space runes is removed.  Decoding backwards from the end
    ([utf8.DecodeLastRuneInString]) peels exactly the encodings that a
    forward reading of that suffix finds, since an encoding's continuation
    bytes are never rune starts. *)
Fixpoint trimRightSpace (s : string) : string :=
  match s with
  | EmptyString => EmptyString
  | String c t => if allSpace s then EmptyString else String c (trimRightSpace t)
  end.

(** [strings.TrimSpace(s)] *)
Definition TrimSpace (s : string) : string :=
  trimRightSpace (trimLeftSpace s).

(** *** [bufio.Scanner] with the default [ScanLines] split function *)

(** [bufio.MaxScanTokenSize]: a line needs its bytes and its newline in a
    buffer of at most this size. *)
Definition MaxScanTokenSize : N := 65536.

(** [dropCR]: a line's trailing carriage return is dropped. *)
Fixpoint dropCR (line : string) : string :=
  match line with
  | EmptyString => EmptyString
  | String c EmptyString => if Ascii.eqb c CR then EmptyString else line
  | String c t => String c (dropCR t)
  end.

Definition fitsToken (line : string) : bool :=
  (N.of_nat (String.length line) <? MaxScanTokenSize)%N.

(** The segments [bufio.ScanLines] sees: those of [SplitLines], where an
    empty last segment (the text ends with a newline, or is empty) is
    no token. *)
Fixpoint lineSegments (segs : list string) : list string :=
  match segs with
  | [] => []
  | [l] => if String.eqb l EmptyString then [] else [l]
  | l :: rest => l :: lineSegments rest
  end.

(** Scanning stops for good (with [ErrTooLong], which the generator never
    inspects) at the first line that does not fit the buffer. *)
Fixpoint scanWhileFits (segs : list string) : list string :=
  match segs with
  | [] => []
  | l :: rest => if fitsToken l then dropCR l :: scanWhileFits rest else []
  end.

(** The tokens [s.Text()] that the loop [for s.Scan() { ... }] visits over
    [bufio.NewScanner(strings.NewReader(text))]. *)
Definition ScanLines (text : string) : list string :=
  scanWhileFits (lineSegments (SplitLines text)).

(** *** [github.com/lithammer/dedent]: [dedent.Dedent] (v1.1.0) *)

Definition isBlank (c : ascii) : bool := Ascii.eqb c SP || Ascii.eqb c TAB.

Fixpoint allBlank (s : string) : bool :=
  match s with
  | EmptyString => true
  | String c t => isBlank c && allBlank t
  end.

(** The replacement of [whitespaceOnly] (a line of spaces and tabs only,
    in multi-line mode) by the empty string, on one line. *)
Definition blankLine (l : string) : string :=
  if allBlank l then EmptyString else l.

Fixpoint leadingBlank (l : string) : string :=
  match l with
  | EmptyString => EmptyString
  | String c t => if isBlank c then String c (leadingBlank t) else EmptyString
  end.

(** The submatch of [leadingWhitespace] on one line: the spaces and tabs
    that begin it, provided a character other than space, tab and
    newline follows them; a line without such a character has none. *)
Definition lineIndent (l : string) : option string :=
  if allBlank l then None else Some (leadingBlank l).

(** The loop over [indents], from its second element on: it looks for the
    longest leading string of spaces and tabs common to all lines, and
    gives up (empty margin, [break]) on two incomparable indents. *)
Fixpoint commonMargin (margin : string) (indents : list string) : string :=
  match indents with
  | [] => margin
  | indent :: rest =>
      if HasPrefix indent margin then commonMargin margin rest
      else if HasPrefix margin indent then commonMargin indent rest
      else EmptyString
  end.

Definition findMargin (indents : list string) : string :=
  match indents with
  | [] => EmptyString
  | first :: rest => commonMargin first rest
  end.

(** The removal of [margin] where it begins a line (the regular
    expression [^margin] in multi-line mode), on one line. *)
Definition stripMargin (margin l : string) : string :=
  if HasPrefix l margin then drop_bytes (String.length margin) l else l.

Definition Dedent (text : string) : string :=
  let lines := map blankLine (SplitLines text) in
  let margin := findMargin (omap lineIndent lines) in
  if String.eqb margin EmptyString
  then Join lines (String NL EmptyString)
  else Join (map (stripMargin margin) lines) (String NL EmptyString).

(** *** [string(rune)] *)

(** [utf8.ValidRune] *)
Definition ValidRune (r : N) : bool :=
  ((r <? 55296) || ((57343 <? r) && (r <=? 1114111)))%N.

Definition chr (n : N) : ascii := ascii_of_N n.

(** [string(r)] for a rune [r]: its UTF-8 encoding, [U+FFFD] for a value
    that is no code point. *)
Definition runeString (r : N) : string :=
  if (r <? 128)%N then String (chr r) EmptyString
  else if (r <? 2048)%N then
    String (chr (N.lor 192 (N.shiftr r 6)))
      (String (chr (N.lor 128 (N.land r 63))) EmptyString)
  else if negb (ValidRune r) then
    String (chr 239) (String (chr 191) (String (chr 189) EmptyString))
  else if (r <? 65536)%N then
    String (chr (N.lor 224 (N.shiftr r 12)))
      (String (chr (N.lor 128 (N.land (N.shiftr r 6) 63)))
         (String (chr (N.lor 128 (N.land r 63))) EmptyString))
  else
    String (chr (N.lor 240 (N.shiftr r 18)))
      (String (chr (N.lor 128 (N.land (N.shiftr r 12) 63)))
         (String (chr (N.lor 128 (N.land (N.shiftr r 6) 63)))
            (String (chr (N.lor 128 (N.land r 63))) EmptyString))).

(** *** [strconv.UnquoteChar] with the double quote as [quote] *)

Definition unhex (c : ascii) : option N :=
  let b := byte c in
  if between 48 b 57 then Some (b - 48)%N
  else if between 97 b 102 then Some (b - 97 + 10)%N
  else if between 65 b 70 then Some (b - 65 + 10)%N
  else None.

(** [for j := 0; j < n; j++ { x, ok := unhex(s[j]); ...; v = v<<4 | x }],
    after the check [len(s) < n]. *)
Fixpoint hexDigits (n : nat) (s : string) (v : N) : option N :=
  match n with
  | O => Some v
  | S n' =>
      match s with
      | EmptyString => None
      | String c t =>
          match unhex c with
          | None => None
          | Some x => hexDigits n' t (N.lor (N.shiftl v 4) x)
          end
      end
  end.

(** The two further octal digits of [\ooo]. *)
Fixpoint octDigits (n : nat) (s : string) (v : N) : option N :=
  match n with
  | O => Some v
  | S n' =>
      match s with
      | EmptyString => None
      | String c t =>
          if between 48 (byte c) 55
          then octDigits n' t (N.lor (N.shiftl v 3) (byte c - 48))
          else None
      end
  end.

(** The rune [strconv.UnquoteChar(s, quote)] returns as [value], for
    [quote] the double quote; [None] is
    its only error, [strconv.ErrSyntax].  The other results ([multibyte],
    [tail]) are discarded by the generator. *)
Definition UnquoteChar (s : string) : option N :=
  match s with
  | EmptyString => None
  | String c t =>
      if Ascii.eqb c DQUOTE then None
      else if (128 <=? byte c)%N then Some (fst (DecodeRuneInString s))
      else if negb (Ascii.eqb c BACKSLASH) then Some (byte c)
      else
        match t with
        | EmptyString => None
        | String c1 t1 =>
            let b := byte c1 in
            if (b =? 97)%N then Some 7%N            (* \a *)
            else if (b =? 98)%N then Some 8%N       (* \b *)
            else if (b =? 102)%N then Some 12%N     (* \f *)
            else if (b =? 110)%N then Some 10%N     (* \n *)
            else if (b =? 114)%N then Some 13%N     (* \r *)
            else if (b =? 116)%N then Some 9%N      (* \t *)
            else if (b =? 118)%N then Some 11%N     (* \v *)
            else if (b =? 120)%N then hexDigits 2 t1 0     (* \xhh *)
            else if (b =? 117)%N then                      (* \uhhhh *)
              match hexDigits 4 t1 0 with
              | Some v => if ValidRune v then Some v else None
              | None => None
              end
            else if (b =? 85)%N then                       (* \Uhhhhhhhh *)
              match hexDigits 8 t1 0 with
              | Some v => if ValidRune v then Some v else None
              | None => None
              end
            else if between 48 b 55 then                   (* \ooo *)
              match octDigits 2 t1 (b - 48) with
              | Some v => if (255 <? v)%N then None else Some v
              | None => None
              end
            else if (b =? 92)%N then Some 92%N      (* \\ *)
            else if (b =? 34)%N then Some 34%N      (* backslash, double quote *)
            else None                               (* backslash-apostrophe and the rest *)
        end
  end.

End GoStrings.

(** ** Reflection: method signatures and the prototype check *)

Module Reflect.
Import GoStrings.

(** [reflect.Type], as far as the registry inspects it: a type is either
    an interface type with its method set ([Kind() == reflect.Interface])
    or a type of another kind. *)
Inductive GoType : Type :=
| TNamed (name : string)
| TInterface (name : string) (methods : list string)
| TSlice (elem : GoType)
| TPtr (elem : GoType).

Fixpoint GoType_eqb (t u : GoType) : bool :=
  match t, u with
  | TNamed n, TNamed m => String.eqb n m
  | TInterface n ms, TInterface m us =>
      String.eqb n m && bool_decide (ms = us)
  | TSlice a, TSlice b => GoType_eqb a b
  | TPtr a, TPtr b => GoType_eqb a b
  | _, _ => false
  end.

(** [t.String()], the rendering under [%s]. *)
Fixpoint GoType_String (t : GoType) : string :=
  match t with
  | TNamed n => n
  | TInterface n _ => n
  | TSlice e => "[]" ++ GoType_String e
  | TPtr e => "*" ++ GoType_String e
  end.

(** A slice of types under [%s]: the elements between brackets, separated
    by spaces. *)
Definition GoTypes_String (ts : list GoType) : string :=
  "[" ++ Join (map GoType_String ts) " " ++ "]".

(** What a Go call can do besides returning: it panics. *)
Inductive outcome (A : Type) : Type :=
| Returned (a : A)
| Panicked (msg : string).
Arguments Returned {A} a.
Arguments Panicked {A} msg.

(** [t.Implements(u)] for an interface type [t] with method set
    [methods]: [u] has to be an interface type, else the call panics. *)
Definition Implements (methods : list string) (u : GoType) : outcome bool :=
  match u with
  | TInterface _ us =>
      Returned (forallb (fun m => existsb (String.eqb m) methods) us)
  | _ => Panicked "reflect: non-interface type passed to Type.Implements"
  end.

(** The type of a method value: [NumIn]/[In], [NumOut]/[Out], [IsVariadic].
    For a variadic method the last input is the slice of the tail. *)
Record MethodType : Type := {
  In : list GoType;
  Out : list GoType;
  IsVariadic : bool
}.

(** The test of one parameter against the prototype's:
    [(param.Kind() == reflect.Interface && !param.Implements(proto)) ||
     (param.Kind() != reflect.Interface && param != proto)]. *)
Definition mismatches (param proto : GoType) : outcome bool :=
  match param with
  | TInterface _ methods =>
      match Implements methods proto with
      | Returned b => Returned (negb b)
      | Panicked msg => Panicked msg
      end
  | _ => Returned (negb (GoType_eqb param proto))
  end.

(** [for i := 0; i < len(proto); i++ { param := params[i]; if ... { return err } }]:
    [Returned true] when the loop returned [err]. *)
Fixpoint checkParams (params proto : list GoType) {struct proto} : outcome bool :=
  match proto with
  | [] => Returned false
  | q :: proto' =>
      match params with
      | [] => Panicked "index out of range"
      | p :: params' =>
          match mismatches p q with
          | Returned true => Returned true
          | Returned false => checkParams params' proto'
          | Panicked msg => Panicked msg
          end
      end
  end.

Section Prototype.

(** The package variables [PrototypeIn] and [PrototypeOut], as
    [initCallables] leaves them. *)
Variable PrototypeIn PrototypeOut : list GoType.

(** The error [CheckPrototype] builds before it looks at anything. *)
Definition mismatchError (typeName : string) (c : MethodType) : string :=
  "expected (" ++ typeName ++ ").Call(" ++ GoTypes_String (In c) ++ ")("
  ++ GoTypes_String (Out c) ++ ") to match Call("
  ++ GoTypes_String PrototypeIn ++ ")(" ++ GoTypes_String PrototypeOut ++ ")".

(** [CheckPrototype(callable)], on the name of the callable's type and
    the type of its [Call] method ([None]: the type has no such method,
    and [c.Type()] panics on the zero [reflect.Value]).  The result is the
    returned error, [None] for [nil]. *)
Definition CheckPrototype (typeName : string) (call : option MethodType)
  : outcome (option string) :=
  match call with
  | None => Panicked "reflect: call of reflect.Value.Type on zero Value"
  | Some c =>
      let err := mismatchError typeName c in
      if (length (In c) <? length PrototypeIn)%nat
         || negb (length (Out c) =? length PrototypeOut)%nat
      then Returned (Some err)
      else
        match checkParams (In c) PrototypeIn with
        | Panicked msg => Panicked msg
        | Returned true => Returned (Some err)
        | Returned false =>
            match checkParams (Out c) PrototypeOut with
            | Panicked msg => Panicked msg
            | Returned true => Returned (Some err)
            | Returned false => Returned None
            end
        end
  end.

(** The loop of [initCallables] over the callables of the table, in the
    order the iteration visits them: the messages collected in [errs]. *)
Fixpoint checkAll (callables : list (string * option MethodType))
  : outcome (list string) :=
  match callables with
  | [] => Returned []
  | (typeName, call) :: rest =>
      match CheckPrototype typeName call with
      | Panicked msg => Panicked msg
      | Returned err =>
          match checkAll rest with
          | Panicked msg => Panicked msg
          | Returned errs =>
              Returned (match err with Some e => e :: errs | None => errs end)
          end
      end
  end.

End Prototype.

(** [initCallables()], on the method [Call] of [Prototype] as
    [reflect.TypeOf(Prototype{}).MethodByName] finds it (its first input
    is the receiver) and the callables of [Callables] in iteration order.
    Returns the prototype signature it stored and the error. *)
Definition initCallables (protoCall : option MethodType)
    (callables : list (string * option MethodType))
  : outcome (list GoType * list GoType * option string) :=
  match protoCall with
  | None => Returned ([], [], Some "Prototype has no Call method")
  | Some p =>
      let PrototypeIn := tail (In p) in
      let PrototypeOut := Out p in
      match checkAll PrototypeIn PrototypeOut callables with
      | Panicked msg => Panicked msg
      | Returned errs =>
          if (0 <? length errs)%nat
          then Returned (PrototypeIn, PrototypeOut, Some (Join errs (String NL EmptyString)))
          else Returned (PrototypeIn, PrototypeOut, None)
      end
  end.

(** [func init()]: a failed [initCallables] panics. *)
Definition init (protoCall : option MethodType)
    (callables : list (string * option MethodType))
  : outcome (list GoType * list GoType) :=
  match initCallables protoCall callables with
  | Panicked msg => Panicked msg
  | Returned (pin, pout, Some err) => Panicked err
  | Returned (pin, pout, None) => Returned (pin, pout)
  end.

End Reflect.

(** ** The abstract syntax the generator walks ([parser/ast]) *)

(** The declarations of package [ast] are used by the generator through
    the fields and methods below.  A Go struct with one pointer per
    alternative ([Expr], [BasicLit], [Stmt], the fragments) is a record of
    options: [nil] is [None], and the generator's [switch] tests the
    fields in the order of the source. *)
Module ast.

(** [ast.Kind] is a Go string type. *)
Abbreviation Kind := string (only parsing).

(** Modelled from the spec: the constants of [ast.Kind] (section 3, Kind,
    and the keywords of the surface syntax); [None] is the sentinel for
    no type hint. *)
Definition KNone : Kind := "none".
Definition KString : Kind := "string".
Definition KInt : Kind := "int".
Definition KBool : Kind := "bool".
Definition KFilesystem : Kind := "fs".
Definition KPipeline : Kind := "pipeline".
Definition KOption : Kind := "option".

(** A scope is referred to by pointer: its address in the scope store. *)
Abbreviation ScopeId := nat (only parsing).

Record Position : Type := {
  Filename : string;
  Line : nat;
  Column : nat
}.

#[global] Instance Position_eq_dec : EqDecision Position.
Proof. solve_decision. Defined.

Record Ident : Type := {
  Ident_Pos : Position;
  Text : string
}.

(** [ast.IdentExpr]: [Reference] is the member of a qualified name
    ([ie.Reference.Ident]), [None] for an unqualified one. *)
Record IdentExpr : Type := {
  IdentExpr_Pos : Position;
  Ident_ : Ident;
  Reference : option Ident
}.

(** [ast.NewIdentExpr(name)] *)
Definition NewIdentExpr (name : string) : IdentExpr :=
  {| IdentExpr_Pos := {| Filename := ""; Line := 0; Column := 0 |};
     Ident_ := {| Ident_Pos := {| Filename := ""; Line := 0; Column := 0 |};
                  Text := name |};
     Reference := None |}.

(** [ie.String()], as [fmt.Sprintf] renders a call's name under [%s]. *)
Definition IdentExpr_String (ie : IdentExpr) : string :=
  match Reference ie with
  | Some r => Text (Ident_ ie) ++ "." ++ Text r
  | None => Text (Ident_ ie)
  end.

(** [ast.Field], a parameter: [Modifier] is set on a variadic one. *)
Record Field : Type := {
  Modifier : option string;
  Field_Kind : Kind;
  Field_Name : Ident
}.

Record BuiltinDecl : Type := {
  BuiltinDecl_Name : string;
  Kinds : list Kind
}.

(** Raw heredocs hold no expression. *)
Record RawHeredocFragment : Type := {
  RawSpaces : option string;
  RawText : option string
}.

Record RawHeredoc : Type := {
  RawHeredoc_Start : string;
  RawHeredoc_Fragments : list RawHeredocFragment;
  RawHeredoc_Terminate : string
}.

Inductive Expr : Type := mkExpr {
  FuncLit_ : option FuncLit;
  BasicLit_ : option BasicLit;
  CallExpr_ : option CallExpr
}
with FuncLit : Type := mkFuncLit {
  FuncLit_Type : Kind;
  FuncLit_Body : option BlockStmt
}
with BasicLit : Type := mkBasicLit {
  Decimal : option Z;
  Numeric : option Z;
  Bool_ : option bool;
  Str : option StringLit;
  RawString : option string;
  Heredoc_ : option Heredoc;
  RawHeredoc_ : option RawHeredoc
}
with StringLit : Type := mkStringLit {
  StringLit_Fragments : list StringFragment
}
with StringFragment : Type := mkStringFragment {
  Escaped : option string;
  Interpolated : option Expr;
  Text_ : option string
}
with Heredoc : Type := mkHeredoc {
  Heredoc_Start : string;
  Heredoc_Fragments : list HeredocFragment;
  Heredoc_Terminate : string
}
with HeredocFragment : Type := mkHeredocFragment {
  HSpaces : option string;
  HEscaped : option string;
  HInterpolated : option Expr;
  HText : option string
}
with CallExpr : Type := mkCallExpr {
  CallExpr_Name : IdentExpr;
  CallExpr_Signature : list Kind;
  CallExpr_Args : list Expr
}
with BlockStmt : Type := mkBlockStmt {
  BlockStmt_Kind : Kind;
  Stmts : list Stmt
}
with Stmt : Type := mkStmt {
  Call_ : option CallStmt;
  ExprStmt_ : option Expr
}
with CallStmt : Type := mkCallStmt {
  CallStmt_Name : IdentExpr;
  CallStmt_Signature : list Kind;
  CallStmt_Args : list Expr;
  WithClause : option Expr;
  BindClause_ : option BindClause
}
with BindClause : Type := mkBindClause {
  BindClause_Pos : Position;
  Closure : option FuncDecl
}
with FuncDecl : Type := mkFuncDecl {
  FuncDecl_Name : Ident;
  Params : list Field;
  FuncDecl_Scope : ScopeId;
  FuncDecl_Body : option BlockStmt
}.

(** A bind clause is compared by pointer ([call.BindClause == b.Bind]):
    two clauses are the same node when they stand at the same position
    of the source. *)

(** [ast.ImportDecl]: [DeprecatedPath] is the path of the old import
    syntax, when that was used. *)
Record ImportDecl : Type := {
  ImportDecl_Name : Ident;
  ImportDecl_Expr : Expr;
  DeprecatedPath : option StringLit
}.

(** [ast.Binding]: [Bind] is the clause the binding comes from. *)
Record Binding : Type := {
  Bind : BindClause;
  Binding_Name : Ident
}.

End ast.

(** ** The code generator *)

Module CodeGen.
Import GoStrings Reflect ast.

(** The types of the external collaborators, opaque to the core:
    filesystems, pipelines, the option fragments and requests of the
    build engine, the build client, directory and file handles, reflected
    arguments, and the state of the outside world. *)
Record HostTypes : Type := {
  Filesystem : Type;
  Pipeline : Type;
  HostOption : Type;
  SolveOption : Type;
  Request : Type;
  Client : Type;
  Directory : Type;
  File : Type;
  Reflected : Type;
  World : Type
}.

Existing Class HostTypes.

Section WithHostTypes.

Context {T : HostTypes}.

(** *** Modules, nodes, errors, values *)

(** [ast.Module], as the generator reads it: [mod.Pos.Filename],
    [mod.Scope], [mod.Directory]. *)
Record Module : Type := {
  Module_Filename : string;
  Module_Scope : ScopeId;
  Module_Directory : option (Directory T)
}.

(** An [ast.Node]: what a scope object resolves to, what an error or the
    debugger is pointed at. *)
Inductive Node : Type :=
| NodeNil
| NodeModule (m : Module)
| NodeBuiltinDecl (bd : BuiltinDecl)
| NodeFuncDecl (fd : FuncDecl)
| NodeBindClause (bc : BindClause)
| NodeImportDecl (id : ImportDecl)
| NodeField (f : Field)
| NodeExpr (e : Expr)
| NodeIdentExpr (ie : IdentExpr)
| NodeIdent (i : Ident)
| NodeStmt (s : Stmt)
| NodeBasicLit (l : BasicLit)
| NodeStringLit (l : StringLit)
| NodeType (k : Kind).

Inductive fmtArg : Type :=
| FmtString (s : string)
| FmtInt (n : Z).

(** The errors the generator builds or passes on.  [NotExist] is an
    error of the host for which [errdefs.IsNotExist] holds, [HostError]
    any other error of an external collaborator. *)
Inductive error : Type :=
| TargetNotDefined (target filename : string)
| InternalError (node : Node) (format : string) (args : list fmtArg)
| UndefinedIdent (ident : Ident)
| ImportPathNotExist (cause : error) (node : Node) (filename : string)
| BacktraceError (frames : list IdentExpr) (cause : error)
| ErrSyntax
| ErrBadCast
| ErrorString (msg : string)
| NotExist (msg : string)
| HostError (msg : string).

(** [errdefs.WithInternalErrorf] marks internal errors. *)
Definition isInternalError (e : error) : bool :=
  match e with
  | InternalError _ _ _ => true
  | _ => false
  end.

Definition IsNotExist (e : error) : bool :=
  match e with
  | NotExist _ => true
  | _ => false
  end.

(** A run of the model ends with a result, with a returned [error], or
    it is cut short: by a Go panic, or because the fuel of the model ran
    out (the Go program would still be running). *)
Inductive abort : Type :=
| OutOfFuel
| GoPanic (msg : string).

Inductive Res (A : Type) : Type :=
| Ok (a : A)
| Err (e : error)
| Abort (r : abort).
Arguments Ok {A} a.
Arguments Err {A} e.
Arguments Abort {A} r.

(** An [Option] is a list of option fragments: those a built-in
    produced, the extra solve options of the generator, and the
    breakpoint command. *)
Inductive OptionItem : Type :=
| OptHost (o : HostOption T)
| OptSolve (o : SolveOption T)
| breakpointCommand (command : list string).

Abbreviation Option := (list OptionItem) (only parsing).

(** Modelled from the spec: [Value] (section 3), an opaque tagged union
    carrying a kind and one of an integer, a boolean, a string, a
    filesystem, an option list, a pipeline.  [VZero] is the content of a
    fresh register, [VError] the error a register stores (section 4.5,
    the state machine of a register). *)
Inductive Value : Type :=
| VZero
| VInt (n : Z)
| VBool (b : bool)
| VString (s : string)
| VFilesystem (fs : Filesystem T)
| VOption (opts : list OptionItem)
| VPipeline (p : Pipeline T)
| VError (e : error).

(** Modelled from the spec: [Value.Kind()]. *)
Definition Value_Kind (v : Value) : Kind :=
  match v with
  | VZero => KNone
  | VInt _ => KInt
  | VBool _ => KBool
  | VString _ => KString
  | VFilesystem _ => KFilesystem
  | VOption _ => KOption
  | VPipeline _ => KPipeline
  | VError _ => KNone
  end.

(** Modelled from the spec: the conversions [Value.String()],
    [Value.Option()], [Value.Filesystem()]: conversion to a concrete type
    fails loudly ([ErrBadCast]) if the tag does not match; a stored error
    is returned as it is. *)
Definition Value_String (v : Value) : Res string :=
  match v with
  | VString s => Ok s
  | VError e => Err e
  | _ => Err ErrBadCast
  end.

Definition Value_Option (v : Value) : Res (list OptionItem) :=
  match v with
  | VOption o => Ok o
  | VError e => Err e
  | _ => Err ErrBadCast
  end.

Definition Value_Filesystem (v : Value) : Res (Filesystem T) :=
  match v with
  | VFilesystem fs => Ok fs
  | VError e => Err e
  | _ => Err ErrBadCast
  end.

Definition isError (v : Value) : bool :=
  match v with
  | VError _ => true
  | _ => false
  end.

(** *** Scopes *)

(** What [obj.Data] holds: nothing, the value bound to a parameter, or
    the module an import resolved to. *)
Inductive Data : Type :=
| DNil
| DValue (v : Value)
| DModule (m : Module).

Record Object : Type := {
  Object_Kind : Kind;
  Object_Ident : Ident;
  Object_Node : Node;
  Object_Data : Data
}.

(** [ast.Scope] *)
Record Scope : Type := {
  Scope_Node : Node;
  Parent : option ScopeId;
  Objects : gmap string Object
}.

(** The state the generator runs in: the scopes it reaches through
    pointers, and the world of the external collaborators. *)
Record State : Type := {
  scopes : gmap nat Scope;
  world : World T
}.

(** An address above every scope of the store. *)
Definition nextScope (m : gmap nat Scope) : nat :=
  map_fold (fun k _ acc => Nat.max (S k) acc) 0 m.

(** Modelled from the spec: [ast.NewScope(node, parent)] (section 3,
    Scope): a new, empty scope below [parent]. *)
Definition NewScope (node : Node) (parent : ScopeId) (st : State) : ScopeId * State :=
  let id := nextScope (scopes st) in
  (id, {| scopes := <[id := {| Scope_Node := node; Parent := Some parent; Objects := ∅ |}]> (scopes st);
          world := world st |}).

(** Modelled from the spec: [scope.Insert(obj)]: the object is entered
    under its name. *)
Definition Insert (scope : ScopeId) (obj : Object) (st : State) : State :=
  {| scopes := alter (fun sc => {| Scope_Node := Scope_Node sc; Parent := Parent sc;
                                    Objects := <[Text (Object_Ident obj) := obj]> (Objects sc) |})
                 scope (scopes st);
     world := world st |}.

(** Modelled from the spec: [scope.Lookup(name)] walks outward (section
    3, Scope) and returns the first object of that name, with the scope
    that holds it.  The walk is over at most as many scopes as the store
    has; on a cyclic chain of parents, which [NewScope] cannot build, the
    Go method would not return. *)
Fixpoint Lookup_from (fuel : nat) (m : gmap nat Scope) (scope : ScopeId) (name : string)
  : option (ScopeId * Object) :=
  match fuel with
  | O => None
  | S fuel' =>
      match m !! scope with
      | None => None
      | Some sc =>
          match Objects sc !! name with
          | Some obj => Some (scope, obj)
          | None =>
              match Parent sc with
              | Some p => Lookup_from fuel' m p name
              | None => None
              end
          end
      end
  end.

Definition Lookup (st : State) (scope : ScopeId) (name : string) : option (ScopeId * Object) :=
  Lookup_from (size (scopes st)) (scopes st) scope name.

(** Modelled from the spec: [scope.Root()], the outermost scope. *)
Fixpoint Root_from (fuel : nat) (m : gmap nat Scope) (scope : ScopeId) : option Scope :=
  match fuel with
  | O => None
  | S fuel' =>
      match m !! scope with
      | None => None
      | Some sc =>
          match Parent sc with
          | Some p => Root_from fuel' m p
          | None => Some sc
          end
      end
  end.

Definition Root (st : State) (scope : ScopeId) : option Scope :=
  Root_from (size (scopes st)) (scopes st) scope.

(** The assignment [obj.Data = d] to the object [name] of [scope]. *)
Definition setData (scope : ScopeId) (name : string) (d : Data) (st : State) : State :=
  {| scopes := alter (fun sc =>
                  {| Scope_Node := Scope_Node sc; Parent := Parent sc;
                     Objects := alter (fun obj =>
                                   {| Object_Kind := Object_Kind obj; Object_Ident := Object_Ident obj;
                                      Object_Node := Object_Node obj; Object_Data := d |})
                                  name (Objects sc) |})
                 scope (scopes st);
     world := world st |}.

(** The scopes a checker pass built, stored from address [base] on. *)
Fixpoint storeScopes (base : nat) (built : list Scope) (m : gmap nat Scope) : gmap nat Scope :=
  match built with
  | [] => m
  | sc :: rest => storeScopes (S base) rest (<[base := sc]> m)
  end.

(** *** Registers *)

(** The closure given to [SetAsync]: [func(Value) (Value, error)]. *)
Definition Async : Type := Value -> State -> Res Value * State.

(** Modelled from the spec: [Register] (sections 3, 4.5 and 5).  A cell
    holding a [Value]; [SetAsync] appends a closure that receives the
    register's prior value and returns a new one; [Value()] forces the
    chain: it runs the deferred closures in insertion order on the forcing
    thread and returns the final value or the first error; once an error
    is stored, every subsequent [Value()] returns it unchanged. *)
Record Register : Type := {
  held : Value;
  deferred : list Async
}.

Definition NewRegister : Register :=
  {| held := VZero; deferred := [] |}.

Definition Register_SetAsync (f : Async) (r : Register) : Register :=
  {| held := held r; deferred := deferred r ++ [f] |}.

(** [Set(v)] stores [v]: it takes its place in the chain, after the
    closures deferred before it. *)
Definition Register_Set (v : Value) (r : Register) : Register :=
  Register_SetAsync (fun _ st => (Ok v, st)) r.

(** Forcing a chain from the value [v]: a stored error is terminal and
    short-circuits the closures after it. *)
Fixpoint force (chain : list Async) (v : Value) (st : State) : Res Value * State :=
  match chain with
  | [] => (Ok v, st)
  | f :: chain' =>
      if isError v then (Ok v, st)
      else
        match f v st with
        | (Ok v', st') => force chain' v' st'
        | (Err e, st') => (Ok (VError e), st')
        | (Abort r, st') => (Abort r, st')
        end
  end.

(** [Value()]: the forced value, and the register as forcing leaves it. *)
Definition Register_Value (r : Register) (st : State) : Res Value * Register * State :=
  match force (deferred r) (held r) st with
  | (Ok v, st') => (Ok v, {| held := v; deferred := [] |}, st')
  | (Err e, st') => (Err e, r, st')
  | (Abort a, st') => (Abort a, r, st')
  end.

(** *** Contexts *)

(** Modelled from the spec: what the generator keeps in [ctx] (section 7:
    the return type in force, the program counter, the call frames and
    arguments accumulated via [WithFrame]/[WithArg], the binding). *)
Record Ctx : Type := {
  ReturnType : Kind;
  ProgramCounter : Node;
  Frames : list IdentExpr;
  CtxArgs : list (nat * Expr);
  CtxBinding : option Binding
}.

Definition WithReturnType (ctx : Ctx) (k : Kind) : Ctx :=
  {| ReturnType := k; ProgramCounter := ProgramCounter ctx; Frames := Frames ctx;
     CtxArgs := CtxArgs ctx; CtxBinding := CtxBinding ctx |}.

Definition WithProgramCounter (ctx : Ctx) (n : Node) : Ctx :=
  {| ReturnType := ReturnType ctx; ProgramCounter := n; Frames := Frames ctx;
     CtxArgs := CtxArgs ctx; CtxBinding := CtxBinding ctx |}.

Definition WithFrame (ctx : Ctx) (frame : IdentExpr) : Ctx :=
  {| ReturnType := ReturnType ctx; ProgramCounter := ProgramCounter ctx;
     Frames := Frames ctx ++ [frame];
     CtxArgs := CtxArgs ctx; CtxBinding := CtxBinding ctx |}.

Definition WithArg (ctx : Ctx) (i : nat) (arg : Expr) : Ctx :=
  {| ReturnType := ReturnType ctx; ProgramCounter := ProgramCounter ctx; Frames := Frames ctx;
     CtxArgs := CtxArgs ctx ++ [(i, arg)]; CtxBinding := CtxBinding ctx |}.

Definition WithBinding (ctx : Ctx) (b : Binding) : Ctx :=
  {| ReturnType := ReturnType ctx; ProgramCounter := ProgramCounter ctx; Frames := Frames ctx;
     CtxArgs := CtxArgs ctx; CtxBinding := Some b |}.

(** [for i, arg := range args { ctx = WithArg(ctx, i, arg) }] *)
Fixpoint WithArgs (ctx : Ctx) (i : nat) (args : list Expr) : Ctx :=
  match args with
  | [] => ctx
  | arg :: rest => WithArgs (WithArg ctx i arg) (S i) rest
  end.

(** Modelled from the spec: [WithBacktraceError(ctx, err)] wraps the error
    with a backtrace drawn from the context's frame stack (section 4.5). *)
Definition WithBacktraceError (ctx : Ctx) (err : error) : error :=
  BacktraceError (Frames ctx) err.

(** *** The generator and its collaborators *)

(** [Debugger]: a yield point for an external debugger.  It is given the
    context, the scope, the node and the options; the register it is also
    handed in Go is not shown to it here (a no-op debugger is valid). *)
Definition Debugger : Type :=
  Ctx -> ScopeId -> Node -> list OptionItem -> World T -> option error * World T.

(** [Resolver.Resolve(ctx, id, fs)] *)
Definition Resolver : Type :=
  Ctx -> ImportDecl -> Filesystem T -> World T -> Res (Directory T) * World T.

Record CodeGen : Type := {
  Debug_ : Debugger;
  cln : Client T;
  resolver : Resolver;
  extraSolveOpts : list (SolveOption T)
}.

(** A [CodeGenOption] is a function from a pointer to the generator to
    an error: here, the generator as the option leaves it, and the error. *)
Definition CodeGenOption : Type := CodeGen -> CodeGen * option error.

Definition NewNoopDebugger : Debugger := fun _ _ _ _ w => (None, w).

Definition WithDebugger (dbgr : Debugger) : CodeGenOption :=
  fun i =>
    ({| Debug_ := dbgr; cln := cln i; resolver := resolver i;
        extraSolveOpts := extraSolveOpts i |}, None).

Definition WithExtraSolveOpts (extraOpts : list (SolveOption T)) : CodeGenOption :=
  fun i =>
    ({| Debug_ := Debug_ i; cln := cln i; resolver := resolver i;
        extraSolveOpts := extraSolveOpts i ++ extraOpts |}, None).

Fixpoint applyOptions (cg : CodeGen) (opts : list CodeGenOption) : CodeGen * option error :=
  match opts with
  | [] => (cg, None)
  | opt :: rest =>
      match opt cg with
      | (cg', Some err) => (cg', Some err)
      | (cg', None) => applyOptions cg' rest
      end
  end.

Definition New (c : Client T) (r : Resolver) (opts : list CodeGenOption)
  : CodeGen * option error :=
  applyOptions {| Debug_ := NewNoopDebugger; cln := c; resolver := r; extraSolveOpts := [] |} opts.

(** The [Call] method of a callable: its reflected type and what calling
    it does.  It is handed the four inputs of the prototype and the
    reflected arguments, and returns the two outputs of the prototype. *)
Record Method : Type := {
  Method_Type : MethodType;
  Method_Call : Ctx -> Client T -> Value -> list OptionItem -> list (Reflected T)
                -> World T -> (option Value * option error) * World T
}.

Record Callable : Type := {
  Callable_Type : string;
  Call : option Method
}.

(** The code of the repository and of the host that the generator calls
    and that is not part of it: the rest of [ast], the parser, the
    checker and linter, the directory handles, the conversions of values
    the core does not look into, the registry. *)
Record Host : Type := {
  (** [dir.Open(filename)] and [rc.Close()] *)
  Directory_Open : Directory T -> string -> World T -> Res (File T) * World T;
  File_Close : File T -> World T -> World T;
  (** [parser.Parse(ctx, rc)] *)
  Parse : Ctx -> File T -> World T -> Res Module * World T;
  (** [checker.SemanticPass(imod)] builds the scopes of the module: given
      the first free address, it returns the error, the module with its
      scope, and the scopes it built, which are stored from that address on. *)
  SemanticPass : ScopeId -> Module -> World T -> (option error * Module * list Scope) * World T;
  (** [linter.Lint(ctx, imod)], whose errors are dropped *)
  Lint : Ctx -> Module -> World T -> World T;
  (** [checker.Check(imod)] and [checker.CheckReferences(mod, name)] read
      the scopes. *)
  Check : gmap nat Scope -> Module -> World T -> option error * World T;
  CheckReferences : gmap nat Scope -> Module -> string -> World T -> option error * World T;
  (** the conversion of a filesystem to a request, and of a value to a
      typed view of it ([Value.Reflect]) *)
  Filesystem_Request : Filesystem T -> Res (Request T);
  Reflect_ : Value -> GoType -> Res (Reflected T);
  (** [solver.Parallel] *)
  Parallel : list (Request T) -> Request T;
  (** the registry [Callables] and the prototype inputs [initCallables] stored *)
  Callables : gmap string (gmap string Callable);
  PrototypeIn : list GoType;
  (** [call.Breakpoint(kind)], [bind.TargetBinding(name)], [ModuleFilename] *)
  Breakpoint : CallStmt -> Kind -> bool;
  TargetBinding : BindClause -> string -> Binding;
  ModuleFilename : string
}.

Context (H : Host).

(** Modelled from the spec: [Value.Request()] (section 4.5, Generate:
    force the register, obtain a filesystem, convert it to a request). *)
Definition Value_Request (v : Value) : Res (Request T) :=
  match v with
  | VFilesystem fs => Filesystem_Request H fs
  | VError e => Err e
  | _ => Err ErrBadCast
  end.

(** Modelled from the spec: [Value.Reflect(type)] (section 4.5): a typed
    view, or a failure; a stored error is returned as it is. *)
Definition Value_Reflect (v : Value) (t : GoType) : Res (Reflected T) :=
  match v with
  | VError e => Err e
  | _ => Reflect_ H v t
  end.

(** Modelled from the spec: [NewValue(ctx, iface)] on what a scope object
    holds: a value is itself. *)
Definition NewValue (ctx : Ctx) (d : Data) : Res Value :=
  match d with
  | DValue v => Ok v
  | _ => Err (InternalError (ProgramCounter ctx) "invalid value type" [])
  end.

(** [cg.Debug(ctx, scope, node, ret, opts)] in the state of the generator. *)
Definition Debug (cg : CodeGen) (ctx : Ctx) (scope : ScopeId) (node : Node)
    (opts : list OptionItem) (st : State) : Res unit * State :=
  match Debug_ cg ctx scope node opts (world st) with
  | (Some err, w) => (Err err, {| scopes := scopes st; world := w |})
  | (None, w) => (Ok tt, {| scopes := scopes st; world := w |})
  end.

(** *** Literals *)

(** The piece of an [Escaped] fragment of a string literal: [escaped[1]]
    is read first (a fragment shorter than two bytes panics). *)
Definition escapedPiece (escaped : string) : Res string :=
  match String.get 1 escaped with
  | None => Abort (GoPanic "index out of range")
  | Some c =>
      if Ascii.eqb c DOLLAR then Ok "$"
      else
        match UnquoteChar escaped with
        | None => Err ErrSyntax
        | Some value => Ok (runeString value)
        end
  end.

(** The piece of an [Escaped] fragment of a heredoc: other escapes are
    kept as they are written. *)
Definition heredocEscapedPiece (escaped : string) : Res string :=
  match String.get 1 escaped with
  | None => Abort (GoPanic "index out of range")
  | Some c => if Ascii.eqb c DOLLAR then Ok "$" else Ok escaped
  end.

(** The text [emitHeredocPieces] stores, from the opener with its
    terminator, the terminator and the pieces. *)
Definition heredocText (start terminate : string) (pieces : list string) : string :=
  (* Build raw heredoc. *)
  let raw := Join pieces "" in
  (* Trim leading newlines and trailing newlines / tabs. *)
  let raw := TrimRight (TrimLeft raw (String NL "")) (String NL (String TAB "")) in
  let opener := TrimSuffix start terminate in
  if String.eqb opener "<<-" then (* dedent *)
    Dedent raw
  else if String.eqb opener "<<~" then (* fold *)
    Join (map TrimSpace (ScanLines (TrimSpace raw))) " "
  else raw.

Definition emitHeredocPieces (start terminate : string) (pieces : list string)
    (ret : Register) : Register :=
  Register_Set (VString (heredocText start terminate pieces)) ret.

(** The pieces of a raw heredoc: of each fragment its spaces, else its text. *)
Fixpoint rawHeredocPieces (fragments : list RawHeredocFragment) : list string :=
  match fragments with
  | [] => []
  | f :: rest =>
      match RawSpaces f, RawText f with
      | Some spaces, _ => spaces :: rawHeredocPieces rest
      | None, Some text => text :: rawHeredocPieces rest
      | None, None => rawHeredocPieces rest
      end
  end.

Definition EmitRawHeredoc (ctx : Ctx) (scope : ScopeId) (heredoc : RawHeredoc)
    (ret : Register) : Register :=
  let pieces := rawHeredocPieces (RawHeredoc_Fragments heredoc) in
  let terminate := "`" ++ RawHeredoc_Terminate heredoc ++ "`" in
  emitHeredocPieces (RawHeredoc_Start heredoc) terminate pieces ret.

(** *** Built-in dispatch *)

(** [for _, kind := range bd.Kinds { c, ok := Callables[kind][bd.Name]; if ok { ...; break } }] *)
Fixpoint firstCallable (kinds : list Kind) (name : string) : option Callable :=
  match kinds with
  | [] => None
  | kind :: rest =>
      match Callables H !! kind ≫= (fun byName => byName !! name) with
      | Some c => Some c
      | None => firstCallable rest name
      end
  end.

Definition findCallable (ctx : Ctx) (bd : BuiltinDecl) : option Callable :=
  if negb (String.eqb (ReturnType ctx) KNone)
  then Callables H !! ReturnType ctx ≫= (fun byName => byName !! BuiltinDecl_Name bd)
  else firstCallable (Kinds bd) (BuiltinDecl_Name bd).

(** [arg.Reflect(param)] over the given arguments, in order, up to the
    first failure. *)
Fixpoint reflectAll (args : list Value) (params : list GoType) : Res (list (Reflected T)) :=
  match args, params with
  | arg :: args', param :: params' =>
      match Value_Reflect arg param with
      | Ok v =>
          match reflectAll args' params' with
          | Ok vs => Ok (v :: vs)
          | Err e => Err e
          | Abort r => Abort r
          end
      | Err e => Err e
      | Abort r => Abort r
      end
  | _, _ => Ok []
  end.

(** [c.Type().In(numIn).Elem()]: the element type of the variadic tail. *)
Definition variadicElem (ty : MethodType) (numIn : nat) : option GoType :=
  match In ty !! numIn with
  | Some (TSlice elem) => Some elem
  | _ => None
  end.

Definition EmitBuiltinDecl (cg : CodeGen) (ctx : Ctx) (scope : ScopeId) (bd : BuiltinDecl)
    (args : list Value) (opts : list OptionItem) (b : option Binding) (v : Value)
    (st : State) : Res Value * State :=
  match findCallable ctx bd with
  | None =>
      (Err (InternalError (ProgramCounter ctx) "unrecognized builtin `%s`"
              [FmtString (BuiltinDecl_Name bd)]), st)
  | Some callable =>
      (* Pass binding if available. *)
      let ctx := match b with Some b' => WithBinding ctx b' | None => ctx end in
      let opts := (opts ++ map OptSolve (extraSolveOpts cg))%list in
      match Call callable with
      | None => (Abort (GoPanic "reflect: call of reflect.Value.Type on zero Value"), st)
      | Some c =>
          let ty := Method_Type c in
          (* Handle variadic arguments separately. *)
          let numIn := if IsVariadic ty then length (In ty) - 1 else length (In ty) in
          if (numIn <? length (PrototypeIn H))%nat
          then (Abort (GoPanic "reflect: Call with too many input arguments"), st)
          else
            let expected := numIn - length (PrototypeIn H) in
            if (length args <? expected)%nat
            then (Err (InternalError (ProgramCounter ctx) "`%s` expected %d args, got %d"
                         [FmtString (BuiltinDecl_Name bd); FmtInt (Z.of_nat expected);
                          FmtInt (Z.of_nat (length args))]), st)
            else
              (* Reflect regular arguments. *)
              match reflectAll (take expected args)
                      (take expected (drop (length (PrototypeIn H)) (In ty))) with
              | Err e => (Err e, st)
              | Abort r => (Abort r, st)
              | Ok regular =>
                  (* Reflect variadic arguments. *)
                  let variadic :=
                    if IsVariadic ty then
                      match variadicElem ty numIn with
                      | Some param =>
                          reflectAll (drop expected args)
                            (replicate (length args - expected) param)
                      | None =>
                          if (expected <? length args)%nat
                          then Abort (GoPanic "reflect: Elem of invalid type")
                          else Ok []
                      end
                    else Ok [] in
                  match variadic with
                  | Err e => (Err e, st)
                  | Abort r => (Abort r, st)
                  | Ok tailArgs =>
                      match Method_Call c ctx (cln cg) v opts (regular ++ tailArgs)%list (world st) with
                      | (_, Some err, w) =>
                          (Err (WithBacktraceError ctx err), {| scopes := scopes st; world := w |})
                      | (Some out, None, w) =>
                          (Ok out, {| scopes := scopes st; world := w |})
                      | (None, None, w) =>
                          (Abort (GoPanic "interface conversion: interface is nil, not codegen.Value"),
                           {| scopes := scopes st; world := w |})
                      end
                  end
              end
      end
  end.

(** *** The evaluator *)

(** What emitting into a register gives: the returned error if any, the
    register as the call leaves it, and the state. *)
Definition Emitted : Type := Res unit * Register * State.

(** [for i, param := range params { if param.Modifier != nil { continue };
    scope.Insert(&ast.Object{...Data: args[i]}) }] *)
Fixpoint insertParams (scope : ScopeId) (params : list Field) (args : list Value)
    (st : State) : State :=
  match params, args with
  | param :: params', arg :: args' =>
      let st' :=
        match Modifier param with
        | Some _ => st
        | None =>
            Insert scope {| Object_Kind := Field_Kind param; Object_Ident := Field_Name param;
                            Object_Node := NodeField param; Object_Data := DValue arg |} st
        end in
      insertParams scope params' args' st'
  | _, _ => st
  end.

(** The command of a breakpoint: every argument has to be a string. *)
Fixpoint breakpointArgs (args : list Value) : Res (list string) :=
  match args with
  | [] => Ok []
  | arg :: rest =>
      if negb (String.eqb (Value_Kind arg) KString)
      then Err (ErrorString "breakpoint args must be strings")
      else
        match Value_String arg with
        | Ok argStr =>
            match breakpointArgs rest with
            | Ok command => Ok (argStr :: command)
            | Err e => Err e
            | Abort r => Abort r
            end
        | Err e => Err e
        | Abort r => Abort r
        end
  end.

(** The functions of the generator that call each other are given their
    callees: an [Evaluator] holds one function for each of them.  The
    loops over fragments, statements and expressions and the closures
    handed to [SetAsync] are named. *)
Record Evaluator : Type := {
  rEmitExpr : CodeGen -> Ctx -> ScopeId -> Expr -> list Value -> list OptionItem ->
              option Binding -> Register -> State -> Emitted;
  rEmitFuncLit : CodeGen -> Ctx -> ScopeId -> FuncLit -> option Binding ->
                 Register -> State -> Emitted;
  rEmitBasicLit : CodeGen -> Ctx -> ScopeId -> BasicLit -> Register -> State -> Emitted;
  rEmitStringLit : CodeGen -> Ctx -> ScopeId -> StringLit -> Register -> State -> Emitted;
  rEmitHeredoc : CodeGen -> Ctx -> ScopeId -> Heredoc -> Register -> State -> Emitted;
  rEmitCallExpr : CodeGen -> Ctx -> ScopeId -> CallExpr -> Register -> State -> Emitted;
  rEmitIdentExpr : CodeGen -> Ctx -> ScopeId -> IdentExpr -> Ident -> list Value ->
                   list OptionItem -> option Binding -> Register -> State -> Emitted;
  rEmitImport : CodeGen -> Ctx -> Module -> ImportDecl -> State ->
                Res (Module * string) * State;
  rEmitFuncDecl : CodeGen -> Ctx -> FuncDecl -> list Value -> option Binding ->
                  Register -> State -> Emitted;
  rEmitBinding : CodeGen -> Ctx -> Binding -> list Value -> Register -> State -> Emitted;
  rlookupCall : CodeGen -> Ctx -> ScopeId -> Ident -> State -> Res unit * State;
  rEmitBlock : CodeGen -> Ctx -> ScopeId -> option BlockStmt -> option Binding ->
               Register -> State -> Emitted;
  rEmitCallStmt : CodeGen -> Ctx -> ScopeId -> CallStmt -> option Binding ->
                  Register -> State -> Emitted;
  rEvaluate : CodeGen -> Ctx -> ScopeId -> option Binding -> list Kind -> list Expr ->
              State -> Res (list Value) * State
}.

Section WithCallees.

(** The callees. *)
Variable rec : Evaluator.

(** [return ret.Value(), err]: the register is forced, then the error
    decides. *)
Definition returnValue (emitted : Emitted) : Res Value * State :=
  match emitted with
  | (Abort r, _, st) => (Abort r, st)
  | (err, ret, st) =>
      match Register_Value ret st with
      | (Abort r, _, st) => (Abort r, st)
      | (Err e, _, st) => (Err e, st)
      | (Ok value, _, st) =>
          match err with
          | Ok _ => (Ok value, st)
          | Err e => (Err e, st)
          | Abort r => (Abort r, st)
          end
      end
  end.

(** The closure [EmitExpr] defers for a call expression. *)
Definition callExprAsync (cg : CodeGen) (ctx : Ctx) (scope : ScopeId) (call : CallExpr) : Async :=
  fun v st =>
    match rlookupCall rec cg ctx scope (Ident_ (CallExpr_Name call)) st with
    | (Err e, st) => (Err e, st)
    | (Abort r, st) => (Abort r, st)
    | (Ok _, st) =>
        let ret := NewRegister in
        let ret := Register_Set v ret in
        returnValue (rEmitCallExpr rec cg ctx scope call ret st)
    end.

Definition EmitExpr_of (cg : CodeGen) (ctx : Ctx) (scope : ScopeId) (expr : Expr)
    (args : list Value) (opts : list OptionItem) (b : option Binding)
    (ret : Register) (st : State) : Emitted :=
  let ctx := WithProgramCounter ctx (NodeExpr expr) in
  match FuncLit_ expr, BasicLit_ expr, CallExpr_ expr with
  | Some lit, _, _ => rEmitFuncLit rec cg ctx scope lit b ret st
  | None, Some lit, _ => rEmitBasicLit rec cg ctx scope lit ret st
  | None, None, Some call =>
      (Ok tt, Register_SetAsync (callExprAsync cg ctx scope call) ret, st)
  | None, None, None => (Err (InternalError (NodeExpr expr) "invalid expr" []), ret, st)
  end.

Definition EmitFuncLit_of (cg : CodeGen) (ctx : Ctx) (scope : ScopeId) (lit : FuncLit)
    (b : option Binding) (ret : Register) (st : State) : Emitted :=
  rEmitBlock rec cg ctx scope (FuncLit_Body lit) b ret st.

Definition EmitBasicLit_of (cg : CodeGen) (ctx : Ctx) (scope : ScopeId) (lit : BasicLit)
    (ret : Register) (st : State) : Emitted :=
  match Decimal lit, Numeric lit, Bool_ lit, Str lit, RawString lit,
        Heredoc_ lit, RawHeredoc_ lit with
  | Some d, _, _, _, _, _, _ => (Ok tt, Register_Set (VInt d) ret, st)
  | None, Some n, _, _, _, _, _ => (Ok tt, Register_Set (VInt n) ret, st)
  | None, None, Some t, _, _, _, _ => (Ok tt, Register_Set (VBool t) ret, st)
  | None, None, None, Some str, _, _, _ => rEmitStringLit rec cg ctx scope str ret st
  | None, None, None, None, Some text, _, _ => (Ok tt, Register_Set (VString text) ret, st)
  | None, None, None, None, None, Some heredoc, _ => rEmitHeredoc rec cg ctx scope heredoc ret st
  | None, None, None, None, None, None, Some heredoc =>
      (Ok tt, EmitRawHeredoc ctx scope heredoc ret, st)
  | None, None, None, None, None, None, None =>
      (Err (InternalError (NodeBasicLit lit) "invalid basic lit" []), ret, st)
  end.

(** The piece of an interpolated expression: it is evaluated into a
    register of its own, which is forced and coerced to a string. *)
Definition interpolatedPiece (cg : CodeGen) (ctx : Ctx) (scope : ScopeId) (expr : Expr)
    (st : State) : Res string * State :=
  let exprRet := NewRegister in
  match rEmitExpr rec cg ctx scope expr [] [] None exprRet st with
  | (Err e, _, st) => (Err e, st)
  | (Abort r, _, st) => (Abort r, st)
  | (Ok _, exprRet, st) =>
      match Register_Value exprRet st with
      | (Abort r, _, st) => (Abort r, st)
      | (Err e, _, st) => (Err e, st)
      | (Ok value, _, st) =>
          match Value_String value with
          | Ok piece => (Ok piece, st)
          | Err e => (Err e, st)
          | Abort r => (Abort r, st)
          end
      end
  end.

(** [for _, f := range str.Fragments { switch { ... } }]: the pieces
    appended to [pieces]. *)
Fixpoint stringPieces (cg : CodeGen) (ctx : Ctx) (scope : ScopeId)
    (fragments : list StringFragment) (pieces : list string) (st : State)
  : Res (list string) * State :=
  match fragments with
  | [] => (Ok pieces, st)
  | f :: rest =>
      match Escaped f, Interpolated f, Text_ f with
      | Some escaped, _, _ =>
          match escapedPiece escaped with
          | Ok piece => stringPieces cg ctx scope rest (pieces ++ [piece]) st
          | Err e => (Err e, st)
          | Abort r => (Abort r, st)
          end
      | None, Some expr, _ =>
          match interpolatedPiece cg ctx scope expr st with
          | (Ok piece, st) => stringPieces cg ctx scope rest (pieces ++ [piece]) st
          | (Err e, st) => (Err e, st)
          | (Abort r, st) => (Abort r, st)
          end
      | None, None, Some text => stringPieces cg ctx scope rest (pieces ++ [text]) st
      | None, None, None => stringPieces cg ctx scope rest pieces st
      end
  end.

Definition EmitStringLit_of (cg : CodeGen) (ctx : Ctx) (scope : ScopeId) (str : StringLit)
    (ret : Register) (st : State) : Emitted :=
  match stringPieces cg ctx scope (StringLit_Fragments str) [] st with
  | (Ok pieces, st) => (Ok tt, Register_Set (VString (Join pieces "")) ret, st)
  | (Err e, st) => (Err e, ret, st)
  | (Abort r, st) => (Abort r, ret, st)
  end.

(** [for _, f := range heredoc.Fragments { switch { ... } }] *)
Fixpoint heredocPieces (cg : CodeGen) (ctx : Ctx) (scope : ScopeId)
    (fragments : list HeredocFragment) (pieces : list string) (st : State)
  : Res (list string) * State :=
  match fragments with
  | [] => (Ok pieces, st)
  | f :: rest =>
      match HSpaces f, HEscaped f, HInterpolated f, HText f with
      | Some spaces, _, _, _ => heredocPieces cg ctx scope rest (pieces ++ [spaces]) st
      | None, Some escaped, _, _ =>
          match heredocEscapedPiece escaped with
          | Ok piece => heredocPieces cg ctx scope rest (pieces ++ [piece]) st
          | Err e => (Err e, st)
          | Abort r => (Abort r, st)
          end
      | None, None, Some expr, _ =>
          match interpolatedPiece cg ctx scope expr st with
          | (Ok piece, st) => heredocPieces cg ctx scope rest (pieces ++ [piece]) st
          | (Err e, st) => (Err e, st)
          | (Abort r, st) => (Abort r, st)
          end
      | None, None, None, Some text => heredocPieces cg ctx scope rest (pieces ++ [text]) st
      | None, None, None, None => heredocPieces cg ctx scope rest pieces st
      end
  end.

Definition EmitHeredoc_of (cg : CodeGen) (ctx : Ctx) (scope : ScopeId) (heredoc : Heredoc)
    (ret : Register) (st : State) : Emitted :=
  match heredocPieces cg ctx scope (Heredoc_Fragments heredoc) [] st with
  | (Ok pieces, st) =>
      (Ok tt, emitHeredocPieces (Heredoc_Start heredoc) (Heredoc_Terminate heredoc) pieces ret, st)
  | (Err e, st) => (Err e, ret, st)
  | (Abort r, st) => (Abort r, ret, st)
  end.

Definition EmitCallExpr_of (cg : CodeGen) (ctx : Ctx) (scope : ScopeId) (call : CallExpr)
    (ret : Register) (st : State) : Emitted :=
  let ctx := WithFrame ctx (CallExpr_Name call) in
  (* Yield before executing call expression. *)
  match Debug cg ctx scope (NodeIdentExpr (CallExpr_Name call)) [] st with
  | (Err e, st) => (Err e, ret, st)
  | (Abort r, st) => (Abort r, ret, st)
  | (Ok _, st) =>
      match rEvaluate rec cg ctx scope None (CallExpr_Signature call) (CallExpr_Args call) st with
      | (Err e, st) => (Err e, ret, st)
      | (Abort r, st) => (Abort r, ret, st)
      | (Ok args, st) =>
          let ctx := WithArgs ctx 0 (CallExpr_Args call) in
          rEmitIdentExpr rec cg ctx scope (CallExpr_Name call) (Ident_ (CallExpr_Name call))
            args [] None ret st
      end
  end.

(** The closure [EmitIdentExpr] defers for a built-in. *)
Definition builtinAsync (cg : CodeGen) (ctx : Ctx) (scope : ScopeId) (n : BuiltinDecl)
    (args : list Value) (opts : list OptionItem) (b : option Binding) : Async :=
  fun v st => EmitBuiltinDecl cg ctx scope n args opts b v st.

(** The case of a parameter [Field] in [EmitIdentExpr]. *)
Definition emitField (ctx : Ctx) (obj : Object) (ret : Register) (st : State) : Emitted :=
  match NewValue ctx (Object_Data obj) with
  | Err e => (Err e, ret, st)
  | Abort r => (Abort r, ret, st)
  | Ok val =>
      if negb (String.eqb (Value_Kind val) KOption)
      then (Ok tt, Register_Set val ret, st)
      else
        (* [ret.Value()] is forced for the second test only. *)
        match Register_Value ret st with
        | (Abort r, ret, st) => (Abort r, ret, st)
        | (Err e, ret, st) => (Err e, ret, st)
        | (Ok current, ret, st) =>
            if negb (String.eqb (Value_Kind current) KOption)
            then (Ok tt, Register_Set val ret, st)
            else
              match Value_Option current with
              | Err e => (Err e, ret, st)
              | Abort r => (Abort r, ret, st)
              | Ok retOpts =>
                  match Value_Option val with
                  | Err e => (Err e, ret, st)
                  | Abort r => (Abort r, ret, st)
                  | Ok valOpts =>
                      (Ok tt, Register_Set (VOption (retOpts ++ valOpts)) ret, st)
                  end
              end
        end
  end.

Definition EmitIdentExpr_of (cg : CodeGen) (ctx : Ctx) (scope : ScopeId) (ie : IdentExpr)
    (lookup : Ident) (args : list Value) (opts : list OptionItem) (b : option Binding)
    (ret : Register) (st : State) : Emitted :=
  let ctx := WithProgramCounter ctx (NodeIdentExpr ie) in
  match Lookup st scope (Text lookup) with
  | None => (Err (UndefinedIdent lookup), ret, st)
  | Some (_, obj) =>
      match Object_Node obj with
      | NodeBuiltinDecl n =>
          (Ok tt, Register_SetAsync (builtinAsync cg ctx scope n args opts b) ret, st)
      | NodeFuncDecl n => rEmitFuncDecl rec cg ctx n args None ret st
      | NodeBindClause n =>
          rEmitBinding rec cg ctx (TargetBinding H n (Text lookup)) args ret st
      | NodeImportDecl n =>
          match Object_Data obj with
          | DModule imod =>
              match Reference ie with
              | None => (Abort (GoPanic "nil pointer dereference"), ret, st)
              | Some reference =>
                  rEmitIdentExpr rec cg ctx (Module_Scope imod) ie reference args opts None ret st
              end
          | _ =>
              (Err (InternalError (ProgramCounter ctx)
                      "expected imported module to be resolved" []), ret, st)
          end
      | NodeField n => emitField ctx obj ret st
      | n => (Err (InternalError n "invalid resolved object" []), ret, st)
      end
  end.

(** Where the module of an import is, from the value of its expression:
    the directory and the name of the file. *)
Definition locateImport (cg : CodeGen) (ctx : Ctx) (mod_ : Module) (id : ImportDecl)
    (val : Value) (st : State) : Res (option (Directory T) * string) * State :=
  if String.eqb (Value_Kind val) KFilesystem then
    match Value_Filesystem val with
    | Err e => (Err e, st)
    | Abort r => (Abort r, st)
    | Ok fs =>
        match resolver cg ctx id fs (world st) with
        | (Ok dir, w) =>
            (Ok (Some dir, ModuleFilename H), {| scopes := scopes st; world := w |})
        | (Err e, w) => (Err e, {| scopes := scopes st; world := w |})
        | (Abort r, w) => (Abort r, {| scopes := scopes st; world := w |})
        end
    end
  else if String.eqb (Value_Kind val) KString then
    match Value_String val with
    | Err e => (Err e, st)
    | Abort r => (Abort r, st)
    | Ok filename => (Ok (Module_Directory mod_, filename), st)
    end
  else (Ok (Module_Directory mod_, ""), st).

(** The rest of [EmitImport], from [dir.Open(filename)] on. *)
Definition openImport (ctx : Ctx) (id : ImportDecl) (dir : Directory T) (filename : string)
    (st : State) : Res (Module * string) * State :=
  match Directory_Open H dir filename (world st) with
  | (Abort r, w) => (Abort r, {| scopes := scopes st; world := w |})
  | (Err err, w) =>
      let st := {| scopes := scopes st; world := w |} in
      if negb (IsNotExist err) then (Err err, st)
      else
        match DeprecatedPath id with
        | Some path => (Err (ImportPathNotExist err (NodeStringLit path) filename), st)
        | None =>
            match FuncLit_ (ImportDecl_Expr id) with
            | Some lit =>
                (Err (ImportPathNotExist err (NodeType (FuncLit_Type lit)) filename), st)
            | None =>
                (Err (ImportPathNotExist err (NodeExpr (ImportDecl_Expr id)) filename), st)
            end
        end
  | (Ok rc, w) =>
      (* [defer rc.Close()] runs when the function returns. *)
      let close (st : State) : State :=
        {| scopes := scopes st; world := File_Close H rc (world st) |} in
      match Parse H ctx rc w with
      | (Abort r, w) => (Abort r, close {| scopes := scopes st; world := w |})
      | (Err e, w) => (Err e, close {| scopes := scopes st; world := w |})
      | (Ok imod, w) =>
          let imod := {| Module_Filename := Module_Filename imod;
                         Module_Scope := Module_Scope imod;
                         Module_Directory := Some dir |} in
          let base := nextScope (scopes st) in
          match SemanticPass H base imod w with
          | (Some e, _, _, w) => (Err e, close {| scopes := scopes st; world := w |})
          | (None, imod, built, w) =>
              let m := storeScopes base built (scopes st) in
              (* Drop errors from linting. *)
              let w := Lint H ctx imod w in
              match Check H m imod w with
              | (Some e, w) => (Err e, close {| scopes := m; world := w |})
              | (None, w) => (Ok (imod, filename), close {| scopes := m; world := w |})
              end
          end
      end
  end.

Definition EmitImport_of (cg : CodeGen) (ctx : Ctx) (mod_ : Module) (id : ImportDecl)
    (st : State) : Res (Module * string) * State :=
  (* Import expression can be string or fs. *)
  let ctx := WithReturnType ctx KNone in
  let ret := NewRegister in
  match rEmitExpr rec cg ctx (Module_Scope mod_) (ImportDecl_Expr id) [] [] None ret st with
  | (Err e, _, st) => (Err e, st)
  | (Abort r, _, st) => (Abort r, st)
  | (Ok _, ret, st) =>
      match Register_Value ret st with
      | (Abort r, _, st) => (Abort r, st)
      | (Err e, _, st) => (Err e, st)
      | (Ok val, _, st) =>
          match locateImport cg ctx mod_ id val st with
          | (Err e, st) => (Err e, st)
          | (Abort r, st) => (Abort r, st)
          | (Ok (None, _), st) => (Abort (GoPanic "nil pointer dereference"), st)
          | (Ok (Some dir, filename), st) => openImport ctx id dir filename st
          end
      end
  end.

Definition EmitFuncDecl_of (cg : CodeGen) (ctx : Ctx) (fun_ : FuncDecl) (args : list Value)
    (b : option Binding) (ret : Register) (st : State) : Emitted :=
  let ctx := WithProgramCounter ctx (NodeIdent (FuncDecl_Name fun_)) in
  let params := Params fun_ in
  if negb (length params =? length args)%nat then
    let name := match b with
                | Some b' => Text (Binding_Name b')
                | None => Text (FuncDecl_Name fun_)
                end in
    (Err (InternalError (ProgramCounter ctx) "`%s` expected %d args, got %d"
            [FmtString name; FmtInt (Z.of_nat (length params));
             FmtInt (Z.of_nat (length args))]), ret, st)
  else
    let '(scope, st) := NewScope (NodeFuncDecl fun_) (FuncDecl_Scope fun_) st in
    let st := insertParams scope params args st in
    (* Yield before executing a function. *)
    match Debug cg ctx scope (NodeIdent (FuncDecl_Name fun_)) [] st with
    | (Err e, st) => (Err e, ret, st)
    | (Abort r, st) => (Abort r, ret, st)
    | (Ok _, st) => rEmitBlock rec cg ctx scope (FuncDecl_Body fun_) b ret st
    end.

Definition EmitBinding_of (cg : CodeGen) (ctx : Ctx) (b : Binding) (args : list Value)
    (ret : Register) (st : State) : Emitted :=
  match Closure (Bind b) with
  | None => (Abort (GoPanic "nil pointer dereference"), ret, st)
  | Some closure => rEmitFuncDecl rec cg ctx closure args (Some b) ret st
  end.

Definition lookupCall_of (cg : CodeGen) (ctx : Ctx) (scope : ScopeId) (lookup : Ident)
    (st : State) : Res unit * State :=
  match Lookup st scope (Text lookup) with
  | None => (Err (UndefinedIdent lookup), st)
  | Some (holder, obj) =>
      match Object_Node obj with
      | NodeImportDecl n =>
          match Object_Data obj with
          | DModule _ => (Ok tt, st)
          | _ =>
              match Root st scope with
              | Some {| Scope_Node := NodeModule mod_ |} =>
                  match rEmitImport rec cg ctx mod_ n st with
                  | (Err e, st) => (Err e, st)
                  | (Abort r, st) => (Abort r, st)
                  | (Ok (imod, _), st) =>
                      let st := setData holder (Text lookup) (DModule imod) st in
                      match CheckReferences H (scopes st) mod_ (Text (ImportDecl_Name n)) (world st) with
                      | (Some e, w) => (Err e, {| scopes := scopes st; world := w |})
                      | (None, w) => (Ok tt, {| scopes := scopes st; world := w |})
                      end
                  end
              | _ => (Abort (GoPanic "interface conversion: ast.Node is not *ast.Module"), st)
              end
          end
      | _ => (Ok tt, st)
      end
  end.

(** The closure [EmitBlock] defers for a call statement. *)
Definition callStmtAsync (cg : CodeGen) (ctx : Ctx) (scope : ScopeId) (call : CallStmt)
    (b : option Binding) : Async :=
  fun v st =>
    match rlookupCall rec cg ctx scope (Ident_ (CallStmt_Name call)) st with
    | (Err e, st) => (Err e, st)
    | (Abort r, st) => (Abort r, st)
    | (Ok _, st) =>
        let ret := NewRegister in
        let ret := Register_Set v ret in
        returnValue (rEmitCallStmt rec cg ctx scope call b ret st)
    end.

(** The body of the loop of [EmitBlock]: one statement. *)
Definition emitStmt (cg : CodeGen) (ctx : Ctx) (scope : ScopeId) (b : option Binding)
    (stmt : Stmt) (ret : Register) (st : State) : Emitted :=
  match Call_ stmt, ExprStmt_ stmt with
  | Some call, _ => (Ok tt, Register_SetAsync (callStmtAsync cg ctx scope call b) ret, st)
  | None, Some expr => rEmitExpr rec cg ctx scope expr [] [] b ret st
  | None, None => (Err (InternalError (NodeStmt stmt) "invalid stmt" []), ret, st)
  end.

(** [for _, stmt := range block.Stmts() { ...; if err != nil { return err } }] *)
Fixpoint emitStmts (cg : CodeGen) (ctx : Ctx) (scope : ScopeId) (b : option Binding)
    (stmts : list Stmt) (ret : Register) (st : State) : Emitted :=
  match stmts with
  | [] => (Ok tt, ret, st)
  | stmt :: rest =>
      match emitStmt cg ctx scope b stmt ret st with
      | (Ok _, ret, st) => emitStmts cg ctx scope b rest ret st
      | failed => failed
      end
  end.

Definition EmitBlock_of (cg : CodeGen) (ctx : Ctx) (scope : ScopeId) (block : option BlockStmt)
    (b : option Binding) (ret : Register) (st : State) : Emitted :=
  match block with
  | None => (Ok tt, ret, st)
  | Some block =>
      let ctx := WithReturnType ctx (BlockStmt_Kind block) in
      emitStmts cg ctx scope b (Stmts block) ret st
  end.

(** The options of a call statement: those of its with clause. *)
Definition withOptions (cg : CodeGen) (ctx : Ctx) (scope : ScopeId) (call : CallStmt)
    (b : option Binding) (st : State) : Res (list OptionItem) * State :=
  match WithClause call with
  | None => (Ok [], st)
  | Some withExpr =>
      (* Provide a type hint to avoid ambiguous lookups. *)
      let kinds := [KOption ++ "::" ++ IdentExpr_String (CallStmt_Name call)] in
      (* WithClause provides option expressions access to the binding. *)
      match rEvaluate rec cg ctx scope b kinds [withExpr] st with
      | (Err e, st) => (Err e, st)
      | (Abort r, st) => (Abort r, st)
      | (Ok values, st) =>
          match values with
          | [] => (Abort (GoPanic "index out of range"), st)
          | value :: _ =>
              match Value_Option value with
              | Ok o => (Ok o, st)
              | Err e => (Err e, st)
              | Abort r => (Abort r, st)
              end
          end
      end
  end.

(** The options with the command of a breakpoint, if the call is one. *)
Definition breakpointOptions (ctx : Ctx) (call : CallStmt) (args : list Value)
    (opts : list OptionItem) : Res (list OptionItem) :=
  if Breakpoint H call (ReturnType ctx) then
    match breakpointArgs args with
    | Ok command =>
        if negb (length command =? 0)%nat
        then Ok (opts ++ [breakpointCommand command])%list
        else Ok opts
    | Err e => Err e
    | Abort r => Abort r
    end
  else Ok opts.

Definition EmitCallStmt_of (cg : CodeGen) (ctx : Ctx) (scope : ScopeId) (call : CallStmt)
    (b : option Binding) (ret : Register) (st : State) : Emitted :=
  let ctx := WithFrame ctx (CallStmt_Name call) in
  match rEvaluate rec cg ctx scope None (CallStmt_Signature call) (CallStmt_Args call) st with
  | (Err e, st) => (Err e, ret, st)
  | (Abort r, st) => (Abort r, ret, st)
  | (Ok args, st) =>
      let ctx := WithArgs ctx 0 (CallStmt_Args call) in
      match withOptions cg ctx scope call b st with
      | (Err e, st) => (Err e, ret, st)
      | (Abort r, st) => (Abort r, ret, st)
      | (Ok opts, st) =>
          (* Yield before executing the next call statement. *)
          match breakpointOptions ctx call args opts with
          | Err e => (Err e, ret, st)
          | Abort r => (Abort r, ret, st)
          | Ok opts =>
              match Debug cg ctx scope (NodeIdentExpr (CallStmt_Name call)) opts st with
              | (Err e, st) => (Err e, ret, st)
              | (Abort r, st) => (Abort r, ret, st)
              | (Ok _, st) =>
                  (* Pass the binding if this is the matching CallStmt. *)
                  let binding :=
                    match b, BindClause_ call with
                    | Some b', Some clause =>
                        if bool_decide (BindClause_Pos clause = BindClause_Pos (Bind b'))
                        then Some b' else None
                    | _, _ => None
                    end in
                  rEmitIdentExpr rec cg ctx scope (CallStmt_Name call)
                    (Ident_ (CallStmt_Name call)) args opts binding ret st
              end
          end
      end
  end.

(** [for i, expr := range exprs { ... values = append(values, ret.Value()) }] *)
Fixpoint evaluateEach (cg : CodeGen) (ctx : Ctx) (scope : ScopeId) (b : option Binding)
    (kinds : list Kind) (exprs : list Expr) (values : list Value) (st : State)
  : Res (list Value) * State :=
  match exprs, kinds with
  | expr :: exprs', kind :: kinds' =>
      let ctx := WithProgramCounter ctx (NodeExpr expr) in
      let ctx := WithReturnType ctx kind in
      (* Evaluated expressions write to a new return register. *)
      let ret := NewRegister in
      match rEmitExpr rec cg ctx scope expr [] [] b ret st with
      | (Err e, _, st) => (Err e, st)
      | (Abort r, _, st) => (Abort r, st)
      | (Ok _, ret, st) =>
          match Register_Value ret st with
          | (Abort r, _, st) => (Abort r, st)
          | (Err e, _, st) => (Err e, st)
          | (Ok value, _, st) => evaluateEach cg ctx scope b kinds' exprs' (values ++ [value]) st
          end
      end
  | _, _ => (Ok values, st)
  end.

Definition Evaluate_of (cg : CodeGen) (ctx : Ctx) (scope : ScopeId) (b : option Binding)
    (kinds : list Kind) (exprs : list Expr) (st : State) : Res (list Value) * State :=
  if negb (length kinds =? length exprs)%nat then
    (Err (InternalError (ProgramCounter ctx) "expected %d kinds but got %d"
            [FmtInt (Z.of_nat (length exprs)); FmtInt (Z.of_nat (length kinds))]), st)
  else evaluateEach cg ctx scope b kinds exprs [] st.

(** The functions, each with [rec] for its callees. *)
Definition callees : Evaluator := {|
  rEmitExpr := EmitExpr_of;
  rEmitFuncLit := EmitFuncLit_of;
  rEmitBasicLit := EmitBasicLit_of;
  rEmitStringLit := EmitStringLit_of;
  rEmitHeredoc := EmitHeredoc_of;
  rEmitCallExpr := EmitCallExpr_of;
  rEmitIdentExpr := EmitIdentExpr_of;
  rEmitImport := EmitImport_of;
  rEmitFuncDecl := EmitFuncDecl_of;
  rEmitBinding := EmitBinding_of;
  rlookupCall := lookupCall_of;
  rEmitBlock := EmitBlock_of;
  rEmitCallStmt := EmitCallStmt_of;
  rEvaluate := Evaluate_of
|}.

End WithCallees.

(** No fuel is left: the call does not return. *)
Definition exhausted : Evaluator := {|
  rEmitExpr := fun _ _ _ _ _ _ _ ret st => (Abort OutOfFuel, ret, st);
  rEmitFuncLit := fun _ _ _ _ _ ret st => (Abort OutOfFuel, ret, st);
  rEmitBasicLit := fun _ _ _ _ ret st => (Abort OutOfFuel, ret, st);
  rEmitStringLit := fun _ _ _ _ ret st => (Abort OutOfFuel, ret, st);
  rEmitHeredoc := fun _ _ _ _ ret st => (Abort OutOfFuel, ret, st);
  rEmitCallExpr := fun _ _ _ _ ret st => (Abort OutOfFuel, ret, st);
  rEmitIdentExpr := fun _ _ _ _ _ _ _ _ ret st => (Abort OutOfFuel, ret, st);
  rEmitImport := fun _ _ _ _ st => (Abort OutOfFuel, st);
  rEmitFuncDecl := fun _ _ _ _ _ ret st => (Abort OutOfFuel, ret, st);
  rEmitBinding := fun _ _ _ _ ret st => (Abort OutOfFuel, ret, st);
  rlookupCall := fun _ _ _ _ st => (Abort OutOfFuel, st);
  rEmitBlock := fun _ _ _ _ _ ret st => (Abort OutOfFuel, ret, st);
  rEmitCallStmt := fun _ _ _ _ _ ret st => (Abort OutOfFuel, ret, st);
  rEvaluate := fun _ _ _ _ _ _ st => (Abort OutOfFuel, st)
|}.

(** The functions of the generator with [fuel] calls in depth left: each
    call of one of them spends one unit. *)
Fixpoint evaluator (fuel : nat) : Evaluator :=
  match fuel with
  | O => exhausted
  | S fuel' => callees (evaluator fuel')
  end.

Definition EmitExpr (fuel : nat) := rEmitExpr (evaluator fuel).
Definition EmitFuncLit (fuel : nat) := rEmitFuncLit (evaluator fuel).
Definition EmitBasicLit (fuel : nat) := rEmitBasicLit (evaluator fuel).
Definition EmitStringLit (fuel : nat) := rEmitStringLit (evaluator fuel).
Definition EmitHeredoc (fuel : nat) := rEmitHeredoc (evaluator fuel).
Definition EmitCallExpr (fuel : nat) := rEmitCallExpr (evaluator fuel).
Definition EmitIdentExpr (fuel : nat) := rEmitIdentExpr (evaluator fuel).
Definition EmitImport (fuel : nat) := rEmitImport (evaluator fuel).
Definition EmitFuncDecl (fuel : nat) := rEmitFuncDecl (evaluator fuel).
Definition EmitBinding (fuel : nat) := rEmitBinding (evaluator fuel).
Definition lookupCall (fuel : nat) := rlookupCall (evaluator fuel).
Definition EmitBlock (fuel : nat) := rEmitBlock (evaluator fuel).
Definition EmitCallStmt (fuel : nat) := rEmitCallStmt (evaluator fuel).
Definition Evaluate (fuel : nat) := rEvaluate (evaluator fuel).


(** *** The entry point *)

Record Target : Type := {
  Target_Name : string
}.

(** The expression [Generate] builds for target number [i]. *)
Definition targetExpr (i : nat) (target : Target) : IdentExpr :=
  let ie := NewIdentExpr (Target_Name target) in
  {| IdentExpr_Pos := {| Filename := "target"; Line := i;
                         Column := Column (IdentExpr_Pos ie) |};
     Ident_ := Ident_ ie;
     Reference := Reference ie |}.

(** The body of the loop of [Generate] once the target is known to be
    defined: the request of target number [i]. *)
Definition generateTarget (fuel : nat) (cg : CodeGen) (ctx : Ctx) (mod_ : Module)
    (i : nat) (target : Target) (st : State) : Res (Request T) * State :=
  (* Yield before compiling anything. *)
  let ret := NewRegister in
  match Debug cg ctx (Module_Scope mod_) (NodeModule mod_) [] st with
  | (Err e, st) => (Err e, st)
  | (Abort r, st) => (Abort r, st)
  | (Ok _, st) =>
      (* Build expression for target. *)
      let ie := targetExpr i target in
      (* Every target has a return register. *)
      match EmitIdentExpr fuel cg ctx (Module_Scope mod_) ie (Ident_ ie) [] [] None ret st with
      | (Err e, _, st) => (Err e, st)
      | (Abort r, _, st) => (Abort r, st)
      | (Ok _, ret, st) =>
          match Register_Value ret st with
          | (Abort r, _, st) => (Abort r, st)
          | (Err e, _, st) => (Err e, st)
          | (Ok value, _, st) =>
              match Value_Request value with
              | Ok request => (Ok request, st)
              | Err e => (Err e, st)
              | Abort r => (Abort r, st)
              end
          end
      end
  end.

(** [_, ok := mod.Scope.Objects[target.Name]] *)
Definition targetDefined (mod_ : Module) (target : Target) (st : State) : option bool :=
  match scopes st !! Module_Scope mod_ with
  | None => None
  | Some sc => Some (bool_decide (is_Some (Objects sc !! Target_Name target)))
  end.

(** [for i, target := range targets { ... }] from target number [i] on,
    with the requests gathered so far. *)
Fixpoint generateFrom (fuel : nat) (cg : CodeGen) (ctx : Ctx) (mod_ : Module) (i : nat)
    (targets : list Target) (requests : list (Request T)) (st : State)
  : Res (Request T) * State :=
  match targets with
  | [] => (Ok (Parallel H requests), st)
  | target :: rest =>
      match targetDefined mod_ target st with
      | None => (Abort (GoPanic "nil pointer dereference"), st)
      | Some false =>
          (Err (TargetNotDefined (Target_Name target) (Module_Filename mod_)), st)
      | Some true =>
          match generateTarget fuel cg ctx mod_ i target st with
          | (Err e, st) => (Err e, st)
          | (Abort r, st) => (Abort r, st)
          | (Ok request, st) =>
              generateFrom fuel cg ctx mod_ (S i) rest (requests ++ [request]) st
          end
      end
  end.

Definition Generate (fuel : nat) (cg : CodeGen) (ctx : Ctx) (mod_ : Module)
    (targets : list Target) (st : State) : Res (Request T) * State :=
  generateFrom fuel cg ctx mod_ 0 targets [] st.

End WithHostTypes.

Arguments Ok {T A} a.
Arguments Err {T A} e.
Arguments Abort {T A} r.

End CodeGen.

(** ** A small host, for the scenarios of the specification *)

Module Demo.
Import GoStrings Reflect ast CodeGen.

(** Requests of the build engine: the operations of a filesystem, or
    several requests in parallel. *)
Inductive request : Type :=
| ReqOf (ops : list string)
| ReqParallel (rs : list request).

(** Filesystems are the lists of the operations that build them, options
    and reflected arguments are strings, the world is a log of the
    calls to the host. *)
Definition T : HostTypes := {|
  Filesystem := list string;
  Pipeline := unit;
  HostOption := string;
  SolveOption := string;
  Request := request;
  Client := unit;
  Directory := string;
  File := string;
  Reflected := string;
  World := list string
|}.

Definition tContext : GoType := TInterface "context.Context" ["Deadline"; "Done"; "Err"; "Value"].
Definition tClient : GoType := TPtr (TNamed "client.Client").
Definition tValue : GoType := TInterface "codegen.Value" ["Kind"; "String"; "Option"; "Filesystem"; "Request"; "Reflect"].
Definition tOption : GoType := TNamed "codegen.Option".
Definition tError : GoType := TInterface "error" ["Error"].
Definition tString : GoType := TNamed "string".

Definition prototypeIn : list GoType := [tContext; tClient; tValue; tOption].
Definition prototypeOut : list GoType := [tValue; tError].

(** The method [Call] of [Prototype], with its receiver. *)
Definition protoCall : MethodType :=
  {| In := TNamed "codegen.Prototype" :: prototypeIn; Out := prototypeOut; IsVariadic := false |}.

Definition reflectString (v : @Value T) (t : GoType) : @Res T string :=
  match v with
  | VString s => if GoType_eqb t tString then Ok s else Err ErrBadCast
  | _ => Err ErrBadCast
  end.

Definition optionText (o : @OptionItem T) : string :=
  match o with
  | OptHost s => s
  | OptSolve s => "solve:" ++ s
  | breakpointCommand c => "breakpoint:" ++ Join c " "
  end.

Definition callType (domain : list GoType) (variadic : bool) : MethodType :=
  {| In := (prototypeIn ++ domain)%list; Out := prototypeOut; IsVariadic := variadic |}.

Definition callable (name : string) (domain : list GoType) (variadic : bool)
    (call : @Ctx T -> unit -> @Value T -> list (@OptionItem T) -> list string -> list string
            -> option (@Value T) * option (@error T) * list string) : @Callable T :=
  {| Callable_Type := name;
     Call := Some (@Build_Method T (callType domain variadic) call) |}.

Definition op (name : string) (ins : list string) : string :=
  name ++ " " ++ Join ins " ".

Definition callLog (name : string) (opts : list (@OptionItem T)) (ins : list string) : string :=
  name ++ " " ++ Join ins " " ++ " with [" ++ Join (map optionText opts) "," ++ "]".

(** [scratch]: the empty filesystem. *)
Definition Scratch : @Callable T :=
  callable "codegen.Scratch" [] false
    (fun _ _ _ opts ins w =>
       (Some (VFilesystem (T:=T) ["scratch"]), None, (w ++ [callLog "scratch" opts ins])%list)).

(** [image ref]: the filesystem of an image. *)
Definition Image : @Callable T :=
  callable "codegen.Image" [tString] false
    (fun _ _ _ opts ins w =>
       (Some (VFilesystem (T:=T) [op "image" ins]), None,
        (w ++ [callLog "image" opts ins])%list)).

(** [run arg...]: a command on the incoming filesystem; it fails on a
    value that is not a filesystem. *)
Definition runCall (_ : @Ctx T) (_ : unit) (v : @Value T) (opts : list (@OptionItem T))
    (ins : list string) (w : list string)
  : option (@Value T) * option (@error T) * list string :=
  match v with
  | VFilesystem fs =>
      (Some (VFilesystem (T:=T) (fs ++ [op "run" ins])%list), None,
       (w ++ [callLog "run" opts ins])%list)
  | _ => (None, Some (HostError "run: no filesystem"), (w ++ [callLog "run" opts ins])%list)
  end.

Definition Run : @Callable T := callable "codegen.Run" [TSlice tString] true runCall.

(** [env key value] as an option of [run]. *)
Definition RunEnv : @Callable T :=
  callable "codegen.RunEnv" [tString; tString] false
    (fun _ _ v _ ins w =>
       let mine := [OptHost (T:=T) (op "env" ins)] in
       match v with
       | VOption o => (Some (VOption (o ++ mine)), None, w)
       | _ => (Some (VOption mine), None, w)
       end).

Definition callables : gmap string (gmap string (@Callable T)) :=
  {[ KFilesystem := {[ "scratch" := Scratch; "image" := Image; "run" := Run ]};
     "option::run" := {[ "env" := RunEnv ]} ]}.

(** The files of the host: the directory "lib" holds the module "m.hlb". *)
Definition open (dir name : string) (w : list string) : @Res T string * list string :=
  if String.eqb dir "lib" && String.eqb name "m.hlb"
  then (Ok "lib/m.hlb", (w ++ [op "open" [dir; name]])%list)
  else (Err (NotExist (op "open" [dir; name])), (w ++ [op "open" [dir; name]])%list).

(** The imported module [m.hlb] is [fs foo() { scratch; }]. *)
Definition scratchStmt : Stmt :=
  mkStmt (Some (mkCallStmt (NewIdentExpr "scratch") [] [] None None)) None.

Definition fooDecl (scope : nat) : FuncDecl :=
  mkFuncDecl {| Ident_Pos := {| Filename := "m.hlb"; Line := 1; Column := 4 |}; Text := "foo" |}
    [] scope (Some (mkBlockStmt KFilesystem [scratchStmt])).

Definition builtinObject (name : string) (kinds : list string) : @Object T :=
  {| Object_Kind := KNone;
     Object_Ident := {| Ident_Pos := {| Filename := "builtin"; Line := 0; Column := 0 |}; Text := name |};
     Object_Node := NodeBuiltinDecl {| BuiltinDecl_Name := name; Kinds := kinds |};
     Object_Data := DNil |}.

Definition funcObject (fd : FuncDecl) (kind : string) : @Object T :=
  {| Object_Kind := kind; Object_Ident := FuncDecl_Name fd;
     Object_Node := NodeFuncDecl fd; Object_Data := DNil |}.

Definition builtins : gmap string (@Object T) :=
  {[ "scratch" := builtinObject "scratch" [KFilesystem];
     "image" := builtinObject "image" [KFilesystem];
     "run" := builtinObject "run" [KFilesystem];
     "env" := builtinObject "env" [KFilesystem; "option::run"] ]}.

Definition parse (ctx : @Ctx T) (rc : string) (w : list string) : @Res T (@Module T) * list string :=
  (Ok {| Module_Filename := rc; Module_Scope := 0; Module_Directory := None |},
   (w ++ [op "parse" [rc]])%list).

Definition semanticPass (base : nat) (m : @Module T) (w : list string)
  : option (@error T) * @Module T * list (@Scope T) * list string :=
  let m' := {| Module_Filename := Module_Filename m; Module_Scope := base;
               Module_Directory := Module_Directory m |} in
  (None, m',
   [ {| Scope_Node := NodeModule m'; Parent := None;
        Objects := <["foo" := funcObject (fooDecl (S base)) KFilesystem]> builtins |};
     {| Scope_Node := NodeFuncDecl (fooDecl (S base)); Parent := Some base; Objects := ∅ |} ],
   (w ++ [op "semantic pass" [Module_Filename m]])%list).

Definition host : @Host T :=
  @Build_Host T
    open
    (fun rc w => (w ++ [op "close" [rc]])%list)
    parse
    semanticPass
    (fun _ m w => (w ++ [op "lint" [Module_Filename m]])%list)
    (fun _ m w => (None, (w ++ [op "check" [Module_Filename m]])%list))
    (fun _ m name w => (None, (w ++ [op "check references" [name]])%list))
    (fun fs => Ok (ReqOf fs))
    reflectString
    ReqParallel
    callables
    prototypeIn
    (fun _ _ => false)
    (fun bc name => {| Bind := bc; Binding_Name := {| Ident_Pos := BindClause_Pos bc; Text := name |} |})
    "module.hlb".

Definition resolve (ctx : @Ctx T) (id : ImportDecl) (fs : list string) (w : list string)
  : @Res T string * list string :=
  (Ok (Join fs "/"), (w ++ [op "resolve" fs])%list).

Definition cg : @CodeGen T := fst (@New T tt resolve []).

Definition background : @Ctx T :=
  {| ReturnType := KNone; ProgramCounter := NodeNil; Frames := []; CtxArgs := []; CtxBinding := None |}.

(** *** The module of the scenarios

    [[
    import m "m.hlb"
    fs default() { scratch; }
    string x() { "world"; }
    fs a() { image "alpine"; run "echo hi" with option { env "K" "V"; }; }
    fs viaImport() { m.foo; }
    ]] *)

Definition ident (name : string) : Ident :=
  {| Ident_Pos := {| Filename := "main.hlb"; Line := 0; Column := 0 |}; Text := name |}.

Definition textLit (s : string) : Expr :=
  mkExpr None (Some (mkBasicLit None None None (Some (mkStringLit [mkStringFragment None None (Some s)]))
                       None None None)) None.

Definition worldLit : Expr := textLit "world".

Definition xDecl : FuncDecl :=
  mkFuncDecl (ident "x") [] 1 (Some (mkBlockStmt KString [mkStmt None (Some worldLit)])).

Definition defaultDecl : FuncDecl :=
  mkFuncDecl (ident "default") [] 1 (Some (mkBlockStmt KFilesystem [scratchStmt])).

Definition envStmt : Stmt :=
  mkStmt (Some (mkCallStmt (NewIdentExpr "env") [KString; KString] [textLit "K"; textLit "V"] None None)) None.

Definition aDecl : FuncDecl :=
  mkFuncDecl (ident "a") [] 1
    (Some (mkBlockStmt KFilesystem
       [ mkStmt (Some (mkCallStmt (NewIdentExpr "image") [KString] [textLit "alpine"] None None)) None;
         mkStmt (Some (mkCallStmt (NewIdentExpr "run") [KString] [textLit "echo hi"]
                         (Some (mkExpr (Some (mkFuncLit "option::run" (Some (mkBlockStmt "option::run" [envStmt]))))
                                  None None))
                         None)) None ])).

Definition importDecl : ImportDecl :=
  {| ImportDecl_Name := ident "m"; ImportDecl_Expr := textLit "m.hlb"; DeprecatedPath := None |}.

Definition viaImportDecl : FuncDecl :=
  mkFuncDecl (ident "viaImport") [] 1
    (Some (mkBlockStmt KFilesystem
       [ mkStmt (Some (mkCallStmt
                   {| IdentExpr_Pos := {| Filename := "main.hlb"; Line := 5; Column := 17 |};
                      Ident_ := ident "m"; Reference := Some (ident "foo") |}
                   [] [] None None)) None ])).

Definition mainModule : @Module T := @Build_Module T "main.hlb" 0 (Some "lib").

Definition mainScopes : gmap nat (@Scope T) :=
  {[ 0 := {| Scope_Node := NodeModule mainModule; Parent := None;
             Objects :=
               <["m" := {| Object_Kind := KNone; Object_Ident := ident "m";
                           Object_Node := NodeImportDecl importDecl; Object_Data := DNil |}]>
               (<["default" := funcObject defaultDecl KFilesystem]>
               (<["x" := funcObject xDecl KString]>
               (<["a" := funcObject aDecl KFilesystem]>
               (<["viaImport" := funcObject viaImportDecl KFilesystem]> builtins)))) |};
     1 := {| Scope_Node := NodeNil; Parent := Some 0; Objects := ∅ |} ]}.

Definition initial : @State T := @Build_State T mainScopes [].

End Demo.

(** * Properties *)

(** ** Facts about the string routines *)

Module GoStringsFacts.
Import GoStrings.

Lemma length_append (p t : string) :
  String.length (p ++ t) = String.length p + String.length t.
Proof. induction p as [|c p IH]; simpl; [reflexivity | now rewrite IH]. Qed.

Lemma drop_bytes_append (p t : string) :
  drop_bytes (String.length p) (p ++ t) = t.
Proof. induction p as [|c p IH]; simpl; [now destruct t | exact IH]. Qed.

Lemma take_bytes_append (p t : string) :
  take_bytes (String.length p) (p ++ t) = p.
Proof. induction p as [|c p IH]; simpl; [now destruct t | now rewrite IH]. Qed.

Lemma HasSuffix_append (p t : string) : HasSuffix (p ++ t) t = true.
Proof.
  unfold HasSuffix. rewrite length_append.
  replace (String.length p + String.length t - String.length t) with (String.length p) by lia.
  rewrite drop_bytes_append, String.eqb_refl, andb_true_r.
  apply Nat.leb_le. lia.
Qed.

(** The opener of a heredoc is its start without the terminator. *)
Lemma TrimSuffix_append (p t : string) : TrimSuffix (p ++ t) t = p.
Proof.
  unfold TrimSuffix. rewrite HasSuffix_append, length_append.
  replace (String.length p + String.length t - String.length t) with (String.length p) by lia.
  apply take_bytes_append.
Qed.

(** [k] newlines. *)
Fixpoint newlines (k : nat) : string :=
  match k with
  | O => EmptyString
  | S k' => String NL (newlines k')
  end.

Definition startsWithNL (s : string) : bool :=
  match s with
  | String c _ => Ascii.eqb c NL
  | EmptyString => false
  end.

(** [TrimLeft] with the newline as cutset removes every leading newline,
    and nothing else. *)
Lemma TrimLeft_newlines (s : string) :
  exists k, s = newlines k ++ TrimLeft s (String NL EmptyString)
            /\ startsWithNL (TrimLeft s (String NL EmptyString)) = false.
Proof.
  induction s as [|c s [k [IH1 IH2]]].
  - exists 0. split; reflexivity.
  - simpl. destruct (Ascii.eqb c NL) eqn:E; simpl.
    + apply Ascii.eqb_eq in E. subst c. exists (S k). split; [|exact IH2].
      rewrite IH1 at 1. reflexivity.
    + exists 0. simpl. split; [reflexivity | exact E].
Qed.

Lemma isAsciiSpace_byte (c : ascii) :
  isAsciiSpace c = true -> (byte c <? 128)%N = true /\ IsSpace (byte c) = true.
Proof.
  unfold isAsciiSpace. intros Hc.
  repeat (apply orb_true_iff in Hc; destruct Hc as [Hc|Hc]);
    apply Ascii.eqb_eq in Hc; subst c; split; reflexivity.
Qed.

Lemma spacePrefixLen_le (s : string) : spacePrefixLen s <= String.length s.
Proof.
  unfold spacePrefixLen, DecodeRuneInString.
  destruct s as [|c0 [|c1 [|c2 [|c3 t]]]]; simpl;
    repeat match goal with
           | |- context [if ?b then _ else _] => destruct b
           end; simpl; lia.
Qed.

Lemma length_drop_bytes (k : nat) (s : string) :
  String.length (drop_bytes k s) = String.length s - k.
Proof.
  revert s. induction k as [|k IH]; intros [|c s]; simpl; try lia. apply IH.
Qed.

(** More fuel than bytes changes nothing. *)
Lemma trimLeftSpace_aux_fuel (n : nat) : forall (s : string) (fuel1 fuel2 : nat),
  String.length s <= n -> String.length s <= fuel1 -> String.length s <= fuel2 ->
  trimLeftSpace_aux fuel1 s = trimLeftSpace_aux fuel2 s.
Proof.
  induction n as [|n IH]; intros s fuel1 fuel2 Hs H1 H2.
  - destruct s; simpl in Hs; [|lia]. destruct fuel1, fuel2; reflexivity.
  - destruct s as [|c t]; [destruct fuel1, fuel2; reflexivity|].
    cbn [String.length] in *.
    destruct fuel1 as [|fuel1]; [lia|]. destruct fuel2 as [|fuel2]; [lia|].
    cbn [trimLeftSpace_aux].
    pose proof (spacePrefixLen_le (String c t)) as Hle. cbn [String.length] in Hle.
    destruct (spacePrefixLen (String c t)) as [|k] eqn:Ek; [reflexivity|].
    apply IH; rewrite length_drop_bytes; cbn [String.length]; lia.
Qed.

Lemma trimLeftSpace_unfold (s : string) :
  trimLeftSpace s =
  match spacePrefixLen s with
  | O => s
  | k => trimLeftSpace (drop_bytes k s)
  end.
Proof.
  unfold trimLeftSpace. destruct s as [|c t]; [reflexivity|].
  cbn [trimLeftSpace_aux String.length].
  destruct (spacePrefixLen (String c t)) as [|k] eqn:Ek; [reflexivity|].
  apply (trimLeftSpace_aux_fuel (String.length t)); rewrite ?length_drop_bytes;
    cbn [String.length]; lia.
Qed.

Lemma trimLeftSpace_space (c : ascii) (t : string) :
  isAsciiSpace c = true -> trimLeftSpace (String c t) = trimLeftSpace t.
Proof.
  intros Hc. rewrite trimLeftSpace_unfold.
  destruct (isAsciiSpace_byte c Hc) as [H1 H2].
  unfold spacePrefixLen, DecodeRuneInString. rewrite H1, H2. reflexivity.
Qed.

Lemma allSpace_empty : allSpace EmptyString = true.
Proof. reflexivity. Qed.

Lemma allSpace_space (c : ascii) (t : string) :
  isAsciiSpace c = true -> allSpace (String c t) = allSpace t.
Proof. intros Hc. unfold allSpace. now rewrite trimLeftSpace_space. Qed.

Lemma trimRightSpace_empty (t : string) :
  trimRightSpace t = EmptyString -> allSpace t = true.
Proof.
  destruct t as [|c t]; [reflexivity|]. cbn [trimRightSpace].
  destruct (allSpace (String c t)); [reflexivity | discriminate].
Qed.

(** The text ends with a newline. *)
Fixpoint endsNL (s : string) : bool :=
  match s with
  | EmptyString => false
  | String c EmptyString => Ascii.eqb c NL
  | String _ t => endsNL t
  end.

Lemma trimRightSpace_endsNL (x : string) : endsNL (trimRightSpace x) = false.
Proof.
  induction x as [|c t IH]; [reflexivity|].
  cbn [trimRightSpace]. destruct (allSpace (String c t)) eqn:E; [reflexivity|].
  destruct (trimRightSpace t) as [|d y] eqn:Ey.
  - cbn [endsNL]. destruct (Ascii.eqb c NL) eqn:Ec; [|reflexivity].
    apply Ascii.eqb_eq in Ec. subst c.
    rewrite allSpace_space in E by reflexivity.
    rewrite (trimRightSpace_empty t Ey) in E. discriminate.
  - exact IH.
Qed.

Lemma lineSegments_SplitLines (s : string) :
  s <> EmptyString -> endsNL s = false -> lineSegments (SplitLines s) = SplitLines s.
Proof.
  induction s as [|c t IH]; [congruence|]. intros _ Hend.
  destruct t as [|d t'].
  - cbn [endsNL] in Hend. cbn [SplitLines]. rewrite Hend. reflexivity.
  - assert (IH' : lineSegments (SplitLines (String d t')) = SplitLines (String d t')).
    { apply IH; [discriminate | exact Hend]. }
    clear IH. remember (String d t') as t eqn:Et. cbn [SplitLines].
    assert (Hne : SplitLines t <> []).
    { rewrite Et. cbn [SplitLines]. destruct (Ascii.eqb d NL); [discriminate|].
      destruct (SplitLines t'); discriminate. }
    destruct (SplitLines t) as [|l ls] eqn:El; [congruence|].
    destruct (Ascii.eqb c NL).
    + change (lineSegments (EmptyString :: l :: ls))
        with (EmptyString :: lineSegments (l :: ls)).
      now rewrite IH'.
    + destruct ls as [|l' ls']; [reflexivity|].
      change (lineSegments (String c l :: l' :: ls'))
        with (String c l :: lineSegments (l' :: ls')).
      change (lineSegments (l :: l' :: ls'))
        with (l :: lineSegments (l' :: ls')) in IH'.
      f_equal. congruence.
Qed.

Definition CRs : string := String CR EmptyString.

(** A carriage return after the text does not change the rune that
    begins it. *)
Lemma spacePrefixLen_CR (y : string) :
  y <> EmptyString -> spacePrefixLen (y ++ CRs) = spacePrefixLen y.
Proof.
  intros Hy. unfold spacePrefixLen, DecodeRuneInString.
  destruct y as [|c0 [|c1 [|c2 [|c3 t]]]]; [congruence| | | |];
    cbv beta iota fix delta [String.append CRs];
    change (between 128 (byte CR) 191) with false; rewrite ?andb_false_r;
    repeat match goal with
           | |- context [if ?b then _ else _] => destruct b eqn:?
           end; try reflexivity; try discriminate.
Qed.

Lemma drop_bytes_append_le (k : nat) (y z : string) :
  k <= String.length y -> drop_bytes k (y ++ z) = drop_bytes k y ++ z.
Proof.
  revert y. induction k as [|k IH]; intros y Hk; [reflexivity|].
  destruct y as [|c y]; cbn [String.length] in Hk; [lia|].
  cbn [String.append drop_bytes]. apply IH. lia.
Qed.

Lemma trimLeftSpace_CR (n : nat) : forall y : string,
  String.length y <= n ->
  trimLeftSpace (y ++ CRs) =
  if allSpace y then EmptyString else trimLeftSpace y ++ CRs.
Proof.
  induction n as [|n IH]; intros y Hn.
  - destruct y; cbn [String.length] in Hn; [reflexivity | lia].
  - destruct y as [|c t]; [reflexivity|].
    rewrite trimLeftSpace_unfold, spacePrefixLen_CR by discriminate.
    unfold allSpace. rewrite (trimLeftSpace_unfold (String c t)).
    pose proof (spacePrefixLen_le (String c t)) as Hle.
    destruct (spacePrefixLen (String c t)) as [|k] eqn:Ek; [reflexivity|].
    rewrite drop_bytes_append_le by exact Hle.
    apply IH. rewrite length_drop_bytes. cbn [String.length] in *. lia.
Qed.

Lemma append_CR_nonempty (y : string) : String.eqb (y ++ CRs) EmptyString = false.
Proof. destruct y; reflexivity. Qed.

Lemma allSpace_CR (y : string) : allSpace (y ++ CRs) = allSpace y.
Proof.
  unfold allSpace at 1. rewrite (trimLeftSpace_CR (String.length y)) by lia.
  destruct (allSpace y); [reflexivity | apply append_CR_nonempty].
Qed.

Lemma trimRightSpace_CR (y : string) : trimRightSpace (y ++ CRs) = trimRightSpace y.
Proof.
  induction y as [|c t IH]; [reflexivity|].
  change (String c t ++ CRs) with (String c (t ++ CRs)).
  cbn [trimRightSpace].
  change (String c (t ++ CRs)) with (String c t ++ CRs).
  rewrite allSpace_CR, IH. reflexivity.
Qed.

Lemma TrimSpace_CR (y : string) : TrimSpace (y ++ CRs) = TrimSpace y.
Proof.
  unfold TrimSpace. rewrite (trimLeftSpace_CR (String.length y)) by lia.
  destruct (allSpace y) eqn:E.
  - unfold allSpace in E. apply String.eqb_eq in E. now rewrite E.
  - apply trimRightSpace_CR.
Qed.

Lemma dropCR_spec (l : string) : dropCR l = l \/ l = dropCR l ++ CRs.
Proof.
  induction l as [|c t IH]; [now left|].
  destruct t as [|d t'].
  - cbn [dropCR]. destruct (Ascii.eqb c CR) eqn:E; [|now left].
    apply Ascii.eqb_eq in E. subst c. now right.
  - change (dropCR (String c (String d t'))) with (String c (dropCR (String d t'))).
    destruct IH as [IH|IH]; [left; now rewrite IH | right].
    change (String c (dropCR (String d t')) ++ CRs) with (String c (dropCR (String d t') ++ CRs)).
    now rewrite <- IH.
Qed.

Lemma TrimSpace_dropCR (l : string) : TrimSpace (dropCR l) = TrimSpace l.
Proof.
  destruct (dropCR_spec l) as [E|E]; [now rewrite E|].
  rewrite E at 2. symmetry. apply TrimSpace_CR.
Qed.

Lemma scanWhileFits_all (segs : list string) :
  forallb fitsToken segs = true -> scanWhileFits segs = map dropCR segs.
Proof.
  induction segs as [|l rest IH]; [reflexivity|].
  cbn [forallb scanWhileFits map]. intros H. apply andb_true_iff in H as [H1 H2].
  rewrite H1, IH by exact H2. reflexivity.
Qed.

(** Folding: on a text whose lines fit the scanner, the lines the scanner
    visits, once trimmed, are the segments between newlines, trimmed. *)
Lemma fold_lines (raw : string) :
  forallb fitsToken (SplitLines (TrimSpace raw)) = true ->
  Join (map TrimSpace (ScanLines (TrimSpace raw))) " "
  = Join (map TrimSpace (SplitLines (TrimSpace raw))) " ".
Proof.
  intros Hfit. unfold ScanLines.
  destruct (TrimSpace raw) as [|c t] eqn:E; [reflexivity|].
  rewrite lineSegments_SplitLines.
  - rewrite scanWhileFits_all by exact Hfit.
    rewrite map_map. f_equal. apply map_ext. intros l. apply TrimSpace_dropCR.
  - discriminate.
  - rewrite <- E. apply trimRightSpace_endsNL.
Qed.

End GoStringsFacts.

(** ** Heredocs (claim C5) *)

Module HeredocProperties.
Import GoStrings GoStringsFacts ast CodeGen.

Definition NLs : string := String NL EmptyString.
Definition NLTABs : string := String NL (String TAB EmptyString).

(** *** The elaboration in the words of the specification *)

(** Strip one leading newline. *)
Definition stripOneLeadingNewline (s : string) : string :=
  match s with
  | String c t => if Ascii.eqb c NL then t else s
  | EmptyString => EmptyString
  end.

(** Strip every leading newline. *)
Fixpoint stripLeadingNewlines (s : string) : string :=
  match s with
  | String c t => if Ascii.eqb c NL then stripLeadingNewlines t else s
  | EmptyString => EmptyString
  end.

Definition isNewlineOrTab (c : ascii) : bool := Ascii.eqb c NL || Ascii.eqb c TAB.

Fixpoint dropLeading (l : list ascii) : list ascii :=
  match l with
  | c :: l' => if isNewlineOrTab c then dropLeading l' else l
  | [] => []
  end.

(** Strip the trailing newlines and tabs: read backwards, drop them, read
    forwards again. *)
Definition stripTrailingNewlinesTabs (s : string) : string :=
  string_of_list_ascii (reverse (dropLeading (reverse (list_ascii_of_string s)))).

(** Split the text into lines, trim each line, join with single spaces. *)
Definition foldLines (text : string) : string :=
  Join (map TrimSpace (SplitLines text)) " ".

(** The elaboration as the claim states it. *)
Definition claimedHeredocText (opener : string) (pieces : list string) : string :=
  let raw := stripTrailingNewlinesTabs (stripOneLeadingNewline (Join pieces "")) in
  if String.eqb opener "<<-" then Dedent raw
  else if String.eqb opener "<<~" then foldLines raw
  else raw.

(** The elaboration as the code has it: every leading newline goes, and
    the text to fold is trimmed as a whole before it is split. *)
Definition amendedHeredocText (opener : string) (pieces : list string) : string :=
  let raw := stripTrailingNewlinesTabs (stripLeadingNewlines (Join pieces "")) in
  if String.eqb opener "<<-" then Dedent raw
  else if String.eqb opener "<<~" then foldLines (TrimSpace raw)
  else raw.

Lemma TrimLeft_stripLeadingNewlines (s : string) :
  TrimLeft s NLs = stripLeadingNewlines s.
Proof.
  induction s as [|c t IH]; [reflexivity|].
  cbn [TrimLeft stripLeadingNewlines NLs inCutset]. rewrite orb_false_r.
  destruct (Ascii.eqb c NL); [exact IH | reflexivity].
Qed.

Lemma inCutset_NLTABs (c : ascii) : inCutset c NLTABs = isNewlineOrTab c.
Proof. unfold isNewlineOrTab. cbn [inCutset NLTABs]. now rewrite orb_false_r. Qed.

Lemma dropLeading_snoc (l : list ascii) (c : ascii) :
  dropLeading (l ++ [c])%list =
  match dropLeading l with
  | [] => if isNewlineOrTab c then [] else [c]
  | kept => (kept ++ [c])%list
  end.
Proof.
  induction l as [|d l IH]; [reflexivity|].
  cbn [app dropLeading]. destruct (isNewlineOrTab d); [exact IH | reflexivity].
Qed.

Lemma TrimRight_stripTrailing (s : string) :
  TrimRight s NLTABs = stripTrailingNewlinesTabs s.
Proof.
  unfold stripTrailingNewlinesTabs.
  induction s as [|c t IH]; [reflexivity|].
  cbn [TrimRight list_ascii_of_string]. rewrite inCutset_NLTABs, IH.
  rewrite reverse_cons, dropLeading_snoc.
  destruct (dropLeading (reverse (list_ascii_of_string t))) as [|d kept].
  - cbn [reverse string_of_list_ascii]. destruct (isNewlineOrTab c); reflexivity.
  - rewrite reverse_snoc. cbn [string_of_list_ascii].
    destruct (string_of_list_ascii (reverse (d :: kept))) eqn:E; [|reflexivity].
    exfalso. apply (f_equal String.length) in E. cbn [String.length] in E.
    rewrite reverse_cons in E.
    assert (Hlen : forall l : list ascii, String.length (string_of_list_ascii l) = length l).
    { induction l as [|a l IHl]; [reflexivity|]. cbn. now rewrite IHl. }
    rewrite Hlen, length_app in E. cbn in E. lia.
Qed.

(** The text the generator stores is the amended elaboration. *)
Lemma heredocText_amended (opener terminate : string) (pieces : list string) :
  (String.eqb opener "<<~" = true ->
   forallb fitsToken
     (SplitLines (TrimSpace (stripTrailingNewlinesTabs (stripLeadingNewlines (Join pieces "")))))
   = true) ->
  heredocText (opener ++ terminate) terminate pieces = amendedHeredocText opener pieces.
Proof.
  intros Hfit. unfold heredocText, amendedHeredocText.
  rewrite TrimSuffix_append.
  change (String NL "") with NLs. change (String NL (String TAB "")) with NLTABs.
  rewrite TrimLeft_stripLeadingNewlines, TrimRight_stripTrailing.
  destruct (String.eqb opener "<<-"); [reflexivity|].
  destruct (String.eqb opener "<<~"); [|reflexivity].
  unfold foldLines. apply fold_lines. now apply Hfit.
Qed.

(** The heredoc of scenario E3: the opener [<<-END], a newline, a tab and
    [hello], a newline, a tab and [world], a newline, and [END]. *)
Definition helloWorldHeredoc : Heredoc :=
  mkHeredoc "<<-END"
    [ mkHeredocFragment None None None (Some NLs);
      mkHeredocFragment (Some (String TAB "")) None None None;
      mkHeredocFragment None None None (Some "hello");
      mkHeredocFragment None None None (Some NLs);
      mkHeredocFragment (Some (String TAB "")) None None None;
      mkHeredocFragment None None None (Some "world");
      mkHeredocFragment None None None (Some NLs) ]
    "END".

(** C5 (amended). For every heredoc, the text stored for the pieces of
    its fragments is their join without its leading newlines (all of
    them) and without its trailing newlines and tabs; after the opener
    [<<-] common indentation is removed from it; after the opener [<<~]
    it is trimmed, split into lines, each line is trimmed and the lines
    are joined with single spaces (for lines below the scanner's limit of
    64 KiB).  In particular the heredoc of scenario E3 evaluates to
    [hello], a newline, [world]. *)
Theorem heredoc_elaboration :
  (forall (T : HostTypes) (opener terminate : string) (pieces : list string) (ret : @Register T),
      (String.eqb opener "<<~" = true ->
       forallb fitsToken
         (SplitLines (TrimSpace (stripTrailingNewlinesTabs
                                   (stripLeadingNewlines (Join pieces "")))))
       = true) ->
      emitHeredocPieces (opener ++ terminate) terminate pieces ret
      = Register_Set (VString (amendedHeredocText opener pieces)) ret)
  /\ (forall (T : HostTypes) (H : @Host T) (fuel : nat) (cg : @CodeGen T) (ctx : @Ctx T)
        (scope : nat) (ret : @Register T) (st : @State T),
        EmitHeredoc H (S fuel) cg ctx scope helloWorldHeredoc ret st
        = (Ok tt, Register_Set (VString ("hello" ++ NLs ++ "world")) ret, st)).
Proof.
  split.
  - intros T opener terminate pieces ret Hfit. unfold emitHeredocPieces.
    now rewrite heredocText_amended.
  - intros. reflexivity.
Qed.

(** A folded heredoc: two indented lines, one of them ending with a
    carriage return, an empty line and a last line.  *)
Definition foldedPieces : list string :=
  [ NLs; "  a  "; NLs; String TAB "b"; String CR NLs; NLs; "c "; NLs ].

Lemma heredoc_elaboration_witness :
  forallb fitsToken
    (SplitLines (TrimSpace (stripTrailingNewlinesTabs
                              (stripLeadingNewlines (Join foldedPieces "")))))
  = true
  /\ emitHeredocPieces (T:=Demo.T) ("<<~" ++ "EOM") "EOM" foldedPieces NewRegister
     = Register_Set (VString "a b  c") NewRegister.
Proof.
  split; [vm_compute; reflexivity|].
  rewrite (proj1 heredoc_elaboration Demo.T "<<~" "EOM" foldedPieces NewRegister).
  - reflexivity.
  - intros _. vm_compute. reflexivity.
Defined.

(** C5 as stated fails: the generator strips every leading newline, the
    claim one. *)
Lemma heredoc_leading_newlines_counterexample :
  heredocText "<<END" "END" [NLs; NLs; "foo"] = "foo"
  /\ claimedHeredocText "<<" [NLs; NLs; "foo"] = NLs ++ "foo"
  /\ heredocText ("<<" ++ "END") "END" [NLs; NLs; "foo"]
     <> claimedHeredocText "<<" [NLs; NLs; "foo"].
Proof. repeat split; try (vm_compute; reflexivity). vm_compute. discriminate. Qed.

(** The text to fold is trimmed before it is split: a last line of
    blanks leaves no trace, where splitting first would leave a space. *)
Lemma heredoc_fold_trims_first :
  heredocText "<<~END" "END" ["a"; NLs; " "] = "a"
  /\ claimedHeredocText "<<~" ["a"; NLs; " "] = "a ".
Proof. split; vm_compute; reflexivity. Qed.

End HeredocProperties.

(** ** The prototype check (claim C9) *)

Module PrototypeProperties.
Import GoStrings Reflect.

Lemma GoType_eqb_eq (t u : GoType) : GoType_eqb t u = true <-> t = u.
Proof.
  revert u. induction t as [n|n ms|a IH|a IH]; intros [m|m us|b|b]; cbn [GoType_eqb];
    try (split; [discriminate | congruence]).
  - rewrite String.eqb_eq. split; congruence.
  - rewrite andb_true_iff, String.eqb_eq, bool_decide_eq_true. split; [intros []|intros [=]]; subst; auto.
  - rewrite IH. split; congruence.
  - rewrite IH. split; congruence.
Qed.

(** A parameter conforms to the prototype's: an interface type has to
    implement it, a type of another kind has to be it. *)
Definition conforms (param proto : GoType) : Prop :=
  match param with
  | TInterface _ methods => Implements methods proto = Returned true
  | _ => param = proto
  end.

Lemma Returned_negb_eqb (p q : GoType) :
  Returned (negb (GoType_eqb p q)) = Returned false <-> p = q.
Proof.
  rewrite <- GoType_eqb_eq. split; intros E.
  - apply negb_false_iff. congruence.
  - now rewrite E.
Qed.

Lemma mismatches_false (param proto : GoType) :
  mismatches param proto = Returned false <-> conforms param proto.
Proof.
  destruct param as [n|n ms|a|a]; try apply Returned_negb_eqb.
  unfold mismatches, conforms.
  destruct (Implements ms proto) as [[]|]; cbn; split; intros; congruence.
Qed.

Lemma checkParams_false (params proto : list GoType) :
  checkParams params proto = Returned false
  <-> length proto <= length params /\ Forall2 conforms (take (length proto) params) proto.
Proof.
  revert params. induction proto as [|q proto IH]; intros params.
  - cbn [checkParams length]. rewrite take_0.
    split; [|reflexivity]. intros _. split; [cbn; lia | apply List.Forall2_nil].
  - destruct params as [|p params]; cbn [checkParams length take].
    + split; [discriminate | intros [Hl _]; lia].
    + destruct (mismatches p q) as [[]|msg] eqn:E.
      * split; [discriminate|]. intros [_ HF]. inversion HF as [|? ? ? ? Hc]; subst.
        apply mismatches_false in Hc. congruence.
      * rewrite IH. apply mismatches_false in E.
        split; [intros [Hl HF]; split; [lia | now constructor]|].
        intros [Hl HF]. inversion HF; subst. split; [lia | assumption].
      * split; [discriminate|]. intros [_ HF]. inversion HF as [|? ? ? ? Hc]; subst.
        apply mismatches_false in Hc. congruence.
Qed.

(** The signature of a [Call] method matches the prototype. *)
Definition matchesPrototype (PrototypeIn PrototypeOut : list GoType) (c : MethodType) : Prop :=
  length PrototypeIn <= length (In c)
  /\ Forall2 conforms (take (length PrototypeIn) (In c)) PrototypeIn
  /\ length (Out c) = length PrototypeOut
  /\ Forall2 conforms (Out c) PrototypeOut.

Lemma CheckPrototype_nil (PrototypeIn PrototypeOut : list GoType) (name : string) (c : MethodType) :
  CheckPrototype PrototypeIn PrototypeOut name (Some c) = Returned None
  <-> matchesPrototype PrototypeIn PrototypeOut c.
Proof.
  unfold CheckPrototype, matchesPrototype.
  destruct (length (In c) <? length PrototypeIn)%nat eqn:E1; cbn [orb].
  { apply Nat.ltb_lt in E1. split; [discriminate | intros [? _]; lia]. }
  apply Nat.ltb_ge in E1.
  destruct (length (Out c) =? length PrototypeOut)%nat eqn:E2; cbn [negb].
  2: { apply Nat.eqb_neq in E2. split; [discriminate | intros (_ & _ & ? & _); lia]. }
  apply Nat.eqb_eq in E2.
  destruct (checkParams (In c) PrototypeIn) as [[]|msg] eqn:E3.
  - split; [discriminate|]. intros (Hl & HF & _).
    assert (checkParams (In c) PrototypeIn = Returned false) by (apply checkParams_false; auto).
    congruence.
  - apply checkParams_false in E3 as [_ HF].
    destruct (checkParams (Out c) PrototypeOut) as [[]|msg] eqn:E4.
    + split; [discriminate|]. intros (_ & _ & _ & HO).
      assert (checkParams (Out c) PrototypeOut = Returned false).
      { apply checkParams_false. split; [lia|]. rewrite <- E2, firstn_all. exact HO. }
      congruence.
    + apply checkParams_false in E4 as [_ HO]. rewrite <- E2, firstn_all in HO.
      split; [intros _; auto | reflexivity].
    + split; [discriminate|]. intros (_ & _ & _ & HO).
      assert (checkParams (Out c) PrototypeOut = Returned false).
      { apply checkParams_false. split; [lia|]. rewrite <- E2, firstn_all. exact HO. }
      congruence.
  - split; [discriminate|]. intros (Hl & HF & _).
    assert (checkParams (In c) PrototypeIn = Returned false) by (apply checkParams_false; auto).
    congruence.
Qed.

(** The diagnostic of a callable: the error of its check, if it returns one. *)
Definition diagnostic (PrototypeIn PrototypeOut : list GoType)
    (callable : string * option MethodType) : option string :=
  match CheckPrototype PrototypeIn PrototypeOut (fst callable) (snd callable) with
  | Returned err => err
  | Panicked _ => None
  end.

(** The diagnostics of the callables that do not match: one for each of
    them, in the order of the iteration. *)
Definition diagnostics (PrototypeIn PrototypeOut : list GoType)
    (callables : list (string * option MethodType)) : list string :=
  omap (diagnostic PrototypeIn PrototypeOut) callables.

(** The check of this callable panics. *)
Definition panics (PrototypeIn PrototypeOut : list GoType)
    (callable : string * option MethodType) : Prop :=
  exists msg, CheckPrototype PrototypeIn PrototypeOut (fst callable) (snd callable) = Panicked msg.

(** This callable has a [Call] method that matches the prototype. *)
Definition passes (PrototypeIn PrototypeOut : list GoType)
    (callable : string * option MethodType) : Prop :=
  exists c, snd callable = Some c /\ matchesPrototype PrototypeIn PrototypeOut c.

Lemma passes_CheckPrototype (PrototypeIn PrototypeOut : list GoType)
    (callable : string * option MethodType) :
  passes PrototypeIn PrototypeOut callable
  <-> CheckPrototype PrototypeIn PrototypeOut (fst callable) (snd callable) = Returned None.
Proof.
  destruct callable as [name [c|]]; cbn [fst snd]; unfold passes; cbn [snd].
  - rewrite CheckPrototype_nil. split; [intros (c' & [= <-] & Hc); exact Hc | eauto].
  - split; [intros (c' & [=] & _) | discriminate].
Qed.

Lemma checkAll_spec (PrototypeIn PrototypeOut : list GoType)
    (callables : list (string * option MethodType)) :
  match checkAll PrototypeIn PrototypeOut callables with
  | Returned errs =>
      errs = diagnostics PrototypeIn PrototypeOut callables
      /\ Forall (fun c => ~ panics PrototypeIn PrototypeOut c) callables
  | Panicked _ => Exists (panics PrototypeIn PrototypeOut) callables
  end.
Proof.
  induction callables as [|[name call] rest IH]; cbn [checkAll].
  - split; [reflexivity | constructor].
  - unfold diagnostics. cbn [omap list_omap]. unfold diagnostic at 1. cbn [fst snd].
    destruct (CheckPrototype PrototypeIn PrototypeOut name call) as [err|msg] eqn:E.
    + destruct (checkAll PrototypeIn PrototypeOut rest) as [errs|msg'].
      * destruct IH as [-> HF]. split; [now destruct err|].
        constructor; [|exact HF]. intros [msg Hm]. cbn in Hm. congruence.
      * now apply Exists_cons_tl.
    + apply Exists_cons_hd. exists msg. exact E.
Qed.

Lemma diagnostics_nil (PrototypeIn PrototypeOut : list GoType)
    (callables : list (string * option MethodType)) :
  Forall (fun c => ~ panics PrototypeIn PrototypeOut c) callables ->
  diagnostics PrototypeIn PrototypeOut callables = []
  <-> Forall (passes PrototypeIn PrototypeOut) callables.
Proof.
  unfold diagnostics. induction 1 as [|c rest Hc _ IH]; cbn [omap list_omap].
  - split; [constructor | reflexivity].
  - unfold diagnostic at 1. rewrite Forall_cons, passes_CheckPrototype.
    destruct (CheckPrototype PrototypeIn PrototypeOut (fst c) (snd c)) as [[err|]|msg] eqn:E.
    + split; [discriminate | intros [[=] _]].
    + rewrite IH. split; [auto | intros [_ ?]; auto].
    + exfalso. apply Hc. exists msg. exact E.
Qed.

Lemma no_panic_of_passes (PrototypeIn PrototypeOut : list GoType)
    (callables : list (string * option MethodType)) :
  Forall (passes PrototypeIn PrototypeOut) callables ->
  Forall (fun c => ~ panics PrototypeIn PrototypeOut c) callables.
Proof.
  intros HF. eapply Forall_impl; [exact HF|].
  intros c Hc [msg Hm]. apply passes_CheckPrototype in Hc. congruence.
Qed.

(** A type of another kind than [reflect.Interface]. *)
Definition notInterface (t : GoType) : Prop :=
  match t with
  | TInterface _ _ => False
  | _ => True
  end.

(** The panic of [Type.Implements] on a type that is not an interface. *)
Definition implementsPanic : string :=
  "reflect: non-interface type passed to Type.Implements".

Lemma mismatches_Panicked (param proto : GoType) (msg : string) :
  mismatches param proto = Panicked msg
  <-> (exists name methods, param = TInterface name methods)
      /\ notInterface proto /\ msg = implementsPanic.
Proof.
  destruct param as [n|n ms|a|a]; cbn [mismatches];
    try (split; [discriminate | intros [(? & ? & [=]) _]]).
  destruct proto as [m|m us|b|b]; cbn [Implements notInterface];
    try (split; [intros [= <-]; eauto | intros (_ & _ & ->); reflexivity]).
  split; [discriminate | intros (_ & [] & _)].
Qed.

(** The comparison of [params] with [proto] stops at position [i] with a
    panic: an interface type stands there where the prototype's type is
    not an interface, and the types before it conform. *)
Definition stuckAt (params proto : list GoType) (i : nat) : Prop :=
  exists name methods q,
    params !! i = Some (TInterface name methods)
    /\ proto !! i = Some q /\ notInterface q
    /\ Forall2 conforms (take i params) (take i proto).

Definition stuck (params proto : list GoType) : Prop :=
  exists i, stuckAt params proto i.

Lemma stuck_cons (p q : GoType) (params proto : list GoType) :
  conforms p q -> stuck (p :: params) (q :: proto) <-> stuck params proto.
Proof.
  intros Hc. split.
  - intros ([|i] & name & methods & q' & Hp & Hq & Hn & HF).
    + cbn in Hp, Hq. injection Hp as ->. injection Hq as ->.
      cbn [conforms] in Hc. destruct q'; cbn in Hc, Hn; try discriminate; contradiction.
    + cbn in Hp, Hq. cbn [take] in HF. inversion HF; subst.
      exists i, name, methods, q'. auto.
  - intros (i & name & methods & q' & Hp & Hq & Hn & HF).
    exists (S i), name, methods, q'. cbn. repeat split; auto.
Qed.

Lemma stuck_conforms (p q : GoType) (params proto : list GoType) :
  stuck (p :: params) (q :: proto) ->
  conforms p q \/ ((exists name methods, p = TInterface name methods) /\ notInterface q).
Proof.
  intros ([|i] & name & methods & q' & Hp & Hq & Hn & HF).
  - cbn in Hp, Hq. injection Hp as ->. injection Hq as ->. right. eauto.
  - cbn [take] in HF. inversion HF; subst. now left.
Qed.

Lemma checkParams_Panicked (params proto : list GoType) (msg : string) :
  length proto <= length params ->
  checkParams params proto = Panicked msg
  <-> stuck params proto /\ msg = implementsPanic.
Proof.
  revert params. induction proto as [|q proto IH]; intros params Hl.
  - cbn [checkParams]. split; [discriminate|].
    intros [(i & name & methods & q & _ & Hq & _) _]. now rewrite lookup_nil in Hq.
  - destruct params as [|p params]; cbn [length] in Hl; [lia|]. cbn [checkParams].
    destruct (mismatches p q) as [[]|m] eqn:E.
    + split; [discriminate|]. intros [Hs _]. exfalso.
      apply stuck_conforms in Hs as [Hc|(Hi & Hn)].
      * apply mismatches_false in Hc. congruence.
      * assert (mismatches p q = Panicked implementsPanic) by (apply mismatches_Panicked; auto).
        congruence.
    + apply mismatches_false in E. rewrite (stuck_cons p q params proto E).
      apply IH. lia.
    + apply mismatches_Panicked in E as ((name & methods & ->) & Hn & ->).
      split; [intros [= <-]|intros [_ ->]; reflexivity].
      split; [|reflexivity]. exists 0, name, methods, q. cbn.
      repeat split; auto.
Qed.

(** When the check of a callable panics: it has no [Call] method, or it
    has the numbers of inputs and outputs the check asks for and the
    comparison of its inputs, or after them of its outputs, stops on an
    interface type where the prototype's type is not one. *)
Definition aborts (PrototypeIn PrototypeOut : list GoType)
    (callable : string * option MethodType) : Prop :=
  match snd callable with
  | None => True
  | Some c =>
      length PrototypeIn <= length (In c)
      /\ length (Out c) = length PrototypeOut
      /\ (stuck (In c) PrototypeIn
          \/ (Forall2 conforms (take (length PrototypeIn) (In c)) PrototypeIn
              /\ stuck (Out c) PrototypeOut))
  end.

Lemma panics_aborts (PrototypeIn PrototypeOut : list GoType)
    (callable : string * option MethodType) :
  panics PrototypeIn PrototypeOut callable <-> aborts PrototypeIn PrototypeOut callable.
Proof.
  destruct callable as [name [c|]]; unfold panics, aborts; cbn [fst snd];
    [|split; [auto | intros _; eexists; reflexivity]].
  unfold CheckPrototype.
  destruct (length (In c) <? length PrototypeIn)%nat eqn:E1; cbn [orb].
  { apply Nat.ltb_lt in E1. split; [intros [? [=]] | intros [? _]; lia]. }
  apply Nat.ltb_ge in E1.
  destruct (length (Out c) =? length PrototypeOut)%nat eqn:E2; cbn [negb].
  2: { apply Nat.eqb_neq in E2. split; [intros [? [=]] | intros (_ & ? & _); lia]. }
  apply Nat.eqb_eq in E2.
  assert (HlO : length PrototypeOut <= length (Out c)) by lia.
  destruct (checkParams (In c) PrototypeIn) as [[]|m] eqn:E3.
  - split; [intros [? [=]]|]. intros (_ & _ & [Hs|[HF _]]); exfalso.
    + assert (checkParams (In c) PrototypeIn = Panicked implementsPanic)
        by (apply checkParams_Panicked; auto).
      congruence.
    + assert (checkParams (In c) PrototypeIn = Returned false)
        by (apply checkParams_false; auto).
      congruence.
  - pose proof E3 as HF. apply checkParams_false in HF as [_ HF].
    destruct (checkParams (Out c) PrototypeOut) as [[]|m] eqn:E4.
    + split; [intros [? [=]]|]. intros (_ & _ & [Hs|[_ Hs]]); exfalso.
      * assert (checkParams (In c) PrototypeIn = Panicked implementsPanic)
          by (apply checkParams_Panicked; auto).
        congruence.
      * assert (checkParams (Out c) PrototypeOut = Panicked implementsPanic)
          by (apply checkParams_Panicked; auto).
        congruence.
    + split; [intros [? [=]]|]. intros (_ & _ & [Hs|[_ Hs]]); exfalso.
      * assert (checkParams (In c) PrototypeIn = Panicked implementsPanic)
          by (apply checkParams_Panicked; auto).
        congruence.
      * assert (checkParams (Out c) PrototypeOut = Panicked implementsPanic)
          by (apply checkParams_Panicked; auto).
        congruence.
    + apply checkParams_Panicked in E4 as [Hs _]; [|exact HlO].
      split; [intros _; auto | intros _; eexists; reflexivity].
  - apply checkParams_Panicked in E3 as [Hs _]; [|exact E1].
    split; [intros _; auto | intros _; eexists; reflexivity].
Qed.

(** The check rejects this callable with the message [e]: it has a [Call]
    method that does not match the prototype, the check does not panic,
    and [e] is the message about this callable. *)
Definition rejects (PrototypeIn PrototypeOut : list GoType)
    (callable : string * option MethodType) (e : string) : Prop :=
  exists c, snd callable = Some c
    /\ ~ matchesPrototype PrototypeIn PrototypeOut c
    /\ ~ panics PrototypeIn PrototypeOut callable
    /\ e = mismatchError PrototypeIn PrototypeOut (fst callable) c.

Lemma CheckPrototype_error (PrototypeIn PrototypeOut : list GoType)
    (name : string) (c : MethodType) (e : string) :
  CheckPrototype PrototypeIn PrototypeOut name (Some c) = Returned (Some e) ->
  e = mismatchError PrototypeIn PrototypeOut name c.
Proof.
  unfold CheckPrototype.
  destruct ((length (In c) <? length PrototypeIn)%nat
            || negb (length (Out c) =? length PrototypeOut)%nat); [congruence|].
  destruct (checkParams (In c) PrototypeIn) as [[]|]; try congruence.
  destruct (checkParams (Out c) PrototypeOut) as [[]|]; congruence.
Qed.

Lemma diagnostic_rejects (PrototypeIn PrototypeOut : list GoType)
    (callable : string * option MethodType) (e : string) :
  diagnostic PrototypeIn PrototypeOut callable = Some e
  <-> rejects PrototypeIn PrototypeOut callable e.
Proof.
  unfold diagnostic, rejects, panics. destruct callable as [name [c|]]; cbn [fst snd].
  - pose proof (CheckPrototype_nil PrototypeIn PrototypeOut name c) as Hnil.
    pose proof (CheckPrototype_error PrototypeIn PrototypeOut name c) as Herr.
    destruct (CheckPrototype PrototypeIn PrototypeOut name (Some c)) as [[e'|]|m].
    + split.
      * intros [= ->]. exists c. repeat split; auto.
        -- intros Hm. apply Hnil in Hm. discriminate.
        -- intros [? [=]].
      * intros (c' & [= <-] & _ & _ & ->). now rewrite (Herr e' eq_refl).
    + split; [discriminate|]. intros (c' & [= <-] & Hm & _). exfalso. now apply Hm, Hnil.
    + split; [discriminate|]. intros (c' & _ & _ & Hp & _). exfalso. apply Hp. now exists m.
  - split; [|intros (c & [=] & _)]. cbn. discriminate.
Qed.

(** The loop stops at the first check that panics, with its panic. *)
Lemma checkAll_Panicked (PrototypeIn PrototypeOut : list GoType)
    (before after : list (string * option MethodType))
    (callable : string * option MethodType) (msg : string) :
  Forall (fun c => ~ panics PrototypeIn PrototypeOut c) before ->
  CheckPrototype PrototypeIn PrototypeOut (fst callable) (snd callable) = Panicked msg ->
  checkAll PrototypeIn PrototypeOut (before ++ callable :: after)%list = Panicked msg.
Proof.
  intros HF Hc. induction HF as [|[name call] before Hn _ IH]; cbn [app checkAll].
  - destruct callable as [name call]. cbn [fst snd] in Hc. now rewrite Hc.
  - destruct (CheckPrototype PrototypeIn PrototypeOut name call) as [err|m] eqn:E.
    + now rewrite IH.
    + exfalso. apply Hn. now exists m.
Qed.

Lemma checkAll_Returned (PrototypeIn PrototypeOut : list GoType)
    (callables : list (string * option MethodType)) :
  Forall (fun c => ~ panics PrototypeIn PrototypeOut c) callables ->
  checkAll PrototypeIn PrototypeOut callables
  = Returned (diagnostics PrototypeIn PrototypeOut callables).
Proof.
  intros HF. pose proof (checkAll_spec PrototypeIn PrototypeOut callables) as Hall.
  destruct (checkAll PrototypeIn PrototypeOut callables) as [errs|msg].
  - now destruct Hall as [-> _].
  - exfalso. apply Exists_exists in Hall as (c & Hin & Hc).
    rewrite Forall_forall in HF. exact (HF c Hin Hc).
Qed.

(** C9 (amended). At registry initialisation every callable of the table
    is validated against the reflected prototype signature, once: it has
    to take the prototype inputs as a prefix and to produce as many
    outputs as the prototype, each input of the prefix and each output
    being the corresponding prototype type or, when it is an interface
    type, implementing it.  A check panics exactly when the callable has
    no [Call] method or when, the numbers of inputs and outputs being
    right and no mismatch found before, an interface-typed input or output
    stands where the prototype's type is not an interface; initialisation
    then panics with the first such panic and reports no mismatch.  When
    no check panics, the callables that mismatch are reported together,
    each with its one message, in iteration order, in one diagnostic
    joined by newlines.  Initialisation succeeds exactly when every
    callable matches: it fails if any callable mismatches. *)
Theorem prototype_conformance :
  (forall (PrototypeIn PrototypeOut : list GoType) (name : string) (c : MethodType),
      CheckPrototype PrototypeIn PrototypeOut name (Some c) = Returned None
      <-> matchesPrototype PrototypeIn PrototypeOut c)
  /\ (forall (PrototypeIn PrototypeOut : list GoType) (callable : string * option MethodType),
        (panics PrototypeIn PrototypeOut callable <-> aborts PrototypeIn PrototypeOut callable)
        /\ (forall e, diagnostic PrototypeIn PrototypeOut callable = Some e
                      <-> rejects PrototypeIn PrototypeOut callable e))
  /\ (forall (p : MethodType) (callables : list (string * option MethodType)),
        Forall (fun c => ~ panics (tail (In p)) (Out p) c) callables ->
        initCallables (Some p) callables
        = Returned (tail (In p), Out p,
                    match diagnostics (tail (In p)) (Out p) callables with
                    | [] => None
                    | errs => Some (Join errs (String NL EmptyString))
                    end)
        /\ (diagnostics (tail (In p)) (Out p) callables = []
            <-> Forall (passes (tail (In p)) (Out p)) callables))
  /\ (forall (p : MethodType) (before after : list (string * option MethodType))
             (callable : string * option MethodType) (msg : string),
        Forall (fun c => ~ panics (tail (In p)) (Out p) c) before ->
        CheckPrototype (tail (In p)) (Out p) (fst callable) (snd callable) = Panicked msg ->
        initCallables (Some p) (before ++ callable :: after)%list = Panicked msg
        /\ init (Some p) (before ++ callable :: after)%list = Panicked msg)
  /\ (forall (p : MethodType) (callables : list (string * option MethodType)),
        init (Some p) callables = Returned (tail (In p), Out p)
        <-> Forall (passes (tail (In p)) (Out p)) callables).
Proof.
  split; [exact CheckPrototype_nil|].
  split; [intros PrototypeIn PrototypeOut callable; split;
          [apply panics_aborts | intros e; apply diagnostic_rejects]|].
  assert (Hreturns : forall p callables,
    Forall (fun c => ~ panics (tail (In p)) (Out p) c) callables ->
    initCallables (Some p) callables
    = Returned (tail (In p), Out p,
                match diagnostics (tail (In p)) (Out p) callables with
                | [] => None
                | errs => Some (Join errs (String NL EmptyString))
                end)).
  { intros p callables HF. unfold initCallables.
    rewrite (checkAll_Returned _ _ _ HF).
    now destruct (diagnostics (tail (In p)) (Out p) callables). }
  assert (Hpanics : forall p before after callable msg,
    Forall (fun c => ~ panics (tail (In p)) (Out p) c) before ->
    CheckPrototype (tail (In p)) (Out p) (fst callable) (snd callable) = Panicked msg ->
    initCallables (Some p) (before ++ callable :: after)%list = Panicked msg).
  { intros p before after callable msg HF Hc. unfold initCallables.
    now rewrite (checkAll_Panicked _ _ before after callable msg HF Hc). }
  split; [intros p callables HF; split; [now apply Hreturns | now apply diagnostics_nil]|].
  split; [intros p before after callable msg HF Hc; split; [now apply Hpanics|];
          unfold init; now rewrite (Hpanics p before after callable msg HF Hc)|].
  intros p callables. unfold init. split.
  - intros Hinit. unfold initCallables in Hinit.
    pose proof (checkAll_spec (tail (In p)) (Out p) callables) as Hall.
    destruct (checkAll (tail (In p)) (Out p) callables) as [errs|msg]; [|discriminate].
    destruct Hall as [-> Hnp]. apply (diagnostics_nil _ _ _ Hnp).
    destruct (diagnostics (tail (In p)) (Out p) callables); [reflexivity|].
    cbn in Hinit. discriminate.
  - intros HF. pose proof (no_panic_of_passes _ _ _ HF) as Hnp.
    rewrite (Hreturns p callables Hnp).
    apply (diagnostics_nil _ _ _ Hnp) in HF. now rewrite HF.
Qed.

(** An interface that has the methods of [codegen.Value] and one more. *)
Definition tWideValue : GoType :=
  TInterface "codegen.WideValue"
    ["Kind"; "String"; "Option"; "Filesystem"; "Request"; "Reflect"; "Extra"].

(** [Call(ctx, cln, v, opts) (WideValue, error)] *)
Definition wideCall : MethodType :=
  {| In := Demo.prototypeIn; Out := [tWideValue; Demo.tError]; IsVariadic := false |}.

(** C9 as stated fails: a callable whose first output is another
    interface type, one that implements the prototype's, passes the check
    although its outputs are not the prototype outputs; initialisation
    succeeds with it. *)
Lemma prototype_outputs_counterexample :
  CheckPrototype Demo.prototypeIn Demo.prototypeOut "codegen.Wide" (Some wideCall) = Returned None
  /\ Out wideCall <> Demo.prototypeOut
  /\ init (Some Demo.protoCall) [("codegen.Wide", Some wideCall)]
     = Returned (Demo.prototypeIn, Demo.prototypeOut).
Proof. repeat split; try (vm_compute; reflexivity). vm_compute. discriminate. Qed.

(** [Call(ctx, cln) (Value, error)]: too few inputs. *)
Definition shortCall : MethodType :=
  {| In := [Demo.tContext; Demo.tClient]; Out := Demo.prototypeOut; IsVariadic := false |}.

(** [Call(ctx, cln io.Closer, v, opt) (Value, error)]: an interface type
    where the prototype has [*client.Client]. *)
Definition closerCall : MethodType :=
  {| In := [Demo.tContext; TInterface "io.Closer" ["Close"]; Demo.tValue; Demo.tOption];
     Out := Demo.prototypeOut; IsVariadic := false |}.

(** A check that panics hides the mismatches found before it: the table
    of a callable with too few inputs and one with an interface type in
    the place of [*client.Client] makes initialisation panic in
    [Type.Implements], and the message about the first is not reported. *)
Example prototype_panic_hides_mismatch :
  let callables := [("codegen.Short", Some shortCall); ("codegen.Closer", Some closerCall)] in
  init (Some Demo.protoCall) callables = Panicked implementsPanic
  /\ rejects Demo.prototypeIn Demo.prototypeOut ("codegen.Short", Some shortCall)
       (mismatchError Demo.prototypeIn Demo.prototypeOut "codegen.Short" shortCall)
  /\ aborts Demo.prototypeIn Demo.prototypeOut ("codegen.Closer", Some closerCall).
Proof.
  split; [vm_compute; reflexivity|]. split.
  - apply diagnostic_rejects. vm_compute. reflexivity.
  - apply panics_aborts. exists implementsPanic. vm_compute. reflexivity.
Qed.

(** The table of a callable with too few inputs and one whose first
    output is a wider interface: no check panics, and the diagnostic is
    the message about the first; with the callable that has an interface
    type in the place of [*client.Client] after the first, initialisation
    panics in [Type.Implements]. *)
Lemma prototype_conformance_witness :
  initCallables (Some Demo.protoCall)
    [("codegen.Short", Some shortCall); ("codegen.Wide", Some wideCall)]
  = Returned (Demo.prototypeIn, Demo.prototypeOut,
              Some (mismatchError Demo.prototypeIn Demo.prototypeOut "codegen.Short" shortCall))
  /\ init (Some Demo.protoCall)
       [("codegen.Short", Some shortCall); ("codegen.Closer", Some closerCall)]
     = Panicked implementsPanic.
Proof.
  destruct prototype_conformance as (_ & _ & Hreturns & Hpanics & _).
  split.
  - destruct (Hreturns Demo.protoCall
                [("codegen.Short", Some shortCall); ("codegen.Wide", Some wideCall)])
      as [-> _]; [|vm_compute; reflexivity].
    repeat constructor; intros [msg Hm]; vm_compute in Hm; discriminate Hm.
  - apply (Hpanics Demo.protoCall [("codegen.Short", Some shortCall)] []
             ("codegen.Closer", Some closerCall) implementsPanic).
    + repeat constructor; intros [msg Hm]; vm_compute in Hm; discriminate Hm.
    + vm_compute. reflexivity.
Defined.

End PrototypeProperties.

(** ** The evaluator *)

Module CodeGenProperties.
Import GoStrings Reflect ast CodeGen.

Section WithHost.

Context {T : HostTypes} (H : @Host T).

(** *** One call spends one unit of fuel *)

Lemma evaluator_S (fuel : nat) : evaluator H (S fuel) = callees H (evaluator H fuel).
Proof. reflexivity. Qed.

Lemma EmitExpr_S (fuel : nat) : EmitExpr H (S fuel) = EmitExpr_of (evaluator H fuel).
Proof. reflexivity. Qed.

Lemma EmitIdentExpr_S (fuel : nat) : EmitIdentExpr H (S fuel) = EmitIdentExpr_of H (evaluator H fuel).
Proof. reflexivity. Qed.

Lemma EmitImport_S (fuel : nat) : EmitImport H (S fuel) = EmitImport_of H (evaluator H fuel).
Proof. reflexivity. Qed.

Lemma EmitStringLit_S (fuel : nat) : EmitStringLit H (S fuel) = EmitStringLit_of (evaluator H fuel).
Proof. reflexivity. Qed.

Lemma EmitBlock_S (fuel : nat) : EmitBlock H (S fuel) = EmitBlock_of (evaluator H fuel).
Proof. reflexivity. Qed.

Lemma lookupCall_S (fuel : nat) : lookupCall H (S fuel) = lookupCall_of H (evaluator H fuel).
Proof. reflexivity. Qed.

(** *** Built-in dispatch (claims C4 and C10) *)

(** What [EmitBuiltinDecl] makes of the outputs of the callable. *)
Definition callResult (ctx : Ctx) (st : State)
    (outs : option Value * option error * World T) : Res Value * State :=
  match outs with
  | (_, Some err, w) => (Err (WithBacktraceError ctx err), {| scopes := scopes st; world := w |})
  | (Some out, None, w) => (Ok out, {| scopes := scopes st; world := w |})
  | (None, None, w) =>
      (Abort (GoPanic "interface conversion: interface is nil, not codegen.Value"),
       {| scopes := scopes st; world := w |})
  end.

(** The context the callable is given: the binding added, if there is one. *)
Definition callContext (ctx : Ctx) (b : option Binding) : Ctx :=
  match b with
  | Some b' => WithBinding ctx b'
  | None => ctx
  end.

(** The number of inputs before the variadic tail, and of those the number
    that come after the inputs of the prototype. *)
Definition fixedIn (ty : MethodType) : nat :=
  if IsVariadic ty then length (In ty) - 1 else length (In ty).

Definition expectedArgs (ty : MethodType) : nat :=
  fixedIn ty - length (PrototypeIn H).

(** The built-in [bd] is dispatched to the method [c], which is handed
    the reflected arguments [ins]: the callable is found, it has as many
    fixed inputs as the prototype at least, there are enough arguments,
    the first of them reflect to the types of the fixed inputs, and for a
    variadic method the others reflect to the element type of its tail. *)
Definition dispatches (ctx : Ctx) (bd : BuiltinDecl) (args : list Value)
    (c : Method) (ins : list (Reflected T)) : Prop :=
  exists (callable : Callable) (regular tailArgs : list (Reflected T)),
    findCallable H ctx bd = Some callable
    /\ Call callable = Some c
    /\ length (PrototypeIn H) <= fixedIn (Method_Type c)
    /\ expectedArgs (Method_Type c) <= length args
    /\ reflectAll H (take (expectedArgs (Method_Type c)) args)
         (take (expectedArgs (Method_Type c))
            (drop (length (PrototypeIn H)) (In (Method_Type c)))) = Ok regular
    /\ (if IsVariadic (Method_Type c) then
          match variadicElem (Method_Type c) (fixedIn (Method_Type c)) with
          | Some param =>
              reflectAll H (drop (expectedArgs (Method_Type c)) args)
                (replicate (length args - expectedArgs (Method_Type c)) param) = Ok tailArgs
          | None => length args = expectedArgs (Method_Type c) /\ tailArgs = []
          end
        else tailArgs = [])
    /\ ins = (regular ++ tailArgs)%list.

Definition isOk {A : Type} (r : Res A) : bool :=
  match r with
  | Ok _ => true
  | _ => false
  end.

(** [EmitBuiltinDecl] either fails before it calls anything, in the state
    it was given, or it calls the method the built-in is dispatched to:
    with the value of the register, and with the options of the call
    followed by the extra solve options of the generator. *)
Lemma EmitBuiltinDecl_cases (cg : CodeGen) (ctx : Ctx) (scope : nat) (bd : BuiltinDecl)
    (args : list Value) (opts : list OptionItem) (b : option Binding) (v : Value) (st : State) :
  (exists c ins,
      dispatches ctx bd args c ins
      /\ EmitBuiltinDecl H cg ctx scope bd args opts b v st
         = callResult (callContext ctx b) st
             (Method_Call c (callContext ctx b) (cln cg) v
                (opts ++ map OptSolve (extraSolveOpts cg))%list ins (world st)))
  \/ (exists r, isOk r = false
             /\ EmitBuiltinDecl H cg ctx scope bd args opts b v st = (r, st)
             /\ forall c ins, ~ dispatches ctx bd args c ins).
Proof.
  unfold EmitBuiltinDecl.
  destruct (findCallable H ctx bd) as [callable|] eqn:Ef.
  2: { right. eexists. split; [|split; [reflexivity|]]; [reflexivity|].
       intros c ins (callable & ? & ? & ? & _). congruence. }
  destruct (Call callable) as [c|] eqn:Ec.
  2: { right. eexists. split; [|split; [reflexivity|]]; [reflexivity|].
       intros c ins (callable' & ? & ? & ? & ? & _). congruence. }
  fold (fixedIn (Method_Type c)).
  destruct (fixedIn (Method_Type c) <? length (PrototypeIn H))%nat eqn:E1.
  { right. eexists. split; [|split; [reflexivity|]]; [reflexivity|].
    intros c' ins (callable' & ? & ? & ? & ? & Hle & _).
    assert (c' = c) by congruence. subst c'. apply Nat.ltb_lt in E1. lia. }
  apply Nat.ltb_ge in E1. fold (expectedArgs (Method_Type c)).
  destruct (length args <? expectedArgs (Method_Type c))%nat eqn:E2.
  { right. eexists. split; [|split; [reflexivity|]]; [reflexivity|].
    intros c' ins (callable' & ? & ? & ? & ? & _ & Hle & _).
    assert (c' = c) by congruence. subst c'. apply Nat.ltb_lt in E2. lia. }
  apply Nat.ltb_ge in E2.
  destruct (reflectAll H (take (expectedArgs (Method_Type c)) args) _) as [regular|e|r] eqn:E3.
  2,3: right; eexists; (split; [|split; [reflexivity|]]; [reflexivity|]);
       intros c' ins (callable' & ? & ? & ? & ? & _ & _ & Hr & _);
       assert (c' = c) by congruence; subst c'; congruence.
  destruct (IsVariadic (Method_Type c)) eqn:Ev.
  - destruct (variadicElem (Method_Type c) (fixedIn (Method_Type c))) as [param|] eqn:Ee.
    + destruct (reflectAll H (drop (expectedArgs (Method_Type c)) args) _) as [tailArgs|e|r] eqn:E4.
      2,3: right; eexists; (split; [|split; [reflexivity|]]; [reflexivity|]);
           intros c' ins (callable' & ? & ? & ? & ? & _ & _ & _ & Hv & _);
           assert (c' = c) by congruence; subst c'; rewrite Ev, Ee in Hv; congruence.
      left. exists c, (regular ++ tailArgs)%list. split; [|reflexivity].
      exists callable, regular, tailArgs. rewrite Ev, Ee. auto 10.
    + destruct (expectedArgs (Method_Type c) <? length args)%nat eqn:E5.
      * right. eexists. split; [|split; [reflexivity|]]; [reflexivity|].
        intros c' ins (callable' & ? & ? & ? & ? & _ & _ & _ & Hv & _).
        assert (c' = c) by congruence. subst c'. rewrite Ev, Ee in Hv.
        apply Nat.ltb_lt in E5. lia.
      * apply Nat.ltb_ge in E5. left. exists c, (regular ++ [])%list. split; [|reflexivity].
        exists callable, regular, []. rewrite Ev, Ee. repeat split; auto. lia.
  - left. exists c, (regular ++ [])%list. split; [|reflexivity].
    exists callable, regular, []. rewrite Ev. auto 10.
Qed.

Lemma reflectAll_replicate (args : list Value) (param : GoType) (rs : list (Reflected T)) :
  reflectAll H args (replicate (length args) param) = Ok rs
  <-> Forall2 (fun arg r => Value_Reflect H arg param = Ok r) args rs.
Proof.
  revert rs. induction args as [|arg args IH]; intros rs; cbn [length replicate reflectAll].
  - split; [intros [= <-]; constructor | intros HF; inversion HF; reflexivity].
  - destruct (Value_Reflect H arg param) as [r|e|a] eqn:E.
    + destruct (reflectAll H args (replicate (length args) param)) as [rs'|e|a] eqn:E'.
      * split.
        -- intros [= <-]. constructor; [exact E | now apply IH].
        -- intros HF. inversion HF as [|? r' ? rs'' Hr Hrs]; subst.
           apply IH in Hrs. congruence.
      * split; [discriminate|]. intros HF. inversion HF as [|? r' ? rs'' Hr Hrs]; subst.
        apply IH in Hrs. discriminate.
      * split; [discriminate|]. intros HF. inversion HF as [|? r' ? rs'' Hr Hrs]; subst.
        apply IH in Hrs. discriminate.
    + split; [discriminate|]. intros HF. inversion HF; congruence.
    + split; [discriminate|]. intros HF. inversion HF; congruence.
Qed.

Lemma reflectAll_length (args : list Value) (params : list GoType) (rs : list (Reflected T)) :
  reflectAll H args params = Ok rs -> length rs = Nat.min (length args) (length params).
Proof.
  revert params rs. induction args as [|arg args IH]; intros [|param params] rs; cbn;
    try (intros [= <-]; reflexivity).
  destruct (Value_Reflect H arg param); try discriminate.
  destruct (reflectAll H args params) as [rs'| |] eqn:E; try discriminate.
  intros [= <-]. cbn. f_equal. apply (IH params). exact E.
Qed.

(** A dispatched built-in is called, and its outputs decide the result. *)
Lemma builtin_invocation_result (cg : CodeGen) (ctx : Ctx) (scope : nat) (bd : BuiltinDecl)
    (args : list Value) (opts : list OptionItem) (b : option Binding) (v : Value) (st : State)
    (c : Method) (ins : list (Reflected T)) :
  dispatches ctx bd args c ins ->
  EmitBuiltinDecl H cg ctx scope bd args opts b v st
  = callResult (callContext ctx b) st
      (Method_Call c (callContext ctx b) (cln cg) v
         (opts ++ map OptSolve (extraSolveOpts cg))%list ins (world st)).
Proof.
  intros Hd.
  destruct (EmitBuiltinDecl_cases cg ctx scope bd args opts b v st)
    as [(c' & ins' & Hd' & He)|(r & _ & _ & Hno)]; [|exfalso; exact (Hno c ins Hd)].
  destruct Hd as (callable & regular & tailArgs & Hf & Hc & _ & _ & Hr & Hv & ->).
  destruct Hd' as (callable' & regular' & tailArgs' & Hf' & Hc' & _ & _ & Hr' & Hv' & ->).
  assert (callable' = callable) by congruence. subst callable'.
  assert (c' = c) by congruence. subst c'.
  assert (regular' = regular) by congruence. subst regular'.
  assert (tailArgs' = tailArgs); [|subst tailArgs'; exact He].
  destruct (IsVariadic (Method_Type c)); [|congruence].
  destruct (variadicElem (Method_Type c) (fixedIn (Method_Type c)));
    [congruence | destruct Hv, Hv'; congruence].
Qed.


Lemma applyOptions_extraSolveOpts (cg : CodeGen) (lists : list (list (SolveOption T))) :
  applyOptions cg (map WithExtraSolveOpts lists)
  = ({| Debug_ := Debug_ cg; cln := cln cg; resolver := resolver cg;
        extraSolveOpts := extraSolveOpts cg ++ concat lists |}, None).
Proof.
  revert cg. induction lists as [|l lists IH]; intros cg; cbn [map applyOptions concat].
  - rewrite app_nil_r. now destruct cg.
  - unfold WithExtraSolveOpts at 1. rewrite IH. cbn. now rewrite app_assoc.
Qed.

(** C10. The extra solve options configured through [WithExtraSolveOpts]
    accumulate on the generator in configuration order, and whenever
    [EmitBuiltinDecl] calls a host callable, the option list it passes is
    the options of the call followed by those extra solve options: for
    every invocation, also one without options of its own (a call without
    a with clause).  When it calls nothing, it fails in the state it was
    given. *)
Theorem builtin_receives_extra_solve_opts :
  (forall (c : Client T) (r : Resolver) (lists : list (list (SolveOption T))),
      snd (New c r (map WithExtraSolveOpts lists)) = None
      /\ extraSolveOpts (fst (New c r (map WithExtraSolveOpts lists))) = concat lists)
  /\ (forall (cg : CodeGen) (dbgr : Debugger),
        extraSolveOpts (fst (WithDebugger dbgr cg)) = extraSolveOpts cg)
  /\ (forall (cg : CodeGen) (ctx : Ctx) (scope : nat) (bd : BuiltinDecl) (args : list Value)
        (opts : list OptionItem) (b : option Binding) (v : Value) (st : State),
        (exists c ins,
            dispatches ctx bd args c ins
            /\ EmitBuiltinDecl H cg ctx scope bd args opts b v st
               = callResult (callContext ctx b) st
                   (Method_Call c (callContext ctx b) (cln cg) v
                      (opts ++ map OptSolve (extraSolveOpts cg))%list ins (world st)))
        \/ (exists r, isOk r = false
                   /\ EmitBuiltinDecl H cg ctx scope bd args opts b v st = (r, st)
                   /\ forall c ins, ~ dispatches ctx bd args c ins))
  /\ (forall (cg : CodeGen) (ctx : Ctx) (scope : nat) (bd : BuiltinDecl) (args : list Value)
        (b : option Binding) (v : Value) (st : State) (c : Method) (ins : list (Reflected T)),
        dispatches ctx bd args c ins ->
        EmitBuiltinDecl H cg ctx scope bd args [] b v st
        = callResult (callContext ctx b) st
            (Method_Call c (callContext ctx b) (cln cg) v
               (map OptSolve (extraSolveOpts cg)) ins (world st))).
Proof.
  split; [|split; [|split]].
  - intros c r lists. unfold New. rewrite applyOptions_extraSolveOpts. split; reflexivity.
  - reflexivity.
  - exact EmitBuiltinDecl_cases.
  - intros cg ctx scope bd args b v st c ins Hd.
    pose proof (builtin_invocation_result cg ctx scope bd args [] b v st c ins Hd) as He.
    exact He.
Qed.

(** *** Registers *)

Lemma force_app (q1 q2 : list Async) (v : Value) (st : State) :
  force (q1 ++ q2) v st =
  match force q1 v st with
  | (Ok v', st') => force q2 v' st'
  | other => other
  end.
Proof.
  revert v st. induction q1 as [|f q1 IH]; intros v st; cbn [app force]; [reflexivity|].
  destruct (isError v) eqn:E.
  - destruct q2 as [|g q2]; cbn [force]; [reflexivity | now rewrite E].
  - destruct (f v st) as [[v'|e|a] st']; [apply IH | | reflexivity].
    destruct q2 as [|g q2]; reflexivity.
Qed.

Lemma force_error (q : list Async) (v : Value) (st : State) :
  isError v = true -> force q v st = (Ok v, st).
Proof. intros E. destruct q; cbn [force]; [reflexivity | now rewrite E]. Qed.

Lemma Register_Value_flushed (ret ret' : Register) (v : Value) (st st' : State) :
  Register_Value ret st = (Ok v, ret', st') -> ret' = {| held := v; deferred := [] |}.
Proof.
  unfold Register_Value. destruct (force (deferred ret) (held ret) st) as [[v'|e|a] st''];
    intros [= <- <- <-]; reflexivity.
Qed.

(** A value set on a forced register that holds no error is what the
    register holds next. *)
Lemma Register_Value_Set (current v : Value) (st : State) :
  isError current = false ->
  Register_Value (Register_Set v {| held := current; deferred := [] |}) st
  = (Ok v, {| held := v; deferred := [] |}, st).
Proof.
  intros E. unfold Register_Value, Register_Set, Register_SetAsync.
  cbn [deferred held app force]. now rewrite E.
Qed.

(** *** Parameters (claim C3) *)

Lemma Value_Kind_Option (v : Value) :
  String.eqb (Value_Kind v) KOption = true <-> exists o, v = VOption o.
Proof.
  destruct v; cbn; split; try discriminate; try (intros [o [=]]); eauto.
Qed.

(** C3. When [EmitIdentExpr] resolves an identifier to a parameter
    [Field] bound to the value [val]: if [val] and the current value of
    the return register both have kind [Option], the register is set to
    the current option list followed by the option list of the
    parameter; in every other case the register is set to [val] (which,
    on a register that holds no error, replaces its content). *)
Theorem ident_resolves_to_parameter (fuel : nat) (cg : CodeGen) (ctx : Ctx) (scope : nat)
    (ie : IdentExpr) (lookup : Ident) (args : list Value) (opts : list OptionItem)
    (b : option Binding) (ret : Register) (st : State)
    (holder : nat) (obj : Object) (n : Field) (val : Value) :
  Lookup st scope (Text lookup) = Some (holder, obj) ->
  Object_Node obj = NodeField n ->
  Object_Data obj = DValue val ->
  let emitted := EmitIdentExpr H (S fuel) cg ctx scope ie lookup args opts b ret st in
  (Value_Kind val <> KOption -> emitted = (Ok tt, Register_Set val ret, st))
  /\ (forall current ret' st',
        Value_Kind val = KOption ->
        Register_Value ret st = (Ok current, ret', st') ->
        (Value_Kind current = KOption ->
         exists retOpts valOpts,
           current = VOption retOpts /\ val = VOption valOpts
           /\ emitted = (Ok tt, Register_Set (VOption (retOpts ++ valOpts)) ret', st')
           /\ Register_Value (Register_Set (VOption (retOpts ++ valOpts)) ret') st'
              = (Ok (VOption (retOpts ++ valOpts)),
                 {| held := VOption (retOpts ++ valOpts); deferred := [] |}, st'))
        /\ (Value_Kind current <> KOption ->
            emitted = (Ok tt, Register_Set val ret', st')
            /\ (isError current = false ->
                Register_Value (Register_Set val ret') st'
                = (Ok val, {| held := val; deferred := [] |}, st')))).
Proof.
  intros Hl Hn Hd emitted. subst emitted. rewrite EmitIdentExpr_S.
  unfold EmitIdentExpr_of, emitField. rewrite Hl, Hn, Hd. cbn [NewValue]. split.
  - intros Hk. apply String.eqb_neq in Hk. rewrite Hk. reflexivity.
  - intros current ret' st' Hk Hv. apply String.eqb_eq in Hk. rewrite Hk. cbn [negb].
    rewrite Hv. pose proof (Register_Value_flushed _ _ _ _ _ Hv) as ->. split.
    + intros Hc. apply String.eqb_eq in Hc. rewrite Hc. cbn [negb].
      apply Value_Kind_Option in Hk as [valOpts ->]. apply Value_Kind_Option in Hc as [retOpts ->].
      exists retOpts, valOpts. cbn [Value_Option]. do 3 (split; [reflexivity|]).
      now apply Register_Value_Set.
    + intros Hc. apply String.eqb_neq in Hc. rewrite Hc. cbn [negb]. split; [reflexivity|].
      intros He. now apply Register_Value_Set.
Qed.

(** *** The targets [Generate] goes through (claim C1) *)

(** The targets, from number [i] on, are all defined in the root scope of
    the module when their turn comes, and each evaluates to a request. *)
Inductive Generated (fuel : nat) (cg : CodeGen) (ctx : Ctx) (mod_ : Module)
  : nat -> list Target -> State -> list (Request T) -> State -> Prop :=
| Generated_nil (i : nat) (st : State) : Generated fuel cg ctx mod_ i [] st [] st
| Generated_cons (i : nat) (target : Target) (rest : list Target) (st st1 st2 : State)
    (request : Request T) (requests : list (Request T)) :
    targetDefined mod_ target st = Some true ->
    generateTarget H fuel cg ctx mod_ i target st = (Ok request, st1) ->
    Generated fuel cg ctx mod_ (S i) rest st1 requests st2 ->
    Generated fuel cg ctx mod_ i (target :: rest) st (request :: requests) st2.

Lemma Generated_length fuel cg ctx mod_ i targets st requests st' :
  Generated fuel cg ctx mod_ i targets st requests st' -> length requests = length targets.
Proof. induction 1; cbn; [reflexivity | now f_equal]. Qed.

Lemma generateFrom_Generated fuel cg ctx mod_ i pre st requests st1 :
  Generated fuel cg ctx mod_ i pre st requests st1 ->
  forall post gathered,
    generateFrom H fuel cg ctx mod_ i (pre ++ post) gathered st
    = generateFrom H fuel cg ctx mod_ (i + length pre) post (gathered ++ requests) st1.
Proof.
  induction 1 as [i st|i target rest st st1 st2 request requests Hd Hg _ IH]; intros post gathered.
  - cbn [app length]. now rewrite Nat.add_0_r, app_nil_r.
  - cbn [app generateFrom length]. rewrite Hd, Hg, IH.
    rewrite <- app_assoc. cbn [app]. now rewrite Nat.add_succ_r.
Qed.

Lemma generateFrom_Ok fuel cg ctx mod_ targets :
  forall i gathered st r st',
    generateFrom H fuel cg ctx mod_ i targets gathered st = (Ok r, st') ->
    exists requests,
      Generated fuel cg ctx mod_ i targets st requests st'
      /\ r = Parallel H (gathered ++ requests).
Proof.
  induction targets as [|target rest IH]; intros i gathered st r st'; cbn [generateFrom].
  - intros [= <- <-]. exists []. split; [constructor | now rewrite app_nil_r].
  - destruct (targetDefined mod_ target st) as [[]|] eqn:Hd; try discriminate.
    destruct (generateTarget H fuel cg ctx mod_ i target st) as [[request|e|a] st1] eqn:Hg;
      try discriminate.
    intros Hrest. apply IH in Hrest as (requests & HG & ->).
    exists (request :: requests). split; [econstructor; eassumption|].
    now rewrite <- app_assoc.
Qed.

(** *** Imports (claim C7) *)

(** The value of the import expression says where the module is: a
    filesystem is resolved by the host to a directory, in which the
    module file has the name [ModuleFilename]; a string is the path of the
    file in the directory of the importing module. *)
Inductive Located (cg : CodeGen) (ctx : Ctx) (mod_ : Module) (id : ImportDecl)
    (val : Value) (st : State) : Directory T -> string -> State -> Prop :=
| Located_filesystem (fs : Filesystem T) (dir : Directory T) (w : World T) :
    val = VFilesystem fs ->
    resolver cg ctx id fs (world st) = (Ok dir, w) ->
    Located cg ctx mod_ id val st dir (ModuleFilename H) {| scopes := scopes st; world := w |}
| Located_string (filename : string) (dir : Directory T) :
    val = VString filename ->
    Module_Directory mod_ = Some dir ->
    Located cg ctx mod_ id val st dir filename st.

(** The most specific node of an import that a missing path is reported
    on: the deprecated path if the import has one, else the type of a
    function literal, else the expression. *)
Definition importPathNode (id : ImportDecl) : Node :=
  match DeprecatedPath id with
  | Some path => NodeStringLit path
  | None =>
      match FuncLit_ (ImportDecl_Expr id) with
      | Some lit => NodeType (FuncLit_Type lit)
      | None => NodeExpr (ImportDecl_Expr id)
      end
  end.

(** C7. [EmitImport] evaluates the expression of the import; when the
    value is a filesystem, the module file is opened in the directory the
    resolver of the host returns, and when it is a string, that string is
    the path opened in the directory of the importing module; if opening
    reports that the file does not exist, [EmitImport] returns an
    [ImportPathNotExist] diagnostic attached to the most specific node
    available; on success the opened file is parsed and checked (semantic
    pass, then check) and the resulting module is returned. *)
Theorem import_evaluation (fuel : nat) (cg : CodeGen) (ctx : Ctx) (mod_ : Module)
    (id : ImportDecl) (st st1 st2 st3 : State) (ret1 ret2 : Register) (val : Value)
    (dir : Directory T) (filename : string) :
  let ctx0 := WithReturnType ctx KNone in
  EmitExpr H fuel cg ctx0 (Module_Scope mod_) (ImportDecl_Expr id) [] [] None NewRegister st
  = (Ok tt, ret1, st1) ->
  Register_Value ret1 st1 = (Ok val, ret2, st2) ->
  Located cg ctx0 mod_ id val st2 dir filename st3 ->
  (forall err w,
      Directory_Open H dir filename (world st3) = (Err err, w) ->
      IsNotExist err = true ->
      EmitImport H (S fuel) cg ctx mod_ id st
      = (Err (ImportPathNotExist err (importPathNode id) filename),
         {| scopes := scopes st3; world := w |}))
  /\ (forall rc w1 parsed w2 imod built w3 w4,
        Directory_Open H dir filename (world st3) = (Ok rc, w1) ->
        Parse H ctx0 rc w1 = (Ok parsed, w2) ->
        SemanticPass H (nextScope (scopes st3))
          {| Module_Filename := Module_Filename parsed; Module_Scope := Module_Scope parsed;
             Module_Directory := Some dir |} w2
        = (None, imod, built, w3) ->
        Check H (storeScopes (nextScope (scopes st3)) built (scopes st3)) imod
          (Lint H ctx0 imod w3) = (None, w4) ->
        EmitImport H (S fuel) cg ctx mod_ id st
        = (Ok (imod, filename),
           {| scopes := storeScopes (nextScope (scopes st3)) built (scopes st3);
              world := File_Close H rc w4 |})).
Proof.
  intros ctx0 He Hv Hloc. rewrite EmitImport_S. unfold EmitImport_of. fold ctx0.
  fold (EmitExpr H fuel). rewrite He, Hv.
  assert (Hlocated : locateImport H cg ctx0 mod_ id val st2 = (Ok (Some dir, filename), st3)).
  { unfold locateImport. destruct Hloc as [fs dir w -> Hr|filename dir -> Hd]; cbn.
    - now rewrite Hr.
    - now rewrite Hd. }
  rewrite Hlocated. unfold openImport. split.
  - intros err w Ho Hne. rewrite Ho, Hne. cbn [negb]. unfold importPathNode.
    destruct (DeprecatedPath id); [reflexivity|].
    destruct (FuncLit_ (ImportDecl_Expr id)); reflexivity.
  - intros rc w1 parsed w2 imod built w3 w4 Ho Hp Hs Hc.
    rewrite Ho, Hp. cbn [scopes world]. rewrite Hs, Hc. reflexivity.
Qed.

(** *** String literals (claim C6) *)

(** The pieces the fragments of a string literal contribute, in order: a
    text its text, an escaped dollar a dollar, another escape the
    character it decodes to, an interpolation the string its expression
    evaluates to (in a register of its own, forced). *)
Inductive Pieces (fuel : nat) (cg : CodeGen) (ctx : Ctx) (scope : nat)
  : list StringFragment -> State -> list string -> State -> Prop :=
| Pieces_nil (st : State) : Pieces fuel cg ctx scope [] st [] st
| Pieces_text (f : StringFragment) (rest : list StringFragment) (text : string)
    (st st' : State) (pieces : list string) :
    Escaped f = None -> Interpolated f = None -> Text_ f = Some text ->
    Pieces fuel cg ctx scope rest st pieces st' ->
    Pieces fuel cg ctx scope (f :: rest) st (text :: pieces) st'
| Pieces_dollar (f : StringFragment) (rest : list StringFragment) (escaped : string)
    (st st' : State) (pieces : list string) :
    Escaped f = Some escaped -> String.get 1 escaped = Some DOLLAR ->
    Pieces fuel cg ctx scope rest st pieces st' ->
    Pieces fuel cg ctx scope (f :: rest) st ("$" :: pieces) st'
| Pieces_escaped (f : StringFragment) (rest : list StringFragment) (escaped : string)
    (c : ascii) (value : N) (st st' : State) (pieces : list string) :
    Escaped f = Some escaped -> String.get 1 escaped = Some c -> c <> DOLLAR ->
    UnquoteChar escaped = Some value ->
    Pieces fuel cg ctx scope rest st pieces st' ->
    Pieces fuel cg ctx scope (f :: rest) st (runeString value :: pieces) st'
| Pieces_interpolated (f : StringFragment) (rest : list StringFragment) (expr : Expr)
    (ret1 ret2 : Register) (value : Value) (piece : string)
    (st st1 st2 st' : State) (pieces : list string) :
    Escaped f = None -> Interpolated f = Some expr ->
    EmitExpr H fuel cg ctx scope expr [] [] None NewRegister st = (Ok tt, ret1, st1) ->
    Register_Value ret1 st1 = (Ok value, ret2, st2) ->
    Value_String value = Ok piece ->
    Pieces fuel cg ctx scope rest st2 pieces st' ->
    Pieces fuel cg ctx scope (f :: rest) st (piece :: pieces) st'.

Lemma stringPieces_Pieces fuel cg ctx scope fragments st pieces st' :
  Pieces fuel cg ctx scope fragments st pieces st' ->
  forall gathered,
    stringPieces (evaluator H fuel) cg ctx scope fragments gathered st
    = (Ok (gathered ++ pieces)%list, st').
Proof.
  induction 1 as [st
                 |f rest text st st' pieces He Hi Ht _ IH
                 |f rest escaped st st' pieces He Hg _ IH
                 |f rest escaped c value st st' pieces He Hg Hc Hu _ IH
                 |f rest expr ret1 ret2 value piece st st1 st2 st' pieces He Hi Hx Hv Hs _ IH];
    intros gathered; cbn [stringPieces].
  - now rewrite app_nil_r.
  - rewrite He, Hi, Ht, IH, <- app_assoc. reflexivity.
  - rewrite He. unfold escapedPiece. rewrite Hg, Ascii.eqb_refl, IH, <- app_assoc. reflexivity.
  - rewrite He. unfold escapedPiece. rewrite Hg.
    apply Ascii.eqb_neq in Hc. rewrite Hc, Hu, IH, <- app_assoc. reflexivity.
  - rewrite He, Hi. unfold interpolatedPiece. fold (EmitExpr H fuel).
    rewrite Hx, Hv, Hs, IH, <- app_assoc. reflexivity.
Qed.

(** The literal is the join of the pieces of its fragments. *)
Lemma EmitStringLit_Pieces fuel cg ctx scope str ret st pieces st' :
  Pieces fuel cg ctx scope (StringLit_Fragments str) st pieces st' ->
  EmitStringLit H (S fuel) cg ctx scope str ret st
  = (Ok tt, Register_Set (VString (Join pieces "")) ret, st').
Proof.
  intros HP. rewrite EmitStringLit_S. unfold EmitStringLit_of.
  now rewrite (stringPieces_Pieces _ _ _ _ _ _ _ _ HP []).
Qed.

End WithHost.

(** The literals of scenario E4: [hello], a space and the interpolation
    of [x]; [price], a space, an escaped dollar and [5]. *)
Definition helloLit : StringLit :=
  mkStringLit
    [ mkStringFragment None None (Some "hello ");
      mkStringFragment None (Some (mkExpr None None (Some (mkCallExpr (NewIdentExpr "x") [] []))))
        None ].

Definition priceLit : StringLit :=
  mkStringLit
    [ mkStringFragment None None (Some "price ");
      mkStringFragment (Some "\$") None None;
      mkStringFragment None None (Some "5") ].



End CodeGenProperties.

(** ** Blocks *)

Module BlockProperties.
Import GoStrings Reflect ast CodeGen CodeGenProperties.

Section WithHost.

Context {T : HostTypes} (H : @Host T).

(** *** Emitting defers, and does not look at the register *)

(** The register [ret] with the closures [q] deferred after its own. *)
Definition pushes (q : list Async) (ret : Register) : Register :=
  {| held := held ret; deferred := deferred ret ++ q |}.

Lemma pushes_nil (ret : Register) : pushes [] ret = ret.
Proof. unfold pushes. rewrite app_nil_r. now destruct ret. Qed.

Lemma pushes_app (q1 q2 : list Async) (ret : Register) :
  pushes q2 (pushes q1 ret) = pushes (q1 ++ q2) ret.
Proof. unfold pushes. cbn. now rewrite app_assoc. Qed.

Lemma SetAsync_pushes (f : Async) (ret : Register) : Register_SetAsync f ret = pushes [f] ret.
Proof. reflexivity. Qed.

Lemma Set_pushes (v : Value) (ret : Register) :
  Register_Set v ret = pushes [fun _ st => (Ok v, st)] ret.
Proof. reflexivity. Qed.

(** [emit] does the same whatever the register it is given, to which it
    only adds closures. *)
Definition appends (emit : Register -> State -> Emitted) : Prop :=
  forall st, exists r q st', forall ret, emit ret st = (r, pushes q ret, st').

Lemma appends_fail (r : Res unit) : appends (fun ret st => (r, ret, st)).
Proof. intros st. exists r, [], st. intros ret. now rewrite pushes_nil. Qed.

(** The functions that emit an expression or a block into the register
    of their caller. *)
Record appending (rec : Evaluator) : Prop := {
  appending_Expr : forall cg ctx scope expr args opts b,
      appends (rEmitExpr rec cg ctx scope expr args opts b);
  appending_FuncLit : forall cg ctx scope lit b, appends (rEmitFuncLit rec cg ctx scope lit b);
  appending_BasicLit : forall cg ctx scope lit, appends (rEmitBasicLit rec cg ctx scope lit);
  appending_StringLit : forall cg ctx scope str, appends (rEmitStringLit rec cg ctx scope str);
  appending_Heredoc : forall cg ctx scope heredoc, appends (rEmitHeredoc rec cg ctx scope heredoc);
  appending_Block : forall cg ctx scope block b, appends (rEmitBlock rec cg ctx scope block b)
}.

Lemma appending_exhausted : appending exhausted.
Proof. split; intros; apply appends_fail. Qed.

Lemma emitStmt_appends (rec : Evaluator) cg ctx scope b stmt :
  appending rec -> appends (emitStmt rec cg ctx scope b stmt).
Proof.
  intros Hrec st. unfold emitStmt.
  destruct (Call_ stmt) as [call|].
  - eexists _, [_], st. intros ret. reflexivity.
  - destruct (ExprStmt_ stmt) as [expr|].
    + apply (appending_Expr _ Hrec).
    + eexists _, [], st. intros ret. now rewrite pushes_nil.
Qed.

Lemma emitStmts_appends (rec : Evaluator) cg ctx scope b stmts :
  appending rec -> appends (emitStmts rec cg ctx scope b stmts).
Proof.
  intros Hrec. induction stmts as [|stmt rest IH]; intros st; cbn [emitStmts].
  - exists (Ok tt), [], st. intros ret. now rewrite pushes_nil.
  - destruct (emitStmt_appends rec cg ctx scope b stmt Hrec st) as (r1 & q1 & st1 & E1).
    destruct r1 as [u|e|a].
    + destruct (IH st1) as (r & q & st' & E). exists r, (q1 ++ q)%list, st'.
      intros ret. now rewrite E1, E, pushes_app.
    + exists (Err e), q1, st1. intros ret. now rewrite E1.
    + exists (Abort a), q1, st1. intros ret. now rewrite E1.
Qed.

Lemma appending_callees (rec : Evaluator) : appending rec -> appending (callees H rec).
Proof.
  intros Hrec. split; cbn [callees rEmitExpr rEmitFuncLit rEmitBasicLit rEmitStringLit
                            rEmitHeredoc rEmitBlock].
  - intros cg ctx scope expr args opts b st. unfold EmitExpr_of.
    destruct (FuncLit_ expr) as [lit|]; [apply (appending_FuncLit _ Hrec)|].
    destruct (BasicLit_ expr) as [lit|]; [apply (appending_BasicLit _ Hrec)|].
    destruct (CallExpr_ expr) as [call|].
    + eexists _, [_], st. intros ret. reflexivity.
    + eexists _, [], st. intros ret. now rewrite pushes_nil.
  - intros cg ctx scope lit b. unfold EmitFuncLit_of. apply (appending_Block _ Hrec).
  - intros cg ctx scope lit st. unfold EmitBasicLit_of.
    destruct (Decimal lit); [eexists _, [_], st; intros ret; reflexivity|].
    destruct (Numeric lit); [eexists _, [_], st; intros ret; reflexivity|].
    destruct (Bool_ lit); [eexists _, [_], st; intros ret; reflexivity|].
    destruct (Str lit); [apply (appending_StringLit _ Hrec)|].
    destruct (RawString lit); [eexists _, [_], st; intros ret; reflexivity|].
    destruct (Heredoc_ lit); [apply (appending_Heredoc _ Hrec)|].
    destruct (RawHeredoc_ lit); [eexists _, [_], st; intros ret; reflexivity|].
    eexists _, [], st. intros ret. now rewrite pushes_nil.
  - intros cg ctx scope str st. unfold EmitStringLit_of.
    destruct (stringPieces rec cg ctx scope (StringLit_Fragments str) [] st) as [[pieces|e|a] st'].
    + eexists _, [_], st'. intros ret. reflexivity.
    + eexists _, [], st'. intros ret. now rewrite pushes_nil.
    + eexists _, [], st'. intros ret. now rewrite pushes_nil.
  - intros cg ctx scope heredoc st. unfold EmitHeredoc_of.
    destruct (heredocPieces rec cg ctx scope (Heredoc_Fragments heredoc) [] st) as [[pieces|e|a] st'].
    + eexists _, [_], st'. intros ret. reflexivity.
    + eexists _, [], st'. intros ret. now rewrite pushes_nil.
    + eexists _, [], st'. intros ret. now rewrite pushes_nil.
  - intros cg ctx scope block b. unfold EmitBlock_of. destruct block as [block|].
    + now apply emitStmts_appends.
    + apply appends_fail.
Qed.

Lemma appending_evaluator (fuel : nat) : appending (evaluator H fuel).
Proof.
  induction fuel as [|fuel IH]; [apply appending_exhausted | now apply appending_callees].
Qed.

(** *** The statements of a block (claim C2) *)

(** What the statements of a block defer, one list of closures for each
    statement, in the order of the statements: a call statement defers
    the one closure of [EmitBlock], an expression statement what
    [EmitExpr] defers for its expression, whatever the register. *)
Inductive Emits (fuel : nat) (cg : CodeGen) (ctx : Ctx) (scope : nat) (b : option Binding)
  : list Stmt -> State -> list (list Async) -> State -> Prop :=
| Emits_nil (st : State) : Emits fuel cg ctx scope b [] st [] st
| Emits_call (stmt : Stmt) (call : CallStmt) (rest : list Stmt) (st st' : State)
    (steps : list (list Async)) :
    Call_ stmt = Some call ->
    Emits fuel cg ctx scope b rest st steps st' ->
    Emits fuel cg ctx scope b (stmt :: rest) st
      ([callStmtAsync (evaluator H fuel) cg ctx scope call b] :: steps) st'
| Emits_expr (stmt : Stmt) (expr : Expr) (rest : list Stmt) (st st1 st' : State)
    (q : list Async) (steps : list (list Async)) :
    Call_ stmt = None ->
    ExprStmt_ stmt = Some expr ->
    (forall ret, EmitExpr H fuel cg ctx scope expr [] [] b ret st = (Ok tt, pushes q ret, st1)) ->
    Emits fuel cg ctx scope b rest st1 steps st' ->
    Emits fuel cg ctx scope b (stmt :: rest) st (q :: steps) st'.

Lemma Emits_length fuel cg ctx scope b stmts st steps st' :
  Emits fuel cg ctx scope b stmts st steps st' -> length steps = length stmts.
Proof. induction 1; cbn; congruence. Qed.

(** Forcing step after step: each step is forced from the value, and in
    the state, that the step before it left. *)
Inductive Chained : list (list Async) -> Value -> State -> Value -> State -> Prop :=
| Chained_nil (v : Value) (st : State) : Chained [] v st v st
| Chained_cons (q : list Async) (steps : list (list Async)) (v v1 v' : Value)
    (st st1 st' : State) :
    force q v st = (Ok v1, st1) ->
    Chained steps v1 st1 v' st' ->
    Chained (q :: steps) v st v' st'.

Lemma force_Ok_app (q1 q2 : list Async) (v v' : Value) (st st' : State) :
  force (q1 ++ q2) v st = (Ok v', st')
  <-> exists v1 st1, force q1 v st = (Ok v1, st1) /\ force q2 v1 st1 = (Ok v', st').
Proof.
  rewrite force_app. destruct (force q1 v st) as [[v1|e|a] st1] eqn:E.
  - split; [eauto|]. now intros (v2 & st2 & [= <- <-] & E2).
  - split; [discriminate|]. now intros (v2 & st2 & [=] & _).
  - split; [discriminate|]. now intros (v2 & st2 & [=] & _).
Qed.

Lemma force_concat (steps : list (list Async)) (v v' : Value) (st st' : State) :
  force (concat steps) v st = (Ok v', st') <-> Chained steps v st v' st'.
Proof.
  revert v st. induction steps as [|q steps IH]; intros v st; cbn [concat].
  - cbn [force]. split.
    + intros [= <- <-]. constructor.
    + intros HC. inversion HC; subst. reflexivity.
  - rewrite force_Ok_app. split.
    + intros (v1 & st1 & E1 & E2). econstructor; [exact E1 | now apply IH].
    + intros HC. inversion HC; subst. eexists _, _. split; [eassumption | now apply IH].
Qed.

Lemma emitStmts_Emits fuel cg ctx scope b stmts :
  forall ret st ret' st',
    emitStmts (evaluator H fuel) cg ctx scope b stmts ret st = (Ok tt, ret', st') ->
    exists steps,
      Emits fuel cg ctx scope b stmts st steps st' /\ ret' = pushes (concat steps) ret.
Proof.
  induction stmts as [|stmt rest IH]; intros ret st ret' st'; cbn [emitStmts].
  - intros [= <- <-]. exists []. split; [constructor | now rewrite pushes_nil].
  - unfold emitStmt. destruct (Call_ stmt) as [call|] eqn:Ec.
    + intros E. apply IH in E as (steps & HE & ->). eexists (_ :: steps). split.
      * eapply Emits_call; eassumption.
      * rewrite SetAsync_pushes, pushes_app. reflexivity.
    + destruct (ExprStmt_ stmt) as [expr|] eqn:Ee; [|discriminate].
      destruct (appending_Expr _ (appending_evaluator fuel) cg ctx scope expr [] [] b st)
        as (r1 & q1 & st1 & E1).
      rewrite (E1 ret). destruct r1 as [[]|e|a]; try discriminate.
      intros E. apply IH in E as (steps & HE & ->). exists (q1 :: steps). split.
      * eapply Emits_expr; eauto.
      * now rewrite pushes_app.
Qed.

(** A block of call statements only is emitted without evaluating
    anything. *)
Lemma emitStmts_calls (rec : Evaluator) cg ctx scope b stmts calls ret st :
  map Call_ stmts = map Some calls ->
  emitStmts rec cg ctx scope b stmts ret st
  = (Ok tt, pushes (map (fun call => callStmtAsync rec cg ctx scope call b) calls) ret, st).
Proof.
  revert calls ret. induction stmts as [|stmt rest IH]; intros [|call calls] ret; cbn; try discriminate.
  - intros _. now rewrite pushes_nil.
  - intros [= Ec Er]. unfold emitStmt. rewrite Ec, (IH calls _ Er), SetAsync_pushes, pushes_app.
    reflexivity.
Qed.


End WithHost.

End BlockProperties.

(** ** The modules of imports *)

Module ImportProperties.
Import GoStrings Reflect ast CodeGen CodeGenProperties.

Section WithHost.

Context {T : HostTypes} (H : @Host T).

(** *** The objects of the scopes *)

(** The scope at address [h] holds the object [obj] under [name]. *)
Definition holds (st : State) (h : nat) (name : string) (obj : Object) : Prop :=
  exists sc, scopes st !! h = Some sc /\ Objects sc !! name = Some obj.

(** Every object is there afterwards, under its name and for the same
    node, and an object that held a module is there as it was. *)
Definition preserved (st st' : State) : Prop :=
  forall h name obj,
    holds st h name obj ->
    exists obj',
      holds st' h name obj'
      /\ Object_Node obj' = Object_Node obj
      /\ (forall m, Object_Data obj = DModule m -> obj' = obj).

(** A fully checked module: one the semantic pass and the checker have
    accepted. *)
Definition Checked (m : Module) : Prop :=
  exists base parsed w built w1 store w2 w3,
    SemanticPass H base parsed w = (None, m, built, w1)
    /\ Check H store m w2 = (None, w3).

(** The data of every import of the scope is absent or a fully checked
    module. *)
Definition importsChecked (sc : Scope) : Prop :=
  forall name obj n,
    Objects sc !! name = Some obj ->
    Object_Node obj = NodeImportDecl n ->
    Object_Data obj = DNil \/ exists m, Object_Data obj = DModule m /\ Checked m.

Definition ImportsChecked (st : State) : Prop :=
  forall h sc, scopes st !! h = Some sc -> importsChecked sc.

(** What is assumed of the checker, which builds the scopes of a module:
    it leaves the data of the imports absent (or checked). *)
Definition CheckerBuildsImports : Prop :=
  forall base parsed w e m built w',
    SemanticPass H base parsed w = (e, m, built, w') -> Forall importsChecked built.

(** From [st] to [st']: no object that held a module was touched, and
    the data of the imports stayed absent or checked. *)
Definition kept (st st' : State) : Prop :=
  preserved st st' /\ (CheckerBuildsImports -> ImportsChecked st -> ImportsChecked st').

Lemma kept_refl (st : State) : kept st st.
Proof. split; [intros h name obj Hh; exists obj; auto | auto]. Qed.

Lemma kept_trans (st1 st2 st3 : State) : kept st1 st2 -> kept st2 st3 -> kept st1 st3.
Proof.
  intros [P1 I1] [P2 I2]. split.
  - intros h name obj Hh.
    destruct (P1 h name obj Hh) as (obj1 & Hh1 & Hn1 & Hd1).
    destruct (P2 h name obj1 Hh1) as (obj2 & Hh2 & Hn2 & Hd2).
    exists obj2. split; [exact Hh2|]. split; [congruence|].
    intros m Hm. specialize (Hd1 m Hm). subst obj1. eauto.
  - auto.
Qed.

Lemma kept_scopes (st st' : State) : scopes st' = scopes st -> kept st st'.
Proof.
  intros E. split.
  - intros h name obj (sc & Hs & Ho). exists obj. split; [|auto]. exists sc. now rewrite E.
  - intros _ HI h sc Hs. rewrite E in Hs. eauto.
Qed.

Lemma kept_world (st : State) (w : World T) : kept st {| scopes := scopes st; world := w |}.
Proof. now apply kept_scopes. Qed.

(** *** Fresh addresses *)

Lemma nextScope_above (m : gmap nat Scope) (k : nat) :
  is_Some (m !! k) -> k < nextScope m.
Proof.
  unfold nextScope. revert k.
  apply (map_fold_weak_ind (fun r m => forall k, is_Some (m !! k) -> k < r)).
  - intros k [x Hx]. now rewrite lookup_empty in Hx.
  - intros i x m' r Hi IH k [y Hy]. destruct (decide (i = k)) as [->|Hne].
    + lia.
    + rewrite lookup_insert_ne in Hy by exact Hne. specialize (IH k (ex_intro _ y Hy)). lia.
Qed.

Lemma nextScope_fresh (m : gmap nat Scope) : m !! nextScope m = None.
Proof.
  destruct (m !! nextScope m) eqn:E; [|reflexivity].
  pose proof (nextScope_above m (nextScope m) (ex_intro _ _ E)). lia.
Qed.

Lemma storeScopes_below (built : list Scope) (base : nat) (m : gmap nat Scope) (k : nat) :
  k < base -> storeScopes base built m !! k = m !! k.
Proof.
  revert base m. induction built as [|sc rest IH]; intros base m Hk; cbn [storeScopes].
  - reflexivity.
  - rewrite IH by lia. apply lookup_insert_ne. lia.
Qed.

Lemma storeScopes_lookup (built : list Scope) (base : nat) (m : gmap nat Scope) (k : nat)
    (sc : Scope) :
  storeScopes base built m !! k = Some sc -> m !! k = Some sc \/ sc ∈ built.
Proof.
  revert base m. induction built as [|sc' rest IH]; intros base m; cbn [storeScopes].
  - auto.
  - intros E. apply IH in E as [E|E].
    + apply lookup_insert_Some in E as [[_ <-]|[_ E]]; [right; left | now left].
    + right. now right.
Qed.

Lemma kept_storeScopes (st : State) (parsed : Module) (w : World T) (e : option error)
    (m : Module) (built : list Scope) (w1 w' : World T) :
  SemanticPass H (nextScope (scopes st)) parsed w = (e, m, built, w1) ->
  kept st {| scopes := storeScopes (nextScope (scopes st)) built (scopes st); world := w' |}.
Proof.
  intros Hs. split.
  - intros h name obj (sc & Hsc & Ho). exists obj. split; [|auto].
    exists sc. split; [|exact Ho]. cbn [scopes].
    rewrite storeScopes_below; [exact Hsc|]. apply nextScope_above. eauto.
  - intros Hc HI h sc Hsc. cbn [scopes] in Hsc. apply storeScopes_lookup in Hsc as [Hsc|Hin].
    + eauto.
    + apply Hc in Hs. rewrite Forall_forall in Hs. auto.
Qed.

(** *** The writes of the generator *)

Lemma Lookup_from_holds (fuel : nat) (st : State) (scope : nat) (name : string)
    (holder : nat) (obj : Object) :
  Lookup_from fuel (scopes st) scope name = Some (holder, obj) -> holds st holder name obj.
Proof.
  revert scope. induction fuel as [|fuel IH]; intros scope; cbn [Lookup_from]; [discriminate|].
  destruct (scopes st !! scope) as [sc|] eqn:Es; [|discriminate].
  destruct (Objects sc !! name) as [o|] eqn:Eo.
  - intros [= <- <-]. now exists sc.
  - destruct (Parent sc) as [p|]; [apply IH | discriminate].
Qed.

Lemma Lookup_holds (st : State) (scope : nat) (name : string) (holder : nat) (obj : Object) :
  Lookup st scope name = Some (holder, obj) -> holds st holder name obj.
Proof. apply Lookup_from_holds. Qed.

Lemma holds_functional (st : State) (h : nat) (name : string) (obj obj' : Object) :
  holds st h name obj -> holds st h name obj' -> obj = obj'.
Proof. intros (sc & Hs & Ho) (sc' & Hs' & Ho'). congruence. Qed.

(** No object of the scope at [id] is an import. *)
Definition plain (st : State) (id : nat) : Prop :=
  forall name obj n, holds st id name obj -> Object_Node obj <> NodeImportDecl n.

Lemma Insert_outside (id : nat) (obj : Object) (st : State) (h : nat) :
  h <> id -> scopes (Insert id obj st) !! h = scopes st !! h.
Proof. intros Hne. cbn. now rewrite lookup_alter_ne. Qed.

Lemma Insert_plain (id : nat) (obj : Object) (st : State) :
  plain st id -> (forall n, Object_Node obj <> NodeImportDecl n) -> plain (Insert id obj st) id.
Proof.
  intros Hp Hn name o n (sc & Hs & Ho). cbn in Hs. rewrite lookup_alter_eq in Hs.
  destruct (scopes st !! id) as [sc0|] eqn:Es; [|discriminate].
  injection Hs as <-. cbn in Ho. apply lookup_insert_Some in Ho as [[_ <-]|[_ Ho]].
  - apply Hn.
  - apply (Hp name o). now exists sc0.
Qed.

Lemma insertParams_outside (id : nat) (params : list Field) (args : list Value) (st : State)
    (h : nat) :
  h <> id -> scopes (insertParams id params args st) !! h = scopes st !! h.
Proof.
  intros Hne. revert args st. induction params as [|param params IH]; intros [|arg args] st;
    cbn [insertParams]; try reflexivity.
  rewrite IH. destruct (Modifier param); [reflexivity | now apply Insert_outside].
Qed.

Lemma insertParams_plain (id : nat) (params : list Field) (args : list Value) (st : State) :
  plain st id -> plain (insertParams id params args st) id.
Proof.
  revert args st. induction params as [|param params IH]; intros [|arg args] st Hp;
    cbn [insertParams]; try exact Hp.
  apply IH. destruct (Modifier param); [exact Hp|]. apply Insert_plain; [exact Hp|]. discriminate.
Qed.

(** The new scope of a call, with the arguments entered in it. *)
Lemma kept_NewScope (node : Node) (parent : nat) (params : list Field) (args : list Value)
    (st : State) :
  kept st (insertParams (fst (NewScope node parent st)) params args (snd (NewScope node parent st))).
Proof.
  unfold NewScope. cbn [fst snd]. set (id := nextScope (scopes st)).
  assert (Hout : forall h sc, scopes st !! h = Some sc -> h <> id).
  { intros h sc Hs ->. unfold id in Hs. now rewrite nextScope_fresh in Hs. }
  split.
  - intros h name obj (sc & Hs & Ho). exists obj. split; [|auto]. exists sc. split; [|exact Ho].
    rewrite insertParams_outside by exact (Hout h sc Hs). cbn.
    rewrite lookup_insert_ne; [exact Hs|].
    intros E. symmetry in E. exact (Hout h sc Hs E).
  - intros _ HI h sc Hs. destruct (decide (h = id)) as [->|Hne].
    + intros name obj n Ho Hn. exfalso.
      refine (insertParams_plain id params args _ _ name obj n (ex_intro _ sc (conj Hs Ho)) Hn).
      intros name' obj' n' (sc' & Hs' & Ho'). cbn in Hs'. rewrite lookup_insert_eq in Hs'.
      injection Hs' as <-. cbn in Ho'. now rewrite lookup_empty in Ho'.
    + rewrite insertParams_outside in Hs by exact Hne. cbn in Hs.
      rewrite lookup_insert_ne in Hs by (intros E; now apply Hne). eauto.
Qed.

(** Installing a checked module on an object that held none. *)
Lemma kept_install (st st1 : State) (holder : nat) (name : string) (obj : Object) (m : Module) :
  holds st holder name obj ->
  (forall m', Object_Data obj <> DModule m') ->
  kept st st1 ->
  Checked m ->
  kept st (setData holder name (DModule m) st1).
Proof.
  intros Hh Hd [P1 I1] Hm. split.
  - intros h n o Ho. destruct (P1 h n o Ho) as (o1 & (sc1 & Hs1 & Ho1) & Hn1 & Hd1).
    unfold holds, setData. cbn [scopes]. destruct (decide (holder = h)) as [->|Hh'].
    + rewrite lookup_alter_eq, Hs1. cbn. destruct (decide (name = n)) as [->|Hn'].
      * eexists. split; [eexists; split; [reflexivity|]; cbn; rewrite lookup_alter_eq, Ho1;
                         reflexivity|].
        split; [exact Hn1|]. intros m' Hm'.
        rewrite (holds_functional _ _ _ _ _ Ho Hh) in Hm'. now apply Hd in Hm'.
      * exists o1. split; [|auto]. eexists. split; [reflexivity|]. cbn.
        now rewrite lookup_alter_ne.
    + exists o1. split; [|auto]. exists sc1. now rewrite lookup_alter_ne.
  - intros Hc HI h sc. unfold setData. cbn [scopes].
    specialize (I1 Hc HI). destruct (decide (holder = h)) as [->|Hh'].
    + rewrite lookup_alter_eq. destruct (scopes st1 !! h) as [sc1|] eqn:Es1; [|discriminate].
      intros [= <-] n o nd. cbn. destruct (decide (name = n)) as [->|Hn].
      * rewrite lookup_alter_eq. destruct (Objects sc1 !! n); [|discriminate].
        intros [= <-] _. right. exists m. now split.
      * rewrite lookup_alter_ne by exact Hn. eapply I1; eauto.
    + rewrite lookup_alter_ne by exact Hh'. apply I1.
Qed.

Lemma Debug_scopes (cg : CodeGen) (ctx : Ctx) (scope : nat) (node : Node)
    (opts : list OptionItem) (st : State) (r : Res unit) (st' : State) :
  Debug cg ctx scope node opts st = (r, st') -> scopes st' = scopes st.
Proof.
  unfold Debug. destruct (Debug_ cg ctx scope node opts (world st)) as [[e|] w];
    intros [= <- <-]; reflexivity.
Qed.

Lemma EmitBuiltinDecl_scopes (cg : CodeGen) (ctx : Ctx) (scope : nat) (bd : BuiltinDecl)
    (args : list Value) (opts : list OptionItem) (b : option Binding) (v : Value)
    (st : State) (r : Res Value) (st' : State) :
  EmitBuiltinDecl H cg ctx scope bd args opts b v st = (r, st') -> scopes st' = scopes st.
Proof.
  destruct (EmitBuiltinDecl_cases H cg ctx scope bd args opts b v st)
    as [(c & ins & _ & ->)|(r' & _ & -> & _)].
  - destruct (Method_Call c _ _ _ _ _ _) as [[[out|] [err|]] w]; cbn;
      intros [= <- <-]; reflexivity.
  - intros [= <- <-]. reflexivity.
Qed.

Lemma locateImport_scopes (cg : CodeGen) (ctx : Ctx) (mod_ : Module) (id : ImportDecl)
    (val : Value) (st : State) r (st' : State) :
  locateImport H cg ctx mod_ id val st = (r, st') -> scopes st' = scopes st.
Proof.
  unfold locateImport. destruct (String.eqb (Value_Kind val) KFilesystem).
  - destruct (Value_Filesystem val) as [fs|e|a]; try (intros [= <- <-]; reflexivity).
    destruct (resolver cg ctx id fs (world st)) as [[dir|e|a] w]; intros [= <- <-]; reflexivity.
  - destruct (String.eqb (Value_Kind val) KString).
    + destruct (Value_String val); intros [= <- <-]; reflexivity.
    + intros [= <- <-]. reflexivity.
Qed.

Lemma openImport_kept (ctx : Ctx) (id : ImportDecl) (dir : Directory T) (filename : string)
    (st : State) r (st' : State) :
  openImport H ctx id dir filename st = (r, st') ->
  kept st st' /\ (forall m fn, r = Ok (m, fn) -> Checked m).
Proof.
  unfold openImport.
  destruct (Directory_Open H dir filename (world st)) as [[rc|err|a] w].
  - destruct (Parse H ctx rc w) as [[parsed|e|a] w1].
    + destruct (SemanticPass H _ _ w1) as [[[[e|] m] built] w2] eqn:Es.
      * intros [= <- <-]. split; [apply kept_world | discriminate].
      * destruct (Check H _ m _) as [[e|] w3] eqn:Ec; intros [= <- <-].
        -- split; [|discriminate]. eapply (kept_storeScopes st); exact Es.
        -- split; [eapply (kept_storeScopes st); exact Es|].
           intros m' fn [= <- _]. unfold Checked. eauto 12.
    + intros [= <- <-]. split; [apply kept_world | discriminate].
    + intros [= <- <-]. split; [apply kept_world | discriminate].
  - destruct (negb (IsNotExist err)); [intros [= <- <-]; split; [apply kept_world | discriminate]|].
    destruct (DeprecatedPath id); [intros [= <- <-]; split; [apply kept_world | discriminate]|].
    destruct (FuncLit_ (ImportDecl_Expr id)); intros [= <- <-];
      (split; [apply kept_world | discriminate]).
  - intros [= <- <-]. split; [apply kept_world | discriminate].
Qed.

(** *** Registers whose closures keep the modules *)

Definition goodAsync (f : Async) : Prop :=
  forall v st r st', f v st = (r, st') -> kept st st'.

Definition goodReg (ret : Register) : Prop := Forall goodAsync (deferred ret).

Lemma goodReg_New : goodReg NewRegister.
Proof. constructor. Qed.

Lemma goodReg_SetAsync (f : Async) (ret : Register) :
  goodAsync f -> goodReg ret -> goodReg (Register_SetAsync f ret).
Proof. intros Hf Hr. apply Forall_app. split; [exact Hr | now constructor]. Qed.

Lemma goodReg_Set (v : Value) (ret : Register) : goodReg ret -> goodReg (Register_Set v ret).
Proof.
  apply goodReg_SetAsync. intros v0 st r st' [= <- <-]. apply kept_refl.
Qed.

Lemma force_kept (q : list Async) (v : Value) (st : State) r (st' : State) :
  Forall goodAsync q -> force q v st = (r, st') -> kept st st'.
Proof.
  intros Hq. revert v st. induction Hq as [|f q Hf _ IH]; intros v st; cbn [force].
  - intros [= <- <-]. apply kept_refl.
  - destruct (isError v); [intros [= <- <-]; apply kept_refl|].
    destruct (f v st) as [[v1|e|a] st1] eqn:Ef; apply Hf in Ef.
    + intros E. apply IH in E. eapply kept_trans; eauto.
    + now intros [= <- <-].
    + now intros [= <- <-].
Qed.

Lemma Register_Value_kept (ret : Register) (st : State) r (ret' : Register) (st' : State) :
  goodReg ret -> Register_Value ret st = (r, ret', st') -> kept st st' /\ goodReg ret'.
Proof.
  intros Hg. unfold Register_Value.
  destruct (force (deferred ret) (held ret) st) as [[v|e|a] st1] eqn:E;
    apply (force_kept _ _ _ _ _ Hg) in E; intros [= <- <- <-]; split; auto. constructor.
Qed.

(** A function that emits into a register, and one that does not. *)
Definition emits (emit : Register -> State -> Emitted) : Prop :=
  forall ret st r ret' st',
    goodReg ret -> emit ret st = (r, ret', st') -> kept st st' /\ goodReg ret'.

Definition runs {A : Type} (f : State -> Res A * State) : Prop :=
  forall st r st', f st = (r, st') -> kept st st'.

Record sound (rec : Evaluator) : Prop := {
  sound_Expr : forall cg ctx scope expr args opts b,
      emits (rEmitExpr rec cg ctx scope expr args opts b);
  sound_FuncLit : forall cg ctx scope lit b, emits (rEmitFuncLit rec cg ctx scope lit b);
  sound_BasicLit : forall cg ctx scope lit, emits (rEmitBasicLit rec cg ctx scope lit);
  sound_StringLit : forall cg ctx scope str, emits (rEmitStringLit rec cg ctx scope str);
  sound_Heredoc : forall cg ctx scope heredoc, emits (rEmitHeredoc rec cg ctx scope heredoc);
  sound_CallExpr : forall cg ctx scope call, emits (rEmitCallExpr rec cg ctx scope call);
  sound_IdentExpr : forall cg ctx scope ie lookup args opts b,
      emits (rEmitIdentExpr rec cg ctx scope ie lookup args opts b);
  sound_Import : forall cg ctx mod_ id, runs (rEmitImport rec cg ctx mod_ id);
  sound_Import_Checked : forall cg ctx mod_ id st m fn st',
      rEmitImport rec cg ctx mod_ id st = (Ok (m, fn), st') -> Checked m;
  sound_FuncDecl : forall cg ctx fun_ args b, emits (rEmitFuncDecl rec cg ctx fun_ args b);
  sound_Binding : forall cg ctx b args, emits (rEmitBinding rec cg ctx b args);
  sound_lookupCall : forall cg ctx scope lookup, runs (rlookupCall rec cg ctx scope lookup);
  sound_Block : forall cg ctx scope block b, emits (rEmitBlock rec cg ctx scope block b);
  sound_CallStmt : forall cg ctx scope call b, emits (rEmitCallStmt rec cg ctx scope call b);
  sound_Evaluate : forall cg ctx scope b kinds exprs,
      runs (rEvaluate rec cg ctx scope b kinds exprs)
}.

Lemma sound_exhausted : sound exhausted.
Proof.
  split; cbn; try (intros; intros ret st r ret' st' Hg [= <- <- <-]; split;
                   [apply kept_refl | exact Hg]);
    try (intros; intros st r st' [= <- <-]; apply kept_refl).
  discriminate.
Qed.

(** A chain of steps that keep the modules keeps them. *)
Ltac chain :=
  lazymatch goal with
  | |- kept ?a ?a => apply kept_refl
  | |- _ =>
      first [ eassumption
            | multimatch goal with
              | Hk : kept ?a ?b |- kept ?a _ => apply (kept_trans a b); [exact Hk | chain]
              end ]
  end.

(** An error or a panic returns at once. *)
Ltac returned :=
  first [ intros [= <- <- <-]; split; [chain | first [assumption | constructor]]
        | intros [= <- <-]; chain ].

Section Callees.

Variable rec : Evaluator.
Hypothesis Hrec : sound rec.

Lemma returnValue_kept (r : Res unit) (ret : Register) (st0 st : State) r' (st' : State) :
  kept st0 st -> goodReg ret -> returnValue (r, ret, st) = (r', st') -> kept st0 st'.
Proof.
  intros Hk Hg. unfold returnValue.
  destruct (Register_Value ret st) as [[rv ret1] st1] eqn:Ev.
  apply (Register_Value_kept _ _ _ _ _ Hg) in Ev as [Hk1 _].
  destruct r as [u|e|a]; destruct rv as [v|e'|a']; intros [= <- <-]; chain.
Qed.

Lemma callExprAsync_good cg ctx scope call : goodAsync (callExprAsync rec cg ctx scope call).
Proof.
  intros v st r st'. unfold callExprAsync.
  destruct (rlookupCall rec cg ctx scope _ st) as [[u|e|a] st1] eqn:El;
    apply (sound_lookupCall _ Hrec) in El; try returned.
  destruct (rEmitCallExpr rec cg ctx scope call _ st1) as [[r1 ret1] st2] eqn:Ee.
  apply (sound_CallExpr _ Hrec) in Ee as [Hk Hg]; [|apply goodReg_Set, goodReg_New].
  intros E. eapply returnValue_kept in E; [exact E | chain | exact Hg].
Qed.

Lemma callStmtAsync_good cg ctx scope call b : goodAsync (callStmtAsync rec cg ctx scope call b).
Proof.
  intros v st r st'. unfold callStmtAsync.
  destruct (rlookupCall rec cg ctx scope _ st) as [[u|e|a] st1] eqn:El;
    apply (sound_lookupCall _ Hrec) in El; try returned.
  destruct (rEmitCallStmt rec cg ctx scope call b _ st1) as [[r1 ret1] st2] eqn:Ee.
  apply (sound_CallStmt _ Hrec) in Ee as [Hk Hg]; [|apply goodReg_Set, goodReg_New].
  intros E. eapply returnValue_kept in E; [exact E | chain | exact Hg].
Qed.

Lemma builtinAsync_good cg ctx scope n args opts b :
  goodAsync (builtinAsync H cg ctx scope n args opts b).
Proof.
  intros v st r st' E. apply EmitBuiltinDecl_scopes in E. now apply kept_scopes.
Qed.

Lemma interpolatedPiece_runs cg ctx scope expr : runs (interpolatedPiece rec cg ctx scope expr).
Proof.
  intros st r st'. unfold interpolatedPiece.
  destruct (rEmitExpr rec cg ctx scope expr [] [] None NewRegister st) as [[r1 ret1] st1] eqn:Ee.
  apply (sound_Expr _ Hrec) in Ee as [Hk Hg]; [|apply goodReg_New].
  destruct r1 as [u|e|a]; try returned.
  destruct (Register_Value ret1 st1) as [[rv ret2] st2] eqn:Ev.
  apply (Register_Value_kept _ _ _ _ _ Hg) in Ev as [Hk1 _].
  destruct rv as [value|e|a]; try returned.
  destruct (Value_String value); returned.
Qed.

Lemma stringPieces_runs cg ctx scope fragments pieces :
  runs (stringPieces rec cg ctx scope fragments pieces).
Proof.
  revert pieces. induction fragments as [|f rest IH]; intros pieces st r st'; cbn [stringPieces].
  - returned.
  - destruct (Escaped f) as [escaped|].
    { destruct (escapedPiece escaped); [apply IH | returned | returned]. }
    destruct (Interpolated f) as [expr|].
    { destruct (interpolatedPiece rec cg ctx scope expr st) as [[piece|e|a] st1] eqn:Ei;
        apply interpolatedPiece_runs in Ei; try returned.
      intros E. apply IH in E. chain. }
    destruct (Text_ f); apply IH.
Qed.

Lemma heredocPieces_runs cg ctx scope fragments pieces :
  runs (heredocPieces rec cg ctx scope fragments pieces).
Proof.
  revert pieces. induction fragments as [|f rest IH]; intros pieces st r st'; cbn [heredocPieces].
  - returned.
  - destruct (HSpaces f); [apply IH|].
    destruct (HEscaped f) as [escaped|].
    { destruct (heredocEscapedPiece escaped); [apply IH | returned | returned]. }
    destruct (HInterpolated f) as [expr|].
    { destruct (interpolatedPiece rec cg ctx scope expr st) as [[piece|e|a] st1] eqn:Ei;
        apply interpolatedPiece_runs in Ei; try returned.
      intros E. apply IH in E. chain. }
    destruct (HText f); apply IH.
Qed.

Lemma evaluateEach_runs cg ctx scope b kinds exprs values :
  runs (evaluateEach rec cg ctx scope b kinds exprs values).
Proof.
  revert ctx kinds values.
  induction exprs as [|expr exprs IH]; intros ctx [|kind kinds] values st r st';
    cbn [evaluateEach]; try returned.
  destruct (rEmitExpr rec cg _ scope expr [] [] b NewRegister st) as [[r1 ret1] st1] eqn:Ee.
  apply (sound_Expr _ Hrec) in Ee as [Hk Hg]; [|apply goodReg_New].
  destruct r1 as [u|e|a]; try returned.
  destruct (Register_Value ret1 st1) as [[rv ret2] st2] eqn:Ev.
  apply (Register_Value_kept _ _ _ _ _ Hg) in Ev as [Hk1 _].
  destruct rv as [value|e|a]; try returned.
  intros E. apply IH in E. chain.
Qed.

Lemma withOptions_runs cg ctx scope call b : runs (withOptions rec cg ctx scope call b).
Proof.
  intros st r st'. unfold withOptions. destruct (WithClause call) as [withExpr|]; [|returned].
  destruct (rEvaluate rec cg ctx scope b _ _ st) as [[values|e|a] st1] eqn:Ee;
    apply (sound_Evaluate _ Hrec) in Ee; try returned.
  destruct values as [|value values]; [returned|].
  destruct (Value_Option value); returned.
Qed.

Lemma emitField_emits ctx obj : emits (emitField ctx obj).
Proof.
  intros ret st r ret' st' Hg. unfold emitField.
  destruct (NewValue ctx (Object_Data obj)) as [val|e|a]; try returned.
  destruct (negb (String.eqb (Value_Kind val) KOption)).
  { intros [= <- <- <-]. split; [chain | now apply goodReg_Set]. }
  destruct (Register_Value ret st) as [[rv ret1] st1] eqn:Ev.
  apply (Register_Value_kept _ _ _ _ _ Hg) in Ev as [Hk1 Hg1].
  destruct rv as [current|e|a]; try returned.
  destruct (negb (String.eqb (Value_Kind current) KOption)).
  { intros [= <- <- <-]. split; [chain | now apply goodReg_Set]. }
  destruct (Value_Option current); try returned.
  destruct (Value_Option val); try returned.
  intros [= <- <- <-]. split; [chain | now apply goodReg_Set].
Qed.

Lemma emitStmts_emits cg ctx scope b stmts : emits (emitStmts rec cg ctx scope b stmts).
Proof.
  induction stmts as [|stmt rest IH]; intros ret st r ret' st' Hg; cbn [emitStmts].
  - returned.
  - unfold emitStmt. destruct (Call_ stmt) as [call|].
    + intros E. apply IH in E; [exact E|]. apply goodReg_SetAsync; [|exact Hg].
      apply callStmtAsync_good.
    + destruct (ExprStmt_ stmt) as [expr|]; [|returned].
      destruct (rEmitExpr rec cg ctx scope expr [] [] b ret st) as [[r1 ret1] st1] eqn:Ee.
      apply (sound_Expr _ Hrec) in Ee as [Hk Hg1]; [|exact Hg].
      destruct r1 as [u|e|a]; try returned.
      intros E. apply IH in E as [Hk2 Hg2]; [|exact Hg1]. split; [chain | exact Hg2].
Qed.

Lemma EmitExpr_of_emits cg ctx scope expr args opts b :
  emits (EmitExpr_of rec cg ctx scope expr args opts b).
Proof.
  intros ret st r ret' st' Hg. unfold EmitExpr_of.
  destruct (FuncLit_ expr) as [lit|]; [now apply (sound_FuncLit _ Hrec)|].
  destruct (BasicLit_ expr) as [lit|]; [now apply (sound_BasicLit _ Hrec)|].
  destruct (CallExpr_ expr) as [call|]; [|returned].
  intros [= <- <- <-]. split; [chain|].
  apply goodReg_SetAsync; [apply callExprAsync_good | exact Hg].
Qed.

Lemma EmitBasicLit_of_emits cg ctx scope lit : emits (EmitBasicLit_of rec cg ctx scope lit).
Proof.
  intros ret st r ret' st' Hg. unfold EmitBasicLit_of, EmitRawHeredoc, emitHeredocPieces.
  destruct (Decimal lit); [intros [= <- <- <-]; split; [chain | now apply goodReg_Set]|].
  destruct (Numeric lit); [intros [= <- <- <-]; split; [chain | now apply goodReg_Set]|].
  destruct (Bool_ lit); [intros [= <- <- <-]; split; [chain | now apply goodReg_Set]|].
  destruct (Str lit); [now apply (sound_StringLit _ Hrec)|].
  destruct (RawString lit); [intros [= <- <- <-]; split; [chain | now apply goodReg_Set]|].
  destruct (Heredoc_ lit); [now apply (sound_Heredoc _ Hrec)|].
  destruct (RawHeredoc_ lit); [intros [= <- <- <-]; split; [chain | now apply goodReg_Set]|].
  returned.
Qed.

Lemma EmitStringLit_of_emits cg ctx scope str : emits (EmitStringLit_of rec cg ctx scope str).
Proof.
  intros ret st r ret' st' Hg. unfold EmitStringLit_of.
  destruct (stringPieces rec cg ctx scope _ [] st) as [[pieces|e|a] st1] eqn:Ep;
    apply stringPieces_runs in Ep; try returned.
  intros [= <- <- <-]. split; [chain | now apply goodReg_Set].
Qed.

Lemma EmitHeredoc_of_emits cg ctx scope heredoc : emits (EmitHeredoc_of rec cg ctx scope heredoc).
Proof.
  intros ret st r ret' st' Hg. unfold EmitHeredoc_of, emitHeredocPieces.
  destruct (heredocPieces rec cg ctx scope _ [] st) as [[pieces|e|a] st1] eqn:Ep;
    apply heredocPieces_runs in Ep; try returned.
  intros [= <- <- <-]. split; [chain | now apply goodReg_Set].
Qed.

Lemma EmitCallExpr_of_emits cg ctx scope call : emits (EmitCallExpr_of rec cg ctx scope call).
Proof.
  intros ret st r ret' st' Hg. unfold EmitCallExpr_of.
  destruct (Debug cg _ scope _ [] st) as [[u|e|a] st1] eqn:Ed;
    apply Debug_scopes, kept_scopes in Ed; try returned.
  destruct (rEvaluate rec cg _ scope None _ _ st1) as [[args|e|a] st2] eqn:Ee;
    apply (sound_Evaluate _ Hrec) in Ee; try returned.
  intros E. apply (sound_IdentExpr _ Hrec) in E as [Hk Hg']; [|exact Hg].
  split; [chain | exact Hg'].
Qed.

Lemma EmitIdentExpr_of_emits cg ctx scope ie lookup args opts b :
  emits (EmitIdentExpr_of H rec cg ctx scope ie lookup args opts b).
Proof.
  intros ret st r ret' st' Hg. unfold EmitIdentExpr_of.
  destruct (Lookup st scope (Text lookup)) as [[holder obj]|]; [|returned].
  destruct (Object_Node obj) as [|m|bd|fd|bc|id|f|e|ie'|i|s|l|l|k]; try returned.
  - intros [= <- <- <-]. split; [chain|].
    apply goodReg_SetAsync; [apply builtinAsync_good | exact Hg].
  - now apply (sound_FuncDecl _ Hrec).
  - now apply (sound_Binding _ Hrec).
  - destruct (Object_Data obj) as [|v|imod]; try returned.
    destruct (Reference ie); [|returned]. now apply (sound_IdentExpr _ Hrec).
  - now apply emitField_emits.
Qed.

Lemma EmitImport_of_runs cg ctx mod_ id :
  forall st r st',
    EmitImport_of H rec cg ctx mod_ id st = (r, st') ->
    kept st st' /\ (forall m fn, r = Ok (m, fn) -> Checked m).
Proof.
  intros st r st'. unfold EmitImport_of.
  destruct (rEmitExpr rec cg _ _ _ [] [] None NewRegister st) as [[r1 ret1] st1] eqn:Ee.
  apply (sound_Expr _ Hrec) in Ee as [Hk Hg]; [|apply goodReg_New].
  destruct r1 as [u|e|a]; try (intros [= <- <-]; split; [chain | discriminate]).
  destruct (Register_Value ret1 st1) as [[rv ret2] st2] eqn:Ev.
  apply (Register_Value_kept _ _ _ _ _ Hg) in Ev as [Hk1 _].
  destruct rv as [val|e|a]; try (intros [= <- <-]; split; [chain | discriminate]).
  destruct (locateImport H cg _ mod_ id val st2) as [[[[dir|] filename]|e|a] st3] eqn:El;
    apply locateImport_scopes, kept_scopes in El;
    try (intros [= <- <-]; split; [chain | discriminate]).
  intros E. apply openImport_kept in E as [Hk2 Hc]. split; [chain | exact Hc].
Qed.

Lemma EmitFuncDecl_of_emits cg ctx fun_ args b : emits (EmitFuncDecl_of rec cg ctx fun_ args b).
Proof.
  intros ret st r ret' st' Hg. unfold EmitFuncDecl_of.
  destruct (negb (length (Params fun_) =? length args)%nat); [returned|].
  pose proof (kept_NewScope (NodeFuncDecl fun_) (FuncDecl_Scope fun_) (Params fun_) args st) as Hn.
  destruct (NewScope (NodeFuncDecl fun_) (FuncDecl_Scope fun_) st) as [scope st1].
  cbn [fst snd] in Hn.
  destruct (Debug cg _ scope _ [] _) as [[u|e|a] st2] eqn:Ed;
    apply Debug_scopes, kept_scopes in Ed; try returned.
  intros E. apply (sound_Block _ Hrec) in E as [Hk Hg']; [|exact Hg].
  split; [chain | exact Hg'].
Qed.

Lemma EmitBinding_of_emits cg ctx b args : emits (EmitBinding_of rec cg ctx b args).
Proof.
  intros ret st r ret' st' Hg. unfold EmitBinding_of.
  destruct (Closure (Bind b)); [now apply (sound_FuncDecl _ Hrec) | returned].
Qed.

Lemma lookupCall_of_runs cg ctx scope lookup : runs (lookupCall_of H rec cg ctx scope lookup).
Proof.
  intros st r st'. unfold lookupCall_of.
  destruct (Lookup st scope (Text lookup)) as [[holder obj]|] eqn:El; [|returned].
  apply Lookup_holds in El.
  destruct (Object_Node obj) as [|m|bd|fd|bc|id|f|e|ie'|i|s|l|l|k]; try returned.
  destruct (Object_Data obj) as [|v|imod] eqn:Ed; try returned.
  - destruct (Root st scope) as [[[|mod_| | | | | | | | | | | |] parent objects]|]; try returned.
    destruct (rEmitImport rec cg ctx mod_ id st) as [[[imod fn]|e|a] st1] eqn:Ei;
      pose proof (sound_Import _ Hrec _ _ _ _ _ _ _ Ei) as Hk; try returned.
    apply (sound_Import_Checked _ Hrec) in Ei.
    assert (Hi : kept st (setData holder (Text lookup) (DModule imod) st1)).
    { eapply kept_install; eauto. intros m'. rewrite Ed. discriminate. }
    destruct (CheckReferences H _ mod_ _ _) as [[e|] w]; intros [= <- <-];
      (eapply kept_trans; [exact Hi | now apply kept_scopes]).
  - destruct (Root st scope) as [[[|mod_| | | | | | | | | | | |] parent objects]|]; try returned.
    destruct (rEmitImport rec cg ctx mod_ id st) as [[[imod fn]|e|a] st1] eqn:Ei;
      pose proof (sound_Import _ Hrec _ _ _ _ _ _ _ Ei) as Hk; try returned.
    apply (sound_Import_Checked _ Hrec) in Ei.
    assert (Hi : kept st (setData holder (Text lookup) (DModule imod) st1)).
    { eapply kept_install; eauto. intros m'. rewrite Ed. discriminate. }
    destruct (CheckReferences H _ mod_ _ _) as [[e|] w]; intros [= <- <-];
      (eapply kept_trans; [exact Hi | now apply kept_scopes]).
Qed.

Lemma EmitBlock_of_emits cg ctx scope block b : emits (EmitBlock_of rec cg ctx scope block b).
Proof.
  intros ret st r ret' st' Hg. unfold EmitBlock_of. destruct block as [block|]; [|returned].
  now apply emitStmts_emits.
Qed.

Lemma EmitCallStmt_of_emits cg ctx scope call b : emits (EmitCallStmt_of H rec cg ctx scope call b).
Proof.
  intros ret st r ret' st' Hg. unfold EmitCallStmt_of.
  destruct (rEvaluate rec cg _ scope None _ _ st) as [[args|e|a] st1] eqn:Ee;
    apply (sound_Evaluate _ Hrec) in Ee; try returned.
  destruct (withOptions rec cg _ scope call b st1) as [[opts|e|a] st2] eqn:Ew;
    apply withOptions_runs in Ew; try returned.
  destruct (breakpointOptions H _ call args opts) as [opts'|e|a]; try returned.
  destruct (Debug cg _ scope _ opts' st2) as [[u|e|a] st3] eqn:Ed;
    apply Debug_scopes, kept_scopes in Ed; try returned.
  intros E. apply (sound_IdentExpr _ Hrec) in E as [Hk Hg']; [|exact Hg].
  split; [chain | exact Hg'].
Qed.

Lemma Evaluate_of_runs cg ctx scope b kinds exprs :
  runs (Evaluate_of rec cg ctx scope b kinds exprs).
Proof.
  intros st r st'. unfold Evaluate_of.
  destruct (negb (length kinds =? length exprs)%nat); [returned|]. apply evaluateEach_runs.
Qed.

Lemma sound_callees : sound (callees H rec).
Proof.
  split; cbn.
  - apply EmitExpr_of_emits.
  - intros cg ctx scope lit b. unfold EmitFuncLit_of. apply (sound_Block _ Hrec).
  - apply EmitBasicLit_of_emits.
  - apply EmitStringLit_of_emits.
  - apply EmitHeredoc_of_emits.
  - apply EmitCallExpr_of_emits.
  - apply EmitIdentExpr_of_emits.
  - intros cg ctx mod_ id st r st' E. now apply EmitImport_of_runs in E.
  - intros cg ctx mod_ id st m fn st' E. apply EmitImport_of_runs in E as [_ Hc]. eauto.
  - apply EmitFuncDecl_of_emits.
  - apply EmitBinding_of_emits.
  - apply lookupCall_of_runs.
  - apply EmitBlock_of_emits.
  - apply EmitCallStmt_of_emits.
  - apply Evaluate_of_runs.
Qed.

End Callees.

Lemma sound_evaluator (fuel : nat) : sound (evaluator H fuel).
Proof.
  induction fuel as [|fuel IH]; [apply sound_exhausted | now apply sound_callees].
Qed.

(** *** The calls of the generator (claim C8) *)

Lemma generateTarget_runs fuel cg ctx mod_ i target :
  runs (generateTarget H fuel cg ctx mod_ i target).
Proof.
  intros st r st'. unfold generateTarget.
  destruct (Debug cg ctx _ _ [] st) as [[u|e|a] st1] eqn:Ed;
    apply Debug_scopes, kept_scopes in Ed; try returned.
  destruct (EmitIdentExpr H fuel cg ctx _ _ _ [] [] None NewRegister st1) as [[r1 ret1] st2] eqn:Ee.
  apply (sound_IdentExpr _ (sound_evaluator fuel)) in Ee as [Hk Hg]; [|apply goodReg_New].
  destruct r1 as [u'|e|a]; try returned.
  destruct (Register_Value ret1 st2) as [[rv ret2] st3] eqn:Ev.
  apply (Register_Value_kept _ _ _ _ _ Hg) in Ev as [Hk1 _].
  destruct rv as [value|e|a]; try returned.
  destruct (Value_Request H value); returned.
Qed.

Lemma generateFrom_runs fuel cg ctx mod_ targets :
  forall i requests, runs (generateFrom H fuel cg ctx mod_ i targets requests).
Proof.
  induction targets as [|target rest IH]; intros i requests st r st'; cbn [generateFrom].
  - returned.
  - destruct (targetDefined mod_ target st) as [[]|]; try returned.
    destruct (generateTarget H fuel cg ctx mod_ i target st) as [[request|e|a] st1] eqn:Eg;
      apply generateTarget_runs in Eg; try returned.
    intros E. apply IH in E. chain.
Qed.

(** One call of a function of the generator that is handed no register:
    of the entry point, of the evaluation of expressions, of the lookup
    of a call, of the evaluation of an import, of a built-in. *)
Inductive Call : State -> State -> Prop :=
| Call_Generate fuel cg ctx mod_ targets st r st' :
    Generate H fuel cg ctx mod_ targets st = (r, st') -> Call st st'
| Call_Evaluate fuel cg ctx scope b kinds exprs st r st' :
    Evaluate H fuel cg ctx scope b kinds exprs st = (r, st') -> Call st st'
| Call_lookupCall fuel cg ctx scope lookup st r st' :
    lookupCall H fuel cg ctx scope lookup st = (r, st') -> Call st st'
| Call_EmitImport fuel cg ctx mod_ id st r st' :
    EmitImport H fuel cg ctx mod_ id st = (r, st') -> Call st st'
| Call_EmitBuiltinDecl cg ctx scope bd args opts b v st r st' :
    EmitBuiltinDecl H cg ctx scope bd args opts b v st = (r, st') -> Call st st'.

(** Any number of calls, one after the other. *)
Inductive Later : State -> State -> Prop :=
| Later_now (st : State) : Later st st
| Later_call (st st1 st2 : State) : Call st st1 -> Later st1 st2 -> Later st st2.

Lemma Call_kept (st st' : State) : Call st st' -> kept st st'.
Proof.
  intros [fuel cg ctx mod_ targets st0 r st1 E
         |fuel cg ctx scope b kinds exprs st0 r st1 E
         |fuel cg ctx scope lookup st0 r st1 E
         |fuel cg ctx mod_ id st0 r st1 E
         |cg ctx scope bd args opts b v st0 r st1 E].
  - now apply generateFrom_runs in E.
  - now apply (sound_Evaluate _ (sound_evaluator fuel)) in E.
  - now apply (sound_lookupCall _ (sound_evaluator fuel)) in E.
  - now apply (sound_Import _ (sound_evaluator fuel)) in E.
  - apply EmitBuiltinDecl_scopes in E. now apply kept_scopes.
Qed.

Lemma Later_kept (st st' : State) : Later st st' -> kept st st'.
Proof.
  induction 1 as [st|st st1 st2 Hc _ IH]; [apply kept_refl|].
  eapply kept_trans; [apply Call_kept; exact Hc | exact IH].
Qed.

Lemma setData_holds (st : State) (holder : nat) (name : string) (obj : Object) (d : Data) :
  holds st holder name obj ->
  holds (setData holder name d st) holder name
    {| Object_Kind := Object_Kind obj; Object_Ident := Object_Ident obj;
       Object_Node := Object_Node obj; Object_Data := d |}.
Proof.
  intros (sc & Hs & Ho). unfold holds, setData. cbn [scopes].
  rewrite lookup_alter_eq, Hs. cbn. eexists. split; [reflexivity|]. cbn.
  now rewrite lookup_alter_eq, Ho.
Qed.

(** A call through an import that holds a module changes nothing. *)
Lemma lookupCall_cached fuel cg ctx scope lookup st holder obj n m :
  Lookup st scope (Text lookup) = Some (holder, obj) ->
  Object_Node obj = NodeImportDecl n ->
  Object_Data obj = DModule m ->
  lookupCall H (S fuel) cg ctx scope lookup st = (Ok tt, st).
Proof.
  intros Hl Hn Hd. rewrite lookupCall_S. unfold lookupCall_of. now rewrite Hl, Hn, Hd.
Qed.


End WithHost.

End ImportProperties.

(** ** The scenarios, through the theorems *)

Module Scenarios.
Import GoStrings Reflect ast CodeGen CodeGenProperties BlockProperties ImportProperties.

(** [run "echo" "hi"] on the filesystem of an image. *)
Definition runDecl : BuiltinDecl := {| BuiltinDecl_Name := "run"; Kinds := [KFilesystem] |}.

Definition runMethod : @Method Demo.T :=
  @Build_Method Demo.T (Demo.callType [TSlice Demo.tString] true) Demo.runCall.

Definition fsContext : @Ctx Demo.T := WithReturnType Demo.background KFilesystem.


(** A parameter [p] bound to an option, in the scope of a call. *)
Definition pField : Field :=
  {| Modifier := None; Field_Kind := KOption; Field_Name := Demo.ident "p" |}.

Definition pObject : @Object Demo.T :=
  {| Object_Kind := KOption; Object_Ident := Demo.ident "p"; Object_Node := NodeField pField;
     Object_Data := DValue (VOption [OptHost (T:=Demo.T) "env A B"]) |}.

Definition withParameter : @State Demo.T := Insert 1 pObject Demo.initial.

Definition optionRegister : @Register Demo.T :=
  Register_Set (VOption [OptHost (T:=Demo.T) "env K V"]) NewRegister.

Lemma ident_resolves_to_parameter_witness :
  Lookup withParameter 1 "p" = Some (1, pObject)
  /\ EmitIdentExpr Demo.host 1 Demo.cg Demo.background 1 (NewIdentExpr "p") (Demo.ident "p")
       [] [] None optionRegister withParameter
     = (Ok tt,
        Register_Set (VOption [OptHost (T:=Demo.T) "env K V"; OptHost (T:=Demo.T) "env A B"])
          {| held := VOption [OptHost (T:=Demo.T) "env K V"]; deferred := [] |},
        withParameter).
Proof.
  assert (Hl : Lookup withParameter 1 (Text (Demo.ident "p")) = Some (1, pObject))
    by (vm_compute; reflexivity).
  split; [exact Hl|].
  destruct (proj1 (proj2 (ident_resolves_to_parameter Demo.host 0 Demo.cg Demo.background 1
                            (NewIdentExpr "p") (Demo.ident "p") [] [] None optionRegister
                            withParameter 1 pObject pField
                            (VOption [OptHost (T:=Demo.T) "env A B"]) Hl eq_refl eq_refl)
                     (VOption [OptHost (T:=Demo.T) "env K V"])
                     {| held := VOption [OptHost (T:=Demo.T) "env K V"]; deferred := [] |}
                     withParameter eq_refl eq_refl) eq_refl)
    as (retOpts & valOpts & Hc & Hv & He & _).
  injection Hc as <-. injection Hv as <-. exact He.
Defined.

(** The import of the scenarios, and one of a file that is not there. *)
Definition missingImport : ImportDecl :=
  {| ImportDecl_Name := Demo.ident "n"; ImportDecl_Expr := Demo.textLit "n.hlb";
     DeprecatedPath := None |}.

Definition importedModule : @Module Demo.T := @Build_Module Demo.T "lib/m.hlb" 2 (Some "lib").

Lemma import_evaluation_witness :
  Located Demo.host Demo.cg (WithReturnType Demo.background KNone) Demo.mainModule
    Demo.importDecl (VString "m.hlb") Demo.initial "lib" "m.hlb" Demo.initial
  /\ fst (EmitImport Demo.host 4 Demo.cg Demo.background Demo.mainModule Demo.importDecl
            Demo.initial)
     = Ok (importedModule, "m.hlb")
  /\ fst (EmitImport Demo.host 4 Demo.cg Demo.background Demo.mainModule missingImport
            Demo.initial)
     = Err (ImportPathNotExist (NotExist "open lib n.hlb")
              (NodeExpr (Demo.textLit "n.hlb")) "n.hlb").
Proof.
  assert (Hl : forall id name,
             Located Demo.host Demo.cg (WithReturnType Demo.background KNone) Demo.mainModule
               id (VString name) Demo.initial "lib" name Demo.initial)
    by (intros id name; now apply Located_string).
  split; [apply Hl|]. split.
  - rewrite (proj2 (import_evaluation Demo.host 3 Demo.cg Demo.background Demo.mainModule
                      Demo.importDecl Demo.initial Demo.initial Demo.initial Demo.initial
                      (Register_Set (VString "m.hlb") NewRegister)
                      {| held := VString "m.hlb"; deferred := [] |}
                      (VString "m.hlb") "lib" "m.hlb" eq_refl eq_refl (Hl _ _))
               _ _ _ _ _ _ _ _ eq_refl eq_refl eq_refl eq_refl).
    reflexivity.
  - rewrite (proj1 (import_evaluation Demo.host 3 Demo.cg Demo.background Demo.mainModule
                      missingImport Demo.initial Demo.initial Demo.initial Demo.initial
                      (Register_Set (VString "n.hlb") NewRegister)
                      {| held := VString "n.hlb"; deferred := [] |}
                      (VString "n.hlb") "lib" "n.hlb" eq_refl eq_refl (Hl _ _))
               _ _ eq_refl eq_refl).
    reflexivity.
Defined.

(** The generator with two lists of extra solve options. *)
Definition extraLists : list (list (@SolveOption Demo.T)) := [["frontend"]; ["cache"; "trace"]].

Definition configured : @CodeGen Demo.T :=
  fst (@New Demo.T tt Demo.resolve (map (@WithExtraSolveOpts Demo.T) extraLists)).

Lemma builtin_receives_extra_solve_opts_witness :
  extraSolveOpts configured = ["frontend"; "cache"; "trace"]
  /\ EmitBuiltinDecl Demo.host configured fsContext 0 runDecl [VString "echo"; VString "hi"] []
       None (VFilesystem (T:=Demo.T) ["image alpine"]) Demo.initial
     = (Ok (VFilesystem (T:=Demo.T) ["image alpine"; "run echo hi"]),
        {| scopes := scopes Demo.initial;
           world := ["run echo hi with [solve:frontend,solve:cache,solve:trace]"] |}).
Proof.
  split.
  - exact (proj2 (proj1 (builtin_receives_extra_solve_opts Demo.host) tt Demo.resolve
                    extraLists)).
  - rewrite (proj2 (proj2 (proj2 (builtin_receives_extra_solve_opts Demo.host)))
               configured fsContext 0 runDecl [VString "echo"; VString "hi"] None
               (VFilesystem (T:=Demo.T) ["image alpine"]) Demo.initial runMethod ["echo"; "hi"]).
    + reflexivity.
    + exists Demo.Run, [], ["echo"; "hi"]. repeat split; try reflexivity; cbn; lia.
Defined.

(** The block of [a]: [image "alpine"; run "echo hi" with option { env "K" "V"; }]. *)
Definition aBlock : BlockStmt :=
  match FuncDecl_Body Demo.aDecl with
  | Some block => block
  | None => mkBlockStmt KFilesystem []
  end.


(** The import [m] of the scenarios, once a call has gone through it. *)
Definition resolved : @State Demo.T :=
  snd (lookupCall Demo.host 20 Demo.cg Demo.background 0 (Demo.ident "m") Demo.initial).

Definition resolvedImport : @Object Demo.T :=
  {| Object_Kind := KNone; Object_Ident := Demo.ident "m";
     Object_Node := NodeImportDecl Demo.importDecl; Object_Data := DModule importedModule |}.


End Scenarios.

(** ** The rest of the generator *)

Module GeneratorProperties.
Import GoStrings Reflect ast CodeGen CodeGenProperties BlockProperties ImportProperties.

Section WithHost.

Context {T : HostTypes} (H : @Host T).

(** *** Configuration ([New], [WithDebugger], [WithExtraSolveOpts]) *)

(** What an option of the two kinds sets. *)
Inductive setting : Type :=
| SetDebugger (dbgr : Debugger)
| AddSolveOpts (extraOpts : list (SolveOption T)).

Definition settingOption (s : setting) : CodeGenOption :=
  match s with
  | SetDebugger dbgr => WithDebugger dbgr
  | AddSolveOpts extraOpts => WithExtraSolveOpts extraOpts
  end.

(** The debugger in force after the settings: that of the last
    [SetDebugger], else the one before them. *)
Fixpoint lastDebugger (settings : list setting) (dbgr : Debugger) : Debugger :=
  match settings with
  | [] => dbgr
  | SetDebugger d :: rest => lastDebugger rest d
  | AddSolveOpts _ :: rest => lastDebugger rest dbgr
  end.

Fixpoint addedSolveOpts (settings : list setting) : list (SolveOption T) :=
  match settings with
  | [] => []
  | SetDebugger _ :: rest => addedSolveOpts rest
  | AddSolveOpts l :: rest => l ++ addedSolveOpts rest
  end.

Lemma applyOptions_settings (settings : list setting) (cg : CodeGen) :
  applyOptions cg (map settingOption settings)
  = ({| Debug_ := lastDebugger settings (Debug_ cg); cln := cln cg; resolver := resolver cg;
        extraSolveOpts := extraSolveOpts cg ++ addedSolveOpts settings |}, None).
Proof.
  revert cg. induction settings as [|[d|l] rest IH]; intros cg; cbn [map applyOptions].
  - cbn. rewrite app_nil_r. now destruct cg.
  - cbn [settingOption]. unfold WithDebugger at 1. rewrite IH. reflexivity.
  - cbn [settingOption]. unfold WithExtraSolveOpts at 1. rewrite IH. cbn.
    now rewrite app_assoc.
Qed.

Lemma applyOptions_app (pre post : list CodeGenOption) (cg cg1 : CodeGen) :
  applyOptions cg pre = (cg1, None) ->
  applyOptions cg (pre ++ post) = applyOptions cg1 post.
Proof.
  revert cg. induction pre as [|opt pre IH]; intros cg; cbn [app applyOptions].
  - now intros [= <-].
  - destruct (opt cg) as [cg' [err|]]; [discriminate | apply IH].
Qed.

(** [New] keeps the client and the resolver it is given and applies the
    options in order: with options of the two kinds only it cannot fail,
    the debugger is that of the last [WithDebugger] (the no-op debugger
    if there is none) and the extra solve options are those of all the
    [WithExtraSolveOpts], in order; an option that fails ends it, with
    the error and the generator as that option left it, and the options
    after it are not applied. *)
Theorem New_applies_options_in_order :
  (forall (c : Client T) (r : Resolver) (settings : list setting),
      New c r (map settingOption settings)
      = ({| Debug_ := lastDebugger settings NewNoopDebugger; cln := c; resolver := r;
            extraSolveOpts := addedSolveOpts settings |}, None))
  /\ (forall (c : Client T) (r : Resolver) (pre post : list CodeGenOption) (opt : CodeGenOption)
        (cg1 cg2 : CodeGen) (err : error),
        New c r pre = (cg1, None) ->
        opt cg1 = (cg2, Some err) ->
        New c r (pre ++ opt :: post) = (cg2, Some err))
  /\ (forall (c : Client T) (r : Resolver) (pre post : list CodeGenOption) (cg1 : CodeGen),
        New c r pre = (cg1, None) ->
        New c r (pre ++ post) = applyOptions cg1 post).
Proof.
  split; [|split].
  - intros c r settings. unfold New. now rewrite applyOptions_settings.
  - intros c r pre post opt cg1 cg2 err Hpre Hopt. unfold New in *.
    rewrite (applyOptions_app _ _ _ _ Hpre). cbn [applyOptions]. now rewrite Hopt.
  - intros c r pre post cg1 Hpre. unfold New in *. now apply applyOptions_app.
Qed.

(** *** [Evaluate] *)

Lemma Evaluate_S (fuel : nat) : Evaluate H (S fuel) = Evaluate_of (evaluator H fuel).
Proof. reflexivity. Qed.

Lemma EmitCallStmt_S (fuel : nat) : EmitCallStmt H (S fuel) = EmitCallStmt_of H (evaluator H fuel).
Proof. reflexivity. Qed.

Lemma EmitFuncDecl_S (fuel : nat) : EmitFuncDecl H (S fuel) = EmitFuncDecl_of (evaluator H fuel).
Proof. reflexivity. Qed.

Lemma EmitHeredoc_S (fuel : nat) : EmitHeredoc H (S fuel) = EmitHeredoc_of (evaluator H fuel).
Proof. reflexivity. Qed.

Lemma EmitBasicLit_S (fuel : nat) : EmitBasicLit H (S fuel) = EmitBasicLit_of (evaluator H fuel).
Proof. reflexivity. Qed.

(** The context an expression is evaluated in by [Evaluate]. *)
Definition exprContext (ctx : Ctx) (expr : Expr) (kind : Kind) : Ctx :=
  WithReturnType (WithProgramCounter ctx (NodeExpr expr)) kind.

(** The expressions are evaluated one after the other, each into a new
    register that is forced, with its own kind as return type. *)
Inductive Evaluated (fuel : nat) (cg : CodeGen) (ctx : Ctx) (scope : nat) (b : option Binding)
  : list Kind -> list Expr -> State -> list Value -> State -> Prop :=
| Evaluated_nil (st : State) : Evaluated fuel cg ctx scope b [] [] st [] st
| Evaluated_cons (kind : Kind) (kinds : list Kind) (expr : Expr) (exprs : list Expr)
    (st st1 st2 st' : State) (ret1 ret2 : Register) (value : Value) (values : list Value) :
    EmitExpr H fuel cg (exprContext ctx expr kind) scope expr [] [] b NewRegister st
    = (Ok tt, ret1, st1) ->
    Register_Value ret1 st1 = (Ok value, ret2, st2) ->
    Evaluated fuel cg ctx scope b kinds exprs st2 values st' ->
    Evaluated fuel cg ctx scope b (kind :: kinds) (expr :: exprs) st (value :: values) st'.

Lemma Evaluated_length fuel cg ctx scope b kinds exprs st values st' :
  Evaluated fuel cg ctx scope b kinds exprs st values st' ->
  length kinds = length exprs /\ length values = length exprs.
Proof. induction 1 as [|? ? ? ? ? ? ? ? ? ? ? ? _ _ _ [IH1 IH2]]; cbn; auto. Qed.

(** The context of one round of the loop does not depend on the rounds
    before it. *)
Lemma exprContext_again (ctx : Ctx) (expr expr' : Expr) (kind kind' : Kind) :
  exprContext (exprContext ctx expr kind) expr' kind' = exprContext ctx expr' kind'.
Proof. reflexivity. Qed.

Lemma evaluateEach_context (rec : Evaluator) cg ctx scope b kinds exprs gathered st
    (expr0 : Expr) (kind0 : Kind) :
  evaluateEach rec cg (exprContext ctx expr0 kind0) scope b kinds exprs gathered st
  = evaluateEach rec cg ctx scope b kinds exprs gathered st.
Proof.
  destruct exprs as [|expr exprs], kinds as [|kind kinds]; reflexivity.
Qed.

Lemma evaluateEach_Evaluated fuel cg ctx scope b kinds exprs st values st' :
  Evaluated fuel cg ctx scope b kinds exprs st values st' ->
  forall gathered,
    evaluateEach (evaluator H fuel) cg ctx scope b kinds exprs gathered st
    = (Ok (gathered ++ values)%list, st').
Proof.
  induction 1 as [st|kind kinds expr exprs st st1 st2 st' ret1 ret2 value values He Hv _ IH];
    intros gathered.
  - cbn. now rewrite app_nil_r.
  - cbn [evaluateEach]. fold (exprContext ctx expr kind). fold (EmitExpr H fuel).
    rewrite He, Hv, evaluateEach_context, IH, <- app_assoc. reflexivity.
Qed.

Lemma evaluateEach_Ok fuel cg ctx scope b exprs :
  forall kinds gathered st values st',
    length kinds = length exprs ->
    evaluateEach (evaluator H fuel) cg ctx scope b kinds exprs gathered st = (Ok values, st') ->
    exists rest,
      values = (gathered ++ rest)%list /\ Evaluated fuel cg ctx scope b kinds exprs st rest st'.
Proof.
  induction exprs as [|expr exprs IH]; intros [|kind kinds] gathered st values st' Hlen;
    try discriminate.
  - cbn. intros [= <- <-]. exists []. split; [now rewrite app_nil_r | constructor].
  - cbn [evaluateEach]. fold (exprContext ctx expr kind). fold (EmitExpr H fuel).
    destruct (EmitExpr H fuel cg (exprContext ctx expr kind) scope expr [] [] b NewRegister st)
      as [[[[]|e|a] ret1] st1] eqn:He; try discriminate.
    destruct (Register_Value ret1 st1) as [[[value|e|a] ret2] st2] eqn:Hv; try discriminate.
    rewrite evaluateEach_context. intros E.
    apply IH in E as (rest & -> & HE); [|now injection Hlen].
    exists (value :: rest). split; [now rewrite <- app_assoc|].
    econstructor; eassumption.
Qed.

(** [Evaluate] returns values exactly when there are as many kinds as
    expressions and every expression, in order, is emitted into a new
    register and forced, each in the context of the caller with its own
    program counter and return type; it then returns one value for each
    expression.  With a different number of kinds it reports an internal
    error and evaluates nothing. *)
Theorem Evaluate_one_value_per_expression :
  (forall fuel cg ctx scope b kinds exprs st values st',
      Evaluate H (S fuel) cg ctx scope b kinds exprs st = (Ok values, st')
      <-> length kinds = length exprs
          /\ Evaluated fuel cg ctx scope b kinds exprs st values st')
  /\ (forall fuel cg ctx scope b kinds exprs st values st',
        Evaluate H (S fuel) cg ctx scope b kinds exprs st = (Ok values, st') ->
        length values = length exprs)
  /\ (forall fuel cg ctx scope b kinds exprs st,
        length kinds <> length exprs ->
        Evaluate H (S fuel) cg ctx scope b kinds exprs st
        = (Err (InternalError (ProgramCounter ctx) "expected %d kinds but got %d"
                  [FmtInt (Z.of_nat (length exprs)); FmtInt (Z.of_nat (length kinds))]), st)).
Proof.
  assert (Hiff : forall fuel cg ctx scope b kinds exprs st values st',
             Evaluate H (S fuel) cg ctx scope b kinds exprs st = (Ok values, st')
             <-> length kinds = length exprs
                 /\ Evaluated fuel cg ctx scope b kinds exprs st values st').
  { intros fuel cg ctx scope b kinds exprs st values st'.
    rewrite Evaluate_S. unfold Evaluate_of.
    destruct (length kinds =? length exprs)%nat eqn:E; cbn [negb].
    - apply Nat.eqb_eq in E. split.
      + intros Hev. split; [exact E|].
        apply evaluateEach_Ok in Hev as (rest & -> & HE); [exact HE | exact E].
      + intros [_ HE]. now rewrite (evaluateEach_Evaluated _ _ _ _ _ _ _ _ _ _ HE []).
    - apply Nat.eqb_neq in E. split; [discriminate | now intros [E' _]]. }
  split; [exact Hiff|]. split.
  - intros fuel cg ctx scope b kinds exprs st values st' Hev.
    apply Hiff in Hev as [_ HE]. now apply Evaluated_length in HE.
  - intros fuel cg ctx scope b kinds exprs st Hne. rewrite Evaluate_S. unfold Evaluate_of.
    apply Nat.eqb_neq in Hne. now rewrite Hne.
Qed.

(** *** The scope of a call ([EmitFuncDecl]) *)

(** The object a parameter is entered as. *)
Definition paramObject (p : Field) (v : Value) : Object :=
  {| Object_Kind := Field_Kind p; Object_Ident := Field_Name p; Object_Node := NodeField p;
     Object_Data := DValue v |}.

(** The objects of a scope once the parameters are entered in it. *)
Fixpoint paramObjects (params : list Field) (args : list Value) (objs : gmap string Object)
  : gmap string Object :=
  match params, args with
  | p :: params', a :: args' =>
      paramObjects params' args'
        (match Modifier p with
         | Some _ => objs
         | None => <[Text (Field_Name p) := paramObject p a]> objs
         end)
  | _, _ => objs
  end.

Lemma insertParams_objects (id : nat) (params : list Field) (args : list Value) (st : State)
    (sc : Scope) :
  scopes st !! id = Some sc ->
  scopes (insertParams id params args st) !! id
  = Some {| Scope_Node := Scope_Node sc; Parent := Parent sc;
            Objects := paramObjects params args (Objects sc) |}.
Proof.
  revert args st sc. induction params as [|p params IH]; intros [|a args] st sc Hs;
    cbn [insertParams paramObjects]; try (rewrite Hs; now destruct sc).
  destruct (Modifier p); [now apply IH|].
  rewrite (IH args _ {| Scope_Node := Scope_Node sc; Parent := Parent sc;
                        Objects := <[Text (Field_Name p) := paramObject p a]> (Objects sc) |});
    [reflexivity|].
  cbn. now rewrite lookup_alter_eq, Hs.
Qed.

Lemma paramObjects_unbound (params : list Field) (args : list Value) (objs : gmap string Object)
    (name : string) :
  (forall j q, params !! j = Some q -> j < length args -> Modifier q = None ->
               Text (Field_Name q) <> name) ->
  paramObjects params args objs !! name = objs !! name.
Proof.
  revert args objs. induction params as [|p params IH]; intros [|a args] objs Hno;
    cbn [paramObjects]; try reflexivity.
  rewrite IH.
  - destruct (Modifier p) eqn:Em; [reflexivity|]. apply lookup_insert_ne.
    apply (Hno 0 p); [reflexivity | cbn; lia | exact Em].
  - intros j q Hq Hj. apply (Hno (S j) q); [exact Hq | cbn; lia].
Qed.

Lemma paramObjects_bound (params : list Field) (args : list Value) (objs : gmap string Object)
    (i : nat) (p : Field) (v : Value) :
  params !! i = Some p ->
  args !! i = Some v ->
  Modifier p = None ->
  (forall j q, i < j -> params !! j = Some q -> j < length args -> Modifier q = None ->
               Text (Field_Name q) <> Text (Field_Name p)) ->
  paramObjects params args objs !! Text (Field_Name p) = Some (paramObject p v).
Proof.
  revert args objs i. induction params as [|p0 params IH]; intros [|a args] objs [|i] Hp Ha Hm Hlater;
    try discriminate.
  - injection Hp as ->. injection Ha as ->. cbn [paramObjects]. rewrite Hm.
    rewrite paramObjects_unbound; [apply lookup_insert_eq|].
    intros j q Hq Hj. apply (Hlater (S j) q); [lia | exact Hq | cbn; lia].
  - cbn [paramObjects]. apply IH with (i := i); [exact Hp | exact Ha | exact Hm|].
    intros j q Hij Hq Hj. apply (Hlater (S j) q); [lia | exact Hq | cbn; lia].
Qed.

Lemma Lookup_from_more (n n' : nat) (m : gmap nat Scope) (scope : nat) (name : string) found :
  Lookup_from n m scope name = Some found -> n <= n' -> Lookup_from n' m scope name = Some found.
Proof.
  revert n' scope. induction n as [|n IH]; intros [|n'] scope; cbn [Lookup_from];
    try discriminate; try lia.
  intros Hl Hle. destruct (m !! scope) as [sc|]; [|discriminate].
  destruct (Objects sc !! name); [exact Hl|].
  destruct (Parent sc); [|discriminate]. apply IH; [exact Hl | lia].
Qed.

Lemma Lookup_from_agree (n : nat) (m m' : gmap nat Scope) (scope : nat) (name : string) found :
  (forall h sc, m !! h = Some sc -> m' !! h = Some sc) ->
  Lookup_from n m scope name = Some found -> Lookup_from n m' scope name = Some found.
Proof.
  intros Hag. revert scope. induction n as [|n IH]; intros scope; cbn [Lookup_from];
    [discriminate|].
  destruct (m !! scope) as [sc|] eqn:Es; [|discriminate]. rewrite (Hag _ _ Es).
  destruct (Objects sc !! name); [auto|]. destruct (Parent sc); [apply IH | discriminate].
Qed.

Lemma insertParams_size (id : nat) (params : list Field) (args : list Value) (st : State) :
  size (scopes (insertParams id params args st)) = size (scopes st).
Proof.
  revert args st. induction params as [|p params IH]; intros [|a args] st;
    cbn [insertParams]; try reflexivity.
  rewrite IH. destruct (Modifier p); [reflexivity|]. cbn.
  rewrite <- !(size_dom (D:=gset nat)). now rewrite dom_alter_L.
Qed.

(** The new scope of a call and the state with the arguments entered. *)
Definition callScope (fun_ : FuncDecl) (args : list Value) (st : State) : nat * State :=
  let created := NewScope (NodeFuncDecl fun_) (FuncDecl_Scope fun_) st in
  (fst created, insertParams (fst created) (Params fun_) args (snd created)).

Lemma callScope_scope (fun_ : FuncDecl) (args : list Value) (st : State) :
  scopes (snd (callScope fun_ args st)) !! fst (callScope fun_ args st)
  = Some {| Scope_Node := NodeFuncDecl fun_; Parent := Some (FuncDecl_Scope fun_);
            Objects := paramObjects (Params fun_) args ∅ |}.
Proof.
  unfold callScope, NewScope. cbn [fst snd].
  rewrite (insertParams_objects _ _ _ _
             {| Scope_Node := NodeFuncDecl fun_; Parent := Some (FuncDecl_Scope fun_);
                Objects := ∅ |}); [reflexivity|].
  cbn. apply lookup_insert_eq.
Qed.

Lemma callScope_keeps (fun_ : FuncDecl) (args : list Value) (st : State) (h : nat) (sc : Scope) :
  scopes st !! h = Some sc -> scopes (snd (callScope fun_ args st)) !! h = Some sc.
Proof.
  intros Hs. unfold callScope, NewScope. cbn [fst snd].
  assert (Hne : h <> nextScope (scopes st)).
  { intros ->. now rewrite nextScope_fresh in Hs. }
  rewrite insertParams_outside by exact Hne. cbn.
  rewrite lookup_insert_ne; [exact Hs|]. intros E. now apply Hne.
Qed.

Lemma callScope_size (fun_ : FuncDecl) (args : list Value) (st : State) :
  size (scopes (snd (callScope fun_ args st))) = S (size (scopes st)).
Proof.
  unfold callScope, NewScope. cbn [fst snd]. rewrite insertParams_size. cbn.
  apply map_size_insert_None, nextScope_fresh.
Qed.

(** A call of a function declaration with as many arguments as it has
    parameters runs its body in a new scope below the scope of the
    declaration, where every parameter without a modifier is bound to the
    argument of its position (the last one, if a name is repeated), every
    other name resolves as it does at the declaration, and no scope that
    was there is changed; with another number of arguments the call
    reports an internal error that names the binding, or else the
    function, and creates nothing. *)
Theorem call_binds_parameters :
  (forall fun_ args st i p v,
      Params fun_ !! i = Some p ->
      args !! i = Some v ->
      Modifier p = None ->
      (forall j q, i < j -> Params fun_ !! j = Some q -> j < length args -> Modifier q = None ->
                   Text (Field_Name q) <> Text (Field_Name p)) ->
      Lookup (snd (callScope fun_ args st)) (fst (callScope fun_ args st)) (Text (Field_Name p))
      = Some (fst (callScope fun_ args st), paramObject p v))
  /\ (forall fun_ args st name found,
        (forall j q, Params fun_ !! j = Some q -> j < length args -> Modifier q = None ->
                     Text (Field_Name q) <> name) ->
        Lookup st (FuncDecl_Scope fun_) name = Some found ->
        Lookup (snd (callScope fun_ args st)) (fst (callScope fun_ args st)) name = Some found)
  /\ (forall fun_ args st h sc,
        scopes st !! h = Some sc -> scopes (snd (callScope fun_ args st)) !! h = Some sc)
  /\ (forall fuel cg ctx fun_ args b ret st,
        length (Params fun_) = length args ->
        EmitFuncDecl H (S fuel) cg ctx fun_ args b ret st
        = let pc := WithProgramCounter ctx (NodeIdent (FuncDecl_Name fun_)) in
          let scope := fst (callScope fun_ args st) in
          match Debug cg pc scope (NodeIdent (FuncDecl_Name fun_)) [] (snd (callScope fun_ args st)) with
          | (Ok _, st') => EmitBlock H fuel cg pc scope (FuncDecl_Body fun_) b ret st'
          | (Err e, st') => (Err e, ret, st')
          | (Abort r, st') => (Abort r, ret, st')
          end)
  /\ (forall fuel cg ctx fun_ args b ret st,
        length (Params fun_) <> length args ->
        EmitFuncDecl H (S fuel) cg ctx fun_ args b ret st
        = (Err (InternalError (NodeIdent (FuncDecl_Name fun_)) "`%s` expected %d args, got %d"
                  [FmtString (match b with
                              | Some b' => Text (Binding_Name b')
                              | None => Text (FuncDecl_Name fun_)
                              end);
                   FmtInt (Z.of_nat (length (Params fun_)));
                   FmtInt (Z.of_nat (length args))]), ret, st)).
Proof.
  split; [|split; [|split; [|split]]].
  - intros fun_ args st i p v Hp Ha Hm Hlater. unfold Lookup.
    rewrite callScope_size. cbn [Lookup_from]. rewrite callScope_scope. cbn [Objects].
    now rewrite (paramObjects_bound _ _ _ i p v Hp Ha Hm Hlater).
  - intros fun_ args st name found Hno Hl. unfold Lookup in *.
    rewrite callScope_size. cbn [Lookup_from]. rewrite callScope_scope. cbn [Objects Parent].
    rewrite (paramObjects_unbound _ _ _ _ Hno), lookup_empty.
    eapply Lookup_from_agree; [|exact Hl]. intros h sc. apply callScope_keeps.
  - intros fun_ args st h sc. apply callScope_keeps.
  - intros fuel cg ctx fun_ args b ret st Hlen. rewrite EmitFuncDecl_S. unfold EmitFuncDecl_of.
    apply Nat.eqb_eq in Hlen. rewrite Hlen. cbn [negb]. unfold callScope, NewScope. cbn [fst snd].
    reflexivity.
  - intros fuel cg ctx fun_ args b ret st Hlen. rewrite EmitFuncDecl_S. unfold EmitFuncDecl_of.
    apply Nat.eqb_neq in Hlen. rewrite Hlen. reflexivity.
Qed.

(** *** Heredocs ([EmitHeredoc]) *)

(** The pieces the fragments of a heredoc contribute, in order: spaces
    as they are, an escaped dollar a dollar, any other escape as it is
    written, an interpolation the string its expression evaluates to, a
    text its text; a fragment that is none of these contributes nothing. *)
Inductive HeredocPieces (fuel : nat) (cg : CodeGen) (ctx : Ctx) (scope : nat)
  : list HeredocFragment -> State -> list string -> State -> Prop :=
| HeredocPieces_nil (st : State) : HeredocPieces fuel cg ctx scope [] st [] st
| HeredocPieces_spaces f rest spaces st st' pieces :
    HSpaces f = Some spaces ->
    HeredocPieces fuel cg ctx scope rest st pieces st' ->
    HeredocPieces fuel cg ctx scope (f :: rest) st (spaces :: pieces) st'
| HeredocPieces_dollar f rest escaped st st' pieces :
    HSpaces f = None -> HEscaped f = Some escaped -> String.get 1 escaped = Some DOLLAR ->
    HeredocPieces fuel cg ctx scope rest st pieces st' ->
    HeredocPieces fuel cg ctx scope (f :: rest) st ("$" :: pieces) st'
| HeredocPieces_escaped f rest escaped c st st' pieces :
    HSpaces f = None -> HEscaped f = Some escaped -> String.get 1 escaped = Some c ->
    c <> DOLLAR ->
    HeredocPieces fuel cg ctx scope rest st pieces st' ->
    HeredocPieces fuel cg ctx scope (f :: rest) st (escaped :: pieces) st'
| HeredocPieces_interpolated f rest expr ret1 ret2 value piece st st1 st2 st' pieces :
    HSpaces f = None -> HEscaped f = None -> HInterpolated f = Some expr ->
    EmitExpr H fuel cg ctx scope expr [] [] None NewRegister st = (Ok tt, ret1, st1) ->
    Register_Value ret1 st1 = (Ok value, ret2, st2) ->
    Value_String value = Ok piece ->
    HeredocPieces fuel cg ctx scope rest st2 pieces st' ->
    HeredocPieces fuel cg ctx scope (f :: rest) st (piece :: pieces) st'
| HeredocPieces_text f rest text st st' pieces :
    HSpaces f = None -> HEscaped f = None -> HInterpolated f = None -> HText f = Some text ->
    HeredocPieces fuel cg ctx scope rest st pieces st' ->
    HeredocPieces fuel cg ctx scope (f :: rest) st (text :: pieces) st'
| HeredocPieces_skip f rest st st' pieces :
    HSpaces f = None -> HEscaped f = None -> HInterpolated f = None -> HText f = None ->
    HeredocPieces fuel cg ctx scope rest st pieces st' ->
    HeredocPieces fuel cg ctx scope (f :: rest) st pieces st'.

Lemma heredocPieces_HeredocPieces fuel cg ctx scope fragments st pieces st' :
  HeredocPieces fuel cg ctx scope fragments st pieces st' ->
  forall gathered,
    heredocPieces (evaluator H fuel) cg ctx scope fragments gathered st
    = (Ok (gathered ++ pieces)%list, st').
Proof.
  induction 1 as [st
                 |f rest spaces st st' pieces Hs _ IH
                 |f rest escaped st st' pieces Hs He Hg _ IH
                 |f rest escaped c st st' pieces Hs He Hg Hc _ IH
                 |f rest expr ret1 ret2 value piece st st1 st2 st' pieces Hs He Hi Hx Hv Hp _ IH
                 |f rest text st st' pieces Hs He Hi Ht _ IH
                 |f rest st st' pieces Hs He Hi Ht _ IH];
    intros gathered; cbn [heredocPieces].
  - now rewrite app_nil_r.
  - rewrite Hs, IH, <- app_assoc. reflexivity.
  - rewrite Hs, He. unfold heredocEscapedPiece. rewrite Hg, Ascii.eqb_refl, IH, <- app_assoc.
    reflexivity.
  - rewrite Hs, He. unfold heredocEscapedPiece. rewrite Hg. apply Ascii.eqb_neq in Hc.
    rewrite Hc, IH, <- app_assoc. reflexivity.
  - rewrite Hs, He, Hi. unfold interpolatedPiece. fold (EmitExpr H fuel).
    rewrite Hx, Hv, Hp, IH, <- app_assoc. reflexivity.
  - rewrite Hs, He, Hi, Ht, IH, <- app_assoc. reflexivity.
  - rewrite Hs, He, Hi, Ht, IH. reflexivity.
Qed.

Lemma heredocPieces_Ok fuel cg ctx scope fragments :
  forall gathered st all st',
    heredocPieces (evaluator H fuel) cg ctx scope fragments gathered st = (Ok all, st') ->
    exists pieces,
      all = (gathered ++ pieces)%list /\ HeredocPieces fuel cg ctx scope fragments st pieces st'.
Proof.
  induction fragments as [|f rest IH]; intros gathered st all st'; cbn [heredocPieces].
  - intros [= <- <-]. exists []. split; [now rewrite app_nil_r | constructor].
  - destruct (HSpaces f) as [spaces|] eqn:Hs.
    { intros E. apply IH in E as (pieces & -> & HP). exists (spaces :: pieces).
      split; [now rewrite <- app_assoc | now apply HeredocPieces_spaces]. }
    destruct (HEscaped f) as [escaped|] eqn:He.
    { unfold heredocEscapedPiece. destruct (String.get 1 escaped) as [c|] eqn:Hg; [|discriminate].
      destruct (Ascii.eqb c DOLLAR) eqn:Hc.
      - apply Ascii.eqb_eq in Hc. subst c.
        intros E. apply IH in E as (pieces & -> & HP). exists ("$" :: pieces).
        split; [now rewrite <- app_assoc | now apply HeredocPieces_dollar with (escaped := escaped)].
      - apply Ascii.eqb_neq in Hc.
        intros E. apply IH in E as (pieces & -> & HP). exists (escaped :: pieces).
        split; [now rewrite <- app_assoc | now apply HeredocPieces_escaped with (c := c)]. }
    destruct (HInterpolated f) as [expr|] eqn:Hi.
    { unfold interpolatedPiece. fold (EmitExpr H fuel).
      destruct (EmitExpr H fuel cg ctx scope expr [] [] None NewRegister st)
        as [[[[]|e|a] ret1] st1] eqn:Hx; try discriminate.
      destruct (Register_Value ret1 st1) as [[[value|e|a] ret2] st2] eqn:Hv; try discriminate.
      destruct (Value_String value) as [piece|e|a] eqn:Hp; try discriminate.
      intros E. apply IH in E as (pieces & -> & HP). exists (piece :: pieces).
      split; [now rewrite <- app_assoc | eapply HeredocPieces_interpolated; eassumption]. }
    destruct (HText f) as [text|] eqn:Ht.
    { intros E. apply IH in E as (pieces & -> & HP). exists (text :: pieces).
      split; [now rewrite <- app_assoc | now apply HeredocPieces_text]. }
    intros E. apply IH in E as (pieces & -> & HP). exists pieces.
    split; [reflexivity | now apply HeredocPieces_skip].
Qed.

(** [EmitHeredoc] succeeds exactly when its fragments give their pieces
    in order, and it then sets the register to the text
    [emitHeredocPieces] makes of them: spaces are kept, an escaped dollar
    is a dollar, every other escape stays as it is written (it is not
    decoded, as it is in a string literal), an interpolation is the
    string its expression evaluates to. *)
Theorem heredoc_pieces_in_order :
  forall fuel cg ctx scope heredoc ret st ret' st',
    EmitHeredoc H (S fuel) cg ctx scope heredoc ret st = (Ok tt, ret', st')
    <-> exists pieces,
          HeredocPieces fuel cg ctx scope (Heredoc_Fragments heredoc) st pieces st'
          /\ ret' = Register_Set
                      (VString (heredocText (Heredoc_Start heredoc) (Heredoc_Terminate heredoc)
                                  pieces)) ret.
Proof.
  intros fuel cg ctx scope heredoc ret st ret' st'. rewrite EmitHeredoc_S.
  unfold EmitHeredoc_of, emitHeredocPieces. split.
  - destruct (heredocPieces (evaluator H fuel) cg ctx scope (Heredoc_Fragments heredoc) [] st)
      as [[all|e|a] st1] eqn:E; try discriminate.
    intros [= <- <-]. apply heredocPieces_Ok in E as (pieces & -> & HP).
    exists pieces. split; [exact HP | reflexivity].
  - intros (pieces & HP & ->).
    now rewrite (heredocPieces_HeredocPieces _ _ _ _ _ _ _ _ HP []).
Qed.

(** *** Literals ([EmitBasicLit], [EmitRawHeredoc]) *)

(** The value of a literal that holds no interpreted string and no
    heredoc with fragments to evaluate: the first form it has decides. *)
Definition constantLiteral (lit : BasicLit) : option Value :=
  match Decimal lit, Numeric lit, Bool_ lit, Str lit, RawString lit,
        Heredoc_ lit, RawHeredoc_ lit with
  | Some d, _, _, _, _, _, _ => Some (VInt d)
  | None, Some n, _, _, _, _, _ => Some (VInt n)
  | None, None, Some t, _, _, _, _ => Some (VBool t)
  | None, None, None, None, Some text, _, _ => Some (VString text)
  | None, None, None, None, None, None, Some raw =>
      Some (VString (heredocText (RawHeredoc_Start raw)
                       ("`" ++ RawHeredoc_Terminate raw ++ "`")
                       (rawHeredocPieces (RawHeredoc_Fragments raw))))
  | _, _, _, _, _, _, _ => None
  end.

Lemma EmitBasicLit_constant fuel cg ctx scope lit v ret st :
  constantLiteral lit = Some v ->
  EmitBasicLit H (S fuel) cg ctx scope lit ret st = (Ok tt, Register_Set v ret, st).
Proof.
  rewrite EmitBasicLit_S. unfold constantLiteral, EmitBasicLit_of, EmitRawHeredoc, emitHeredocPieces.
  destruct (Decimal lit); [now intros [= <-]|].
  destruct (Numeric lit); [now intros [= <-]|].
  destruct (Bool_ lit); [now intros [= <-]|].
  destruct (Str lit); [discriminate|].
  destruct (RawString lit); [now intros [= <-]|].
  destruct (Heredoc_ lit); [discriminate|].
  destruct (RawHeredoc_ lit); [now intros [= <-] | discriminate].
Qed.

(** A literal that is a number, a boolean, a raw string or a raw heredoc
    evaluates to its value and nothing else happens: as an argument,
    [Evaluate] returns that value in the state it was given. *)
Theorem constant_literal_evaluates_to_its_value :
  forall fuel cg ctx scope b kind expr lit v st,
    FuncLit_ expr = None ->
    BasicLit_ expr = Some lit ->
    constantLiteral lit = Some v ->
    Evaluate H (S (S (S fuel))) cg ctx scope b [kind] [expr] st = (Ok [v], st).
Proof.
  intros fuel cg ctx scope b kind expr lit v st Hf Hl Hv.
  rewrite Evaluate_S. unfold Evaluate_of. cbn [length Nat.eqb negb evaluateEach].
  fold (EmitExpr H (S (S fuel))). rewrite EmitExpr_S. unfold EmitExpr_of. rewrite Hf, Hl.
  fold (EmitBasicLit H (S fuel)). rewrite (EmitBasicLit_constant _ _ _ _ _ v _ _ Hv).
  reflexivity.
Qed.

(** *** Expressions and the register ([EmitExpr]) *)

(** [EmitExpr] never looks at the register it is given, a call
    expression is only deferred, and an expression that is no function
    literal, no literal and no call is an internal error. *)
Theorem expression_emission_defers :
  (forall fuel cg ctx scope expr args opts b st,
      exists r q st',
        forall ret,
          EmitExpr H fuel cg ctx scope expr args opts b ret st = (r, pushes q ret, st'))
  /\ (forall fuel cg ctx scope expr call args opts b ret st,
        FuncLit_ expr = None -> BasicLit_ expr = None -> CallExpr_ expr = Some call ->
        EmitExpr H (S fuel) cg ctx scope expr args opts b ret st
        = (Ok tt,
           Register_SetAsync
             (callExprAsync (evaluator H fuel) cg (WithProgramCounter ctx (NodeExpr expr))
                scope call) ret,
           st))
  /\ (forall fuel cg ctx scope expr args opts b ret st,
        FuncLit_ expr = None -> BasicLit_ expr = None -> CallExpr_ expr = None ->
        EmitExpr H (S fuel) cg ctx scope expr args opts b ret st
        = (Err (InternalError (NodeExpr expr) "invalid expr" []), ret, st)).
Proof.
  split; [|split].
  - intros fuel cg ctx scope expr args opts b.
    apply (appending_Expr _ (appending_evaluator H fuel)).
  - intros fuel cg ctx scope expr call args opts b ret st Hf Hl Hc.
    rewrite EmitExpr_S. unfold EmitExpr_of. now rewrite Hf, Hl, Hc.
  - intros fuel cg ctx scope expr args opts b ret st Hf Hl Hc.
    rewrite EmitExpr_S. unfold EmitExpr_of. now rewrite Hf, Hl, Hc.
Qed.

(** *** Call statements ([EmitCallStmt]) *)

Lemma breakpointArgs_strings (command : list string) :
  breakpointArgs (T:=T) (map VString command) = Ok command.
Proof.
  induction command as [|s command IH]; cbn [map breakpointArgs]; [reflexivity|].
  cbn. now rewrite IH.
Qed.

Lemma breakpointArgs_cases (args : list Value) :
  (exists command, args = map VString command /\ breakpointArgs args = Ok command)
  \/ ((exists arg, arg ∈ args /\ Value_Kind arg <> KString)
      /\ breakpointArgs args = Err (ErrorString "breakpoint args must be strings")).
Proof.
  induction args as [|arg args IH].
  - left. now exists [].
  - cbn [breakpointArgs].
    destruct arg as [|n|t|s|fs|o|p|e];
      try (right; split; [eexists; split; [left|]; cbn; discriminate | reflexivity]).
    cbn. destruct IH as [(command & -> & ->)|((arg & Hin & Hk) & ->)].
    + left. now exists (s :: command).
    + right. split; [|reflexivity]. exists arg. split; [now right | exact Hk].
Qed.

(** The command of a breakpoint is made of its arguments, which all have
    to be strings: a breakpoint with string arguments adds one command
    with them, in order, after the options of the call; one without
    arguments adds nothing; any other argument (an error value too) is
    reported as [breakpoint args must be strings]; and for a call that is
    no breakpoint the arguments are not looked at. *)
Theorem breakpoint_command_from_string_arguments :
  (forall ctx call args opts,
      Breakpoint H call (ReturnType ctx) = false ->
      breakpointOptions H ctx call args opts = Ok opts)
  /\ (forall ctx call command opts,
        Breakpoint H call (ReturnType ctx) = true ->
        breakpointOptions H ctx call (map VString command) opts
        = Ok (match command with
              | [] => opts
              | _ => (opts ++ [breakpointCommand command])%list
              end))
  /\ (forall ctx call args opts arg,
        Breakpoint H call (ReturnType ctx) = true ->
        arg ∈ args ->
        Value_Kind arg <> KString ->
        breakpointOptions H ctx call args opts
        = Err (ErrorString "breakpoint args must be strings"))
  /\ (forall args command,
        breakpointArgs (T:=T) args = Ok command <-> args = map VString command).
Proof.
  split; [|split; [|split]].
  - intros ctx call args opts Hb. unfold breakpointOptions. now rewrite Hb.
  - intros ctx call command opts Hb. unfold breakpointOptions.
    rewrite Hb, breakpointArgs_strings. now destruct command.
  - intros ctx call args opts arg Hb Hin Hk. unfold breakpointOptions. rewrite Hb.
    destruct (breakpointArgs_cases args) as [(command & -> & _)|(_ & ->)]; [|reflexivity].
    exfalso. apply Hk. apply list_elem_of_fmap in Hin as (s & -> & _). reflexivity.
  - intros args command. split.
    + intros E. destruct (breakpointArgs_cases args) as [(command' & -> & E')|(_ & E')];
        congruence.
    + intros ->. apply breakpointArgs_strings.
Qed.

Lemma Frames_WithArgs (ctx : Ctx) (i : nat) (args : list Expr) :
  Frames (WithArgs ctx i args) = Frames ctx
  /\ ReturnType (WithArgs ctx i args) = ReturnType ctx.
Proof.
  revert ctx i. induction args as [|arg args IH]; intros ctx i; cbn [WithArgs]; [now split|].
  destruct (IH (WithArg ctx i arg) (S i)) as [-> ->]. now split.
Qed.

(** The binding a call statement hands on: its own, if the statement is
    the one the binding was made at. *)
Definition passedBinding (call : CallStmt) (b : option Binding) : option Binding :=
  match b, BindClause_ call with
  | Some b', Some clause =>
      if bool_decide (BindClause_Pos clause = BindClause_Pos (Bind b')) then Some b' else None
  | _, _ => None
  end.

(** The context a call statement resolves its name in. *)
Definition callStmtContext (ctx : Ctx) (call : CallStmt) : Ctx :=
  WithProgramCounter (WithArgs (WithFrame ctx (CallStmt_Name call)) 0 (CallStmt_Args call))
    (NodeIdentExpr (CallStmt_Name call)).

(** A call statement whose name is a built-in: once its arguments and
    options are evaluated and the debugger has let it pass, the built-in
    is deferred on the register, with the arguments, the options and the
    frame of the call added to the frames of the caller; so an error of
    the callable comes back with a backtrace that ends with this call. *)
Theorem call_statement_defers_builtin :
  forall fuel cg ctx scope call b ret st args st1 opts st2 opts' st3 holder obj bd,
    let frame := WithFrame ctx (CallStmt_Name call) in
    let inner := WithArgs frame 0 (CallStmt_Args call) in
    Evaluate H (S fuel) cg frame scope None (CallStmt_Signature call) (CallStmt_Args call) st
    = (Ok args, st1) ->
    withOptions (evaluator H (S fuel)) cg inner scope call b st1 = (Ok opts, st2) ->
    breakpointOptions H inner call args opts = Ok opts' ->
    Debug cg inner scope (NodeIdentExpr (CallStmt_Name call)) opts' st2 = (Ok tt, st3) ->
    Lookup st3 scope (Text (Ident_ (CallStmt_Name call))) = Some (holder, obj) ->
    Object_Node obj = NodeBuiltinDecl bd ->
    EmitCallStmt H (S (S fuel)) cg ctx scope call b ret st
    = (Ok tt,
       Register_SetAsync
         (builtinAsync H cg (callStmtContext ctx call) scope bd args opts' (passedBinding call b))
         ret,
       st3)
    /\ Frames (callStmtContext ctx call) = (Frames ctx ++ [CallStmt_Name call])%list
    /\ ReturnType (callStmtContext ctx call) = ReturnType ctx
    /\ (forall c ins v st4 out err w,
           dispatches H (callStmtContext ctx call) bd args c ins ->
           Method_Call c (callContext (callStmtContext ctx call) (passedBinding call b)) (cln cg) v
             (opts' ++ map OptSolve (extraSolveOpts cg))%list ins (world st4)
           = (out, Some err, w) ->
           builtinAsync H cg (callStmtContext ctx call) scope bd args opts' (passedBinding call b)
             v st4
           = (Err (BacktraceError (Frames ctx ++ [CallStmt_Name call]) err),
              {| scopes := scopes st4; world := w |})).
Proof.
  intros fuel cg ctx scope call b ret st args st1 opts st2 opts' st3 holder obj bd frame inner
    Hev Hw Hb Hd Hl Hn.
  assert (Hframes : Frames (callStmtContext ctx call) = (Frames ctx ++ [CallStmt_Name call])%list).
  { unfold callStmtContext. cbn [WithProgramCounter Frames].
    now rewrite (proj1 (Frames_WithArgs _ _ _)). }
  split; [|split; [exact Hframes|split]].
  - rewrite EmitCallStmt_S. unfold EmitCallStmt_of. fold frame. fold (Evaluate H (S fuel)).
    rewrite Hev. fold inner. rewrite Hw, Hb, Hd.
    change (rEmitIdentExpr (evaluator H (S fuel))) with (EmitIdentExpr H (S fuel)).
    rewrite EmitIdentExpr_S. unfold EmitIdentExpr_of. rewrite Hl, Hn. reflexivity.
  - unfold callStmtContext. cbn [WithProgramCounter ReturnType].
    now rewrite (proj2 (Frames_WithArgs _ _ _)).
  - intros c ins v st4 out err w Hdis Hcall. unfold builtinAsync.
    rewrite (builtin_invocation_result H cg _ scope bd args opts' _ v st4 c ins Hdis), Hcall.
    unfold callResult, WithBacktraceError.
    assert (Hf : Frames (callContext (callStmtContext ctx call) (passedBinding call b))
                 = Frames (callStmtContext ctx call)) by (now destruct (passedBinding call b)).
    rewrite Hf, Hframes. now destruct out.
Qed.

(** *** Checked callables ([CheckPrototype] and [EmitBuiltinDecl]) *)

(** A callable that is not variadic and that [CheckPrototype] accepts is
    always called with the right number of inputs: with fewer arguments
    than it has parameters after the prototype's the call is refused
    with an internal error, and otherwise the method is called with the
    first arguments, as many as it has such parameters (arguments beyond
    them are ignored). *)
Theorem checked_callable_is_dispatched :
  forall cg ctx scope bd args opts b v st callable c PrototypeOut,
    findCallable H ctx bd = Some callable ->
    CodeGen.Call callable = Some c ->
    CheckPrototype (PrototypeIn H) PrototypeOut (Callable_Type callable) (Some (Method_Type c))
    = Returned None ->
    IsVariadic (Method_Type c) = false ->
    let expected := length (In (Method_Type c)) - length (PrototypeIn H) in
    (length args < expected ->
     EmitBuiltinDecl H cg ctx scope bd args opts b v st
     = (Err (InternalError (ProgramCounter ctx) "`%s` expected %d args, got %d"
               [FmtString (BuiltinDecl_Name bd); FmtInt (Z.of_nat expected);
                FmtInt (Z.of_nat (length args))]), st))
    /\ (forall ins,
          expected <= length args ->
          reflectAll H (take expected args) (drop (length (PrototypeIn H)) (In (Method_Type c)))
          = Ok ins ->
          length ins = expected
          /\ EmitBuiltinDecl H cg ctx scope bd args opts b v st
             = callResult (callContext ctx b) st
                 (Method_Call c (callContext ctx b) (cln cg) v
                    (opts ++ map OptSolve (extraSolveOpts cg))%list ins (world st))).
Proof.
  intros cg ctx scope bd args opts b v st callable c PrototypeOut Hf Hc Hchk Hv expected.
  apply PrototypeProperties.CheckPrototype_nil in Hchk as (Hlen & _).
  assert (Htake : take expected (drop (length (PrototypeIn H)) (In (Method_Type c)))
                  = drop (length (PrototypeIn H)) (In (Method_Type c))).
  { apply take_ge. rewrite length_drop. unfold expected. lia. }
  assert (Hlt : (length (In (Method_Type c)) <? length (PrototypeIn H))%nat = false)
    by (apply Nat.ltb_ge; exact Hlen).
  split.
  - intros Hargs. unfold EmitBuiltinDecl. rewrite Hf, Hc, Hv, Hlt. fold expected.
    apply Nat.ltb_lt in Hargs. rewrite Hargs. now destruct b.
  - intros ins Hargs Hr. split.
    + apply reflectAll_length in Hr. rewrite Hr, length_take, length_drop.
      unfold expected. lia.
    + unfold EmitBuiltinDecl. rewrite Hf, Hc, Hv, Hlt. fold expected.
      apply Nat.ltb_ge in Hargs. rewrite Hargs, Htake, Hr, app_nil_r. reflexivity.
Qed.

End WithHost.

(** A numeric literal as an argument. *)
Definition sevenLit : BasicLit := mkBasicLit None (Some 7%Z) None None None None None.

Lemma constant_literal_evaluates_to_its_value_witness :
  constantLiteral (T:=Demo.T) sevenLit = Some (VInt 7)
  /\ Evaluate Demo.host 3 Demo.cg Demo.background 0 None [KInt]
       [mkExpr None (Some sevenLit) None] Demo.initial
     = (Ok [VInt 7], Demo.initial).
Proof.
  split; [reflexivity|].
  exact (constant_literal_evaluates_to_its_value Demo.host 0 Demo.cg Demo.background 0 None KInt
           (mkExpr None (Some sevenLit) None) sevenLit (VInt 7) Demo.initial
           eq_refl eq_refl eq_refl).
Defined.

(** [image "alpine" "extra"]: a call of a built-in that takes one
    argument, with two. *)
Definition imageDecl : BuiltinDecl := {| BuiltinDecl_Name := "image"; Kinds := [KFilesystem] |}.

Definition imageMethod : @Method Demo.T :=
  match CodeGen.Call Demo.Image with
  | Some c => c
  | None => @Build_Method Demo.T (Demo.callType [] false) (fun _ _ _ _ _ w => (None, None, w))
  end.

Definition filesystemContext : @Ctx Demo.T := WithReturnType Demo.background KFilesystem.

Lemma checked_callable_is_dispatched_witness :
  CheckPrototype Demo.prototypeIn Demo.prototypeOut "codegen.Image"
    (Some (Method_Type imageMethod)) = Returned None
  /\ EmitBuiltinDecl Demo.host Demo.cg filesystemContext 0 imageDecl [] [] None VZero Demo.initial
     = (Err (InternalError NodeNil "`%s` expected %d args, got %d"
               [FmtString "image"; FmtInt 1; FmtInt 0]), Demo.initial)
  /\ EmitBuiltinDecl Demo.host Demo.cg filesystemContext 0 imageDecl
       [VString "alpine"; VString "extra"] [] None VZero Demo.initial
     = (Ok (VFilesystem (T:=Demo.T) ["image alpine"]),
        {| scopes := scopes Demo.initial; world := ["image alpine with []"] |}).
Proof.
  assert (Hchk : CheckPrototype (PrototypeIn Demo.host) Demo.prototypeOut
                   (Callable_Type Demo.Image) (Some (Method_Type imageMethod)) = Returned None)
    by (vm_compute; reflexivity).
  split; [exact Hchk|]. split.
  - refine (proj1 (checked_callable_is_dispatched Demo.host Demo.cg filesystemContext 0 imageDecl
                     [] [] None VZero Demo.initial Demo.Image imageMethod Demo.prototypeOut
                     eq_refl eq_refl Hchk eq_refl) _).
    cbn. lia.
  - refine (proj2 (proj2 (checked_callable_is_dispatched Demo.host Demo.cg filesystemContext 0 imageDecl
                     [VString "alpine"; VString "extra"] [] None VZero Demo.initial Demo.Image
                     imageMethod Demo.prototypeOut eq_refl eq_refl Hchk eq_refl)
                     ["alpine"] _ eq_refl)).
    cbn. lia.
Defined.

(** The statement [run;] in a block of filesystems, on a register that
    holds no filesystem: the callable fails. *)
Definition runStmt : CallStmt := mkCallStmt (NewIdentExpr "run") [] [] None None.

Definition runBuiltin : BuiltinDecl := {| BuiltinDecl_Name := "run"; Kinds := [KFilesystem] |}.

Lemma call_statement_defers_builtin_witness :
  EmitCallStmt Demo.host 2 Demo.cg filesystemContext 0 runStmt None NewRegister Demo.initial
  = (Ok tt,
     Register_SetAsync
       (builtinAsync Demo.host Demo.cg (callStmtContext filesystemContext runStmt) 0 runBuiltin [] []
          (passedBinding runStmt None)) NewRegister,
     Demo.initial)
  /\ Frames (callStmtContext filesystemContext runStmt) = [NewIdentExpr "run"]
  /\ builtinAsync Demo.host Demo.cg (callStmtContext filesystemContext runStmt) 0 runBuiltin [] []
       (passedBinding runStmt None) VZero Demo.initial
     = (Err (BacktraceError [NewIdentExpr "run"] (HostError "run: no filesystem")),
        {| scopes := scopes Demo.initial; world := ["run  with []"] |}).
Proof.
  pose proof (call_statement_defers_builtin Demo.host 0 Demo.cg filesystemContext 0 runStmt None
                NewRegister Demo.initial [] Demo.initial [] Demo.initial [] Demo.initial
                0 (Demo.builtinObject "run" [KFilesystem]) runBuiltin
                eq_refl eq_refl eq_refl eq_refl eq_refl eq_refl) as (He & Hf & _ & Herr).
  split; [exact He|]. split; [exact Hf|].
  refine (Herr (@Build_Method Demo.T (Demo.callType [TSlice Demo.tString] true) Demo.runCall)
            [] VZero Demo.initial None (HostError "run: no filesystem") ["run  with []"] _ eq_refl).
  exists Demo.Run, [], []. repeat split; try reflexivity; cbn; lia.
Defined.

(** A function [f(string a, string b)] called with two arguments. *)
Definition twoParams : FuncDecl :=
  mkFuncDecl (Demo.ident "f")
    [ {| Modifier := None; Field_Kind := KString; Field_Name := Demo.ident "a" |};
      {| Modifier := None; Field_Kind := KString; Field_Name := Demo.ident "b" |} ]
    0 None.

Lemma call_binds_parameters_witness :
  Lookup (snd (callScope twoParams [VString "x"; VString "y"] Demo.initial))
    (fst (callScope twoParams [VString "x"; VString "y"] Demo.initial)) "b"
  = Some (2, paramObject {| Modifier := None; Field_Kind := KString;
                            Field_Name := Demo.ident "b" |} (VString (T:=Demo.T) "y"))
  /\ Lookup (snd (callScope twoParams [VString "x"; VString "y"] Demo.initial))
       (fst (callScope twoParams [VString "x"; VString "y"] Demo.initial)) "x"
     = Lookup Demo.initial 0 "x".
Proof.
  split.
  - refine (proj1 (call_binds_parameters Demo.host) twoParams [VString "x"; VString "y"]
              Demo.initial 1
              {| Modifier := None; Field_Kind := KString; Field_Name := Demo.ident "b" |}
              (VString "y") eq_refl eq_refl eq_refl _).
    intros j q Hj Hq Hlen. cbn in Hlen. lia.
  - refine (proj1 (proj2 (call_binds_parameters Demo.host)) twoParams
              [VString "x"; VString "y"] Demo.initial "x"
              (0, Demo.funcObject Demo.xDecl KString) _ _).
    + intros [|[|j]] q Hq Hlen Hm; cbn in Hq, Hlen; try lia; injection Hq as <-; discriminate.
    + vm_compute. reflexivity.
Defined.

End GeneratorProperties.

(** ** The generator of the built-in lookup table ([builtin/gen]) *)

Module gen.
Import GoStrings ast.

(** [parser.FuncDecl], as [GenerateBuiltins] reads it: [fun.Type.Kind],
    [fun.Name.Text], [fun.Params.Fields()], and [fun.Effects], which may
    be nil, as may be [fun.Effects.Effects]. *)
Record EffectsClause : Type := {
  Effects_Effects : option (list Field)
}.

Record FuncDecl : Type := {
  Func_Kind : Kind;
  Func_Name : string;
  Func_Params : list Field;
  Func_Effects : option EffectsClause
}.

(** [parser.Decl]: a declaration is a function or something else. *)
Record Decl : Type := {
  Decl_Func : option FuncDecl
}.

Record ParsedFunc : Type := {
  Name : string;
  Params : list Field;
  Effects : list Field
}.

(** [var effects []*parser.Field; if fun.Effects != nil &&
    fun.Effects.Effects != nil { effects = fun.Effects.Effects.Fields() }] *)
Definition effectsOf (fun_ : FuncDecl) : list Field :=
  match Func_Effects fun_ with
  | Some {| Effects_Effects := Some fields |} => fields
  | _ => []
  end.

Definition parsedFunc (fun_ : FuncDecl) : ParsedFunc :=
  {| Name := Func_Name fun_; Params := Func_Params fun_; Effects := effectsOf fun_ |}.

(** [for _, decl := range mod.Decls { ... funcsByKind[kind] =
    append(funcsByKind[kind], ParsedFunc{...}) }], from the map built so
    far. *)
Fixpoint groupFuncs (decls : list Decl) (funcsByKind : gmap string (list ParsedFunc))
  : gmap string (list ParsedFunc) :=
  match decls with
  | [] => funcsByKind
  | decl :: rest =>
      match Decl_Func decl with
      | None => groupFuncs rest funcsByKind
      | Some fun_ =>
          let kind := Func_Kind fun_ in
          groupFuncs rest
            (<[kind := (default [] (funcsByKind !! kind) ++ [parsedFunc fun_])%list]> funcsByKind)
      end
  end.

(** [funcsByKind], as [GenerateBuiltins] hands it to the template. *)
Definition FuncsByKind (decls : list Decl) : gmap string (list ParsedFunc) :=
  groupFuncs decls ∅.

End gen.

Module genProperties.
Import GoStrings ast gen.

(** The functions of kind [kind] among the declarations, in order. *)
Definition funcsOfKind (kind : string) (decls : list Decl) : list FuncDecl :=
  filter (fun fun_ => Func_Kind fun_ = kind) (omap Decl_Func decls).

Lemma groupFuncs_lookup (decls : list Decl) (acc : gmap string (list ParsedFunc)) (kind : string) :
  default [] (groupFuncs decls acc !! kind)
  = (default [] (acc !! kind) ++ map parsedFunc (funcsOfKind kind decls))%list.
Proof.
  revert acc. induction decls as [|decl rest IH]; intros acc; cbn [groupFuncs].
  - unfold funcsOfKind. cbn. now rewrite app_nil_r.
  - unfold funcsOfKind. cbn [omap list_omap]. destruct (Decl_Func decl) as [fun_|].
    + rewrite IH. fold (funcsOfKind kind rest). rewrite filter_cons.
      destruct (decide (Func_Kind fun_ = kind)) as [<-|Hne].
      * rewrite lookup_insert_eq. cbn [from_option map id]. unfold funcsOfKind.
        now rewrite <- app_assoc.
      * now rewrite lookup_insert_ne.
    + apply IH.
Qed.

Lemma groupFuncs_is_Some (decls : list Decl) (acc : gmap string (list ParsedFunc)) (kind : string) :
  is_Some (groupFuncs decls acc !! kind)
  <-> is_Some (acc !! kind) \/ funcsOfKind kind decls <> [].
Proof.
  revert acc. induction decls as [|decl rest IH]; intros acc; cbn [groupFuncs].
  - unfold funcsOfKind. cbn. split; [auto | intros [?|?]; [assumption | congruence]].
  - unfold funcsOfKind. cbn [omap list_omap]. destruct (Decl_Func decl) as [fun_|].
    + rewrite IH. fold (funcsOfKind kind rest). rewrite filter_cons.
      destruct (decide (Func_Kind fun_ = kind)) as [<-|Hne].
      * rewrite lookup_insert_eq. split; [intros _; right; discriminate | intros _; left; eauto].
      * now rewrite lookup_insert_ne.
    + apply IH.
Qed.

(** [GenerateBuiltins] lists every function declaration of the module
    once, under the kind it returns, in the order of the declarations,
    with its name, its parameters and its effects (none, if it declares
    none); declarations that are no functions are skipped, and a kind
    without functions has no entry. *)
Theorem builtins_grouped_by_kind :
  forall (decls : list Decl) (kind : string),
    FuncsByKind decls !! kind
    = match funcsOfKind kind decls with
      | [] => None
      | funcs => Some (map parsedFunc funcs)
      end.
Proof.
  intros decls kind. unfold FuncsByKind.
  pose proof (groupFuncs_lookup decls ∅ kind) as Hl.
  pose proof (groupFuncs_is_Some decls ∅ kind) as Hs.
  rewrite lookup_empty in Hl, Hs.
  change (default [] None ++ map parsedFunc (funcsOfKind kind decls))%list
    with (map parsedFunc (funcsOfKind kind decls)) in Hl.
  destruct (groupFuncs decls ∅ !! kind) as [funcs|] eqn:E.
  - change (default [] (Some funcs)) with funcs in Hl. subst funcs.
    destruct (funcsOfKind kind decls) as [|f fs]; [|reflexivity].
    exfalso. destruct (proj1 Hs (ex_intro _ _ eq_refl)) as [[x Hx]|Hne].
    + discriminate Hx.
    + now apply Hne.
  - destruct (funcsOfKind kind decls) as [|f fs]; [reflexivity|].
    exfalso. assert (Hne : f :: fs <> []) by discriminate.
    destruct (proj2 Hs (or_intror Hne)) as [x Hx]. discriminate Hx.
Qed.

End genProperties.

(** ** What evaluation leaves in place *)

Module FrameProperties.
Import GoStrings Reflect ast CodeGen CodeGenProperties ImportProperties GeneratorProperties.

Section WithHost.

Context {T : HostTypes} (H : @Host T).

(** *** The writes of the generator, for any relation they respect *)

Section Relation.

(** A relation between the state before and the state after that holds
    across each of the writes of the generator: the calls of the host,
    which only change the world; the scope of a call with its
    parameters; the scopes of an imported module, stored at new
    addresses; the module set on the object of an import. *)
Variable R : State -> State -> Prop.

Hypothesis R_refl : forall st, R st st.
Hypothesis R_trans : forall st1 st2 st3, R st1 st2 -> R st2 st3 -> R st1 st3.
Hypothesis R_scopes : forall st st', scopes st' = scopes st -> R st st'.
Hypothesis R_call : forall node parent params args st,
    R st (insertParams (fst (NewScope node parent st)) params args (snd (NewScope node parent st))).
Hypothesis R_store : forall st parsed w e m built w1 w',
    SemanticPass H (nextScope (scopes st)) parsed w = (e, m, built, w1) ->
    R st {| scopes := storeScopes (nextScope (scopes st)) built (scopes st); world := w' |}.
Hypothesis R_install : forall st st1 holder name obj n m,
    holds st holder name obj ->
    Object_Node obj = NodeImportDecl n ->
    R st st1 ->
    R st (setData holder name (DModule m) st1).

Lemma openImport_related (ctx : Ctx) (id : ImportDecl) (dir : Directory T) (filename : string)
    (st : State) r (st' : State) :
  openImport H ctx id dir filename st = (r, st') -> R st st'.
Proof.
  unfold openImport.
  destruct (Directory_Open H dir filename (world st)) as [[rc|err|a] w].
  - destruct (Parse H ctx rc w) as [[parsed|e|a] w1].
    + destruct (SemanticPass H _ _ w1) as [[[[e|] m] built] w2] eqn:Es.
      * intros [= <- <-]. now apply R_scopes.
      * destruct (Check H _ m _) as [[e|] w3] eqn:Ec; intros [= <- <-];
          eapply (R_store st); exact Es.
    + intros [= <- <-]. now apply R_scopes.
    + intros [= <- <-]. now apply R_scopes.
  - destruct (negb (IsNotExist err)); [intros [= <- <-]; now apply R_scopes|].
    destruct (DeprecatedPath id); [intros [= <- <-]; now apply R_scopes|].
    destruct (FuncLit_ (ImportDecl_Expr id)); intros [= <- <-]; now apply R_scopes.
  - intros [= <- <-]. now apply R_scopes.
Qed.

(** *** Registers whose closures respect the relation *)

Definition relAsync (f : Async) : Prop :=
  forall v st r st', f v st = (r, st') -> R st st'.

Definition relReg (ret : Register) : Prop := Forall relAsync (deferred ret).

Lemma relReg_New : relReg NewRegister.
Proof. constructor. Qed.

Lemma relReg_SetAsync (f : Async) (ret : Register) :
  relAsync f -> relReg ret -> relReg (Register_SetAsync f ret).
Proof. intros Hf Hr. apply Forall_app. split; [exact Hr | now constructor]. Qed.

Lemma relReg_Set (v : Value) (ret : Register) : relReg ret -> relReg (Register_Set v ret).
Proof.
  apply relReg_SetAsync. intros v0 st r st' [= <- <-]. apply R_refl.
Qed.

Lemma force_related (q : list Async) (v : Value) (st : State) r (st' : State) :
  Forall relAsync q -> force q v st = (r, st') -> R st st'.
Proof.
  intros Hq. revert v st. induction Hq as [|f q Hf _ IH]; intros v st; cbn [force].
  - intros [= <- <-]. apply R_refl.
  - destruct (isError v); [intros [= <- <-]; apply R_refl|].
    destruct (f v st) as [[v1|e|a] st1] eqn:Ef; apply Hf in Ef.
    + intros E. apply IH in E. eapply R_trans; eauto.
    + now intros [= <- <-].
    + now intros [= <- <-].
Qed.

Lemma Register_Value_related (ret : Register) (st : State) r (ret' : Register) (st' : State) :
  relReg ret -> Register_Value ret st = (r, ret', st') -> R st st' /\ relReg ret'.
Proof.
  intros Hg. unfold Register_Value.
  destruct (force (deferred ret) (held ret) st) as [[v|e|a] st1] eqn:E;
    apply (force_related _ _ _ _ _ Hg) in E; intros [= <- <- <-]; split; auto. constructor.
Qed.

(** A function that emitsIn into a register, and one that does not. *)
Definition emitsIn (emit : Register -> State -> Emitted) : Prop :=
  forall ret st r ret' st',
    relReg ret -> emit ret st = (r, ret', st') -> R st st' /\ relReg ret'.

Definition runsIn {A : Type} (f : State -> Res A * State) : Prop :=
  forall st r st', f st = (r, st') -> R st st'.

Record respects (rec : Evaluator) : Prop := {
  respects_Expr : forall cg ctx scope expr args opts b,
      emitsIn (rEmitExpr rec cg ctx scope expr args opts b);
  respects_FuncLit : forall cg ctx scope lit b, emitsIn (rEmitFuncLit rec cg ctx scope lit b);
  respects_BasicLit : forall cg ctx scope lit, emitsIn (rEmitBasicLit rec cg ctx scope lit);
  respects_StringLit : forall cg ctx scope str, emitsIn (rEmitStringLit rec cg ctx scope str);
  respects_Heredoc : forall cg ctx scope heredoc, emitsIn (rEmitHeredoc rec cg ctx scope heredoc);
  respects_CallExpr : forall cg ctx scope call, emitsIn (rEmitCallExpr rec cg ctx scope call);
  respects_IdentExpr : forall cg ctx scope ie lookup args opts b,
      emitsIn (rEmitIdentExpr rec cg ctx scope ie lookup args opts b);
  respects_Import : forall cg ctx mod_ id, runsIn (rEmitImport rec cg ctx mod_ id);
  respects_FuncDecl : forall cg ctx fun_ args b, emitsIn (rEmitFuncDecl rec cg ctx fun_ args b);
  respects_Binding : forall cg ctx b args, emitsIn (rEmitBinding rec cg ctx b args);
  respects_lookupCall : forall cg ctx scope lookup, runsIn (rlookupCall rec cg ctx scope lookup);
  respects_Block : forall cg ctx scope block b, emitsIn (rEmitBlock rec cg ctx scope block b);
  respects_CallStmt : forall cg ctx scope call b, emitsIn (rEmitCallStmt rec cg ctx scope call b);
  respects_Evaluate : forall cg ctx scope b kinds exprs,
      runsIn (rEvaluate rec cg ctx scope b kinds exprs)
}.

Lemma respects_exhausted : respects exhausted.
Proof.
  split; cbn; try (intros; intros ret st r ret' st' Hg [= <- <- <-]; split;
                   [apply R_refl | exact Hg]);
    try (intros; intros st r st' [= <- <-]; apply R_refl).
Qed.

(** A linked of steps that keep the modules keeps them. *)
Ltac linked :=
  lazymatch goal with
  | |- R ?a ?a => apply R_refl
  | |- _ =>
      first [ eassumption
            | multimatch goal with
              | Hk : R ?a ?b |- R ?a _ => apply (R_trans a b); [exact Hk | linked]
              end ]
  end.

(** An error or a panic returns at once. *)
Ltac stopped :=
  first [ intros [= <- <- <-]; split; [linked | first [assumption | constructor]]
        | intros [= <- <-]; linked ].

Section Callees.

Variable rec : Evaluator.
Hypothesis Hrec : respects rec.

Lemma returnValue_related (r : Res unit) (ret : Register) (st0 st : State) r' (st' : State) :
  R st0 st -> relReg ret -> returnValue (r, ret, st) = (r', st') -> R st0 st'.
Proof.
  intros Hk Hg. unfold returnValue.
  destruct (Register_Value ret st) as [[rv ret1] st1] eqn:Ev.
  apply (Register_Value_related _ _ _ _ _ Hg) in Ev as [Hk1 _].
  destruct r as [u|e|a]; destruct rv as [v|e'|a']; intros [= <- <-]; linked.
Qed.

Lemma callExprAsync_related cg ctx scope call : relAsync (callExprAsync rec cg ctx scope call).
Proof.
  intros v st r st'. unfold callExprAsync.
  destruct (rlookupCall rec cg ctx scope _ st) as [[u|e|a] st1] eqn:El;
    apply (respects_lookupCall _ Hrec) in El; try stopped.
  destruct (rEmitCallExpr rec cg ctx scope call _ st1) as [[r1 ret1] st2] eqn:Ee.
  apply (respects_CallExpr _ Hrec) in Ee as [Hk Hg]; [|apply relReg_Set, relReg_New].
  intros E. eapply returnValue_related in E; [exact E | linked | exact Hg].
Qed.

Lemma callStmtAsync_related cg ctx scope call b : relAsync (callStmtAsync rec cg ctx scope call b).
Proof.
  intros v st r st'. unfold callStmtAsync.
  destruct (rlookupCall rec cg ctx scope _ st) as [[u|e|a] st1] eqn:El;
    apply (respects_lookupCall _ Hrec) in El; try stopped.
  destruct (rEmitCallStmt rec cg ctx scope call b _ st1) as [[r1 ret1] st2] eqn:Ee.
  apply (respects_CallStmt _ Hrec) in Ee as [Hk Hg]; [|apply relReg_Set, relReg_New].
  intros E. eapply returnValue_related in E; [exact E | linked | exact Hg].
Qed.

Lemma builtinAsync_related cg ctx scope n args opts b :
  relAsync (builtinAsync H cg ctx scope n args opts b).
Proof.
  intros v st r st' E. apply EmitBuiltinDecl_scopes in E. now apply R_scopes.
Qed.

Lemma interpolatedPiece_runsIn cg ctx scope expr : runsIn (interpolatedPiece rec cg ctx scope expr).
Proof.
  intros st r st'. unfold interpolatedPiece.
  destruct (rEmitExpr rec cg ctx scope expr [] [] None NewRegister st) as [[r1 ret1] st1] eqn:Ee.
  apply (respects_Expr _ Hrec) in Ee as [Hk Hg]; [|apply relReg_New].
  destruct r1 as [u|e|a]; try stopped.
  destruct (Register_Value ret1 st1) as [[rv ret2] st2] eqn:Ev.
  apply (Register_Value_related _ _ _ _ _ Hg) in Ev as [Hk1 _].
  destruct rv as [value|e|a]; try stopped.
  destruct (Value_String value); stopped.
Qed.

Lemma stringPieces_runsIn cg ctx scope fragments pieces :
  runsIn (stringPieces rec cg ctx scope fragments pieces).
Proof.
  revert pieces. induction fragments as [|f rest IH]; intros pieces st r st'; cbn [stringPieces].
  - stopped.
  - destruct (Escaped f) as [escaped|].
    { destruct (escapedPiece escaped); [apply IH | stopped | stopped]. }
    destruct (Interpolated f) as [expr|].
    { destruct (interpolatedPiece rec cg ctx scope expr st) as [[piece|e|a] st1] eqn:Ei;
        apply interpolatedPiece_runsIn in Ei; try stopped.
      intros E. apply IH in E. linked. }
    destruct (Text_ f); apply IH.
Qed.

Lemma heredocPieces_runsIn cg ctx scope fragments pieces :
  runsIn (heredocPieces rec cg ctx scope fragments pieces).
Proof.
  revert pieces. induction fragments as [|f rest IH]; intros pieces st r st'; cbn [heredocPieces].
  - stopped.
  - destruct (HSpaces f); [apply IH|].
    destruct (HEscaped f) as [escaped|].
    { destruct (heredocEscapedPiece escaped); [apply IH | stopped | stopped]. }
    destruct (HInterpolated f) as [expr|].
    { destruct (interpolatedPiece rec cg ctx scope expr st) as [[piece|e|a] st1] eqn:Ei;
        apply interpolatedPiece_runsIn in Ei; try stopped.
      intros E. apply IH in E. linked. }
    destruct (HText f); apply IH.
Qed.

Lemma evaluateEach_runsIn cg ctx scope b kinds exprs values :
  runsIn (evaluateEach rec cg ctx scope b kinds exprs values).
Proof.
  revert ctx kinds values.
  induction exprs as [|expr exprs IH]; intros ctx [|kind kinds] values st r st';
    cbn [evaluateEach]; try stopped.
  destruct (rEmitExpr rec cg _ scope expr [] [] b NewRegister st) as [[r1 ret1] st1] eqn:Ee.
  apply (respects_Expr _ Hrec) in Ee as [Hk Hg]; [|apply relReg_New].
  destruct r1 as [u|e|a]; try stopped.
  destruct (Register_Value ret1 st1) as [[rv ret2] st2] eqn:Ev.
  apply (Register_Value_related _ _ _ _ _ Hg) in Ev as [Hk1 _].
  destruct rv as [value|e|a]; try stopped.
  intros E. apply IH in E. linked.
Qed.

Lemma withOptions_runsIn cg ctx scope call b : runsIn (withOptions rec cg ctx scope call b).
Proof.
  intros st r st'. unfold withOptions. destruct (WithClause call) as [withExpr|]; [|stopped].
  destruct (rEvaluate rec cg ctx scope b _ _ st) as [[values|e|a] st1] eqn:Ee;
    apply (respects_Evaluate _ Hrec) in Ee; try stopped.
  destruct values as [|value values]; [stopped|].
  destruct (Value_Option value); stopped.
Qed.

Lemma emitField_emitsIn ctx obj : emitsIn (emitField ctx obj).
Proof.
  intros ret st r ret' st' Hg. unfold emitField.
  destruct (NewValue ctx (Object_Data obj)) as [val|e|a]; try stopped.
  destruct (negb (String.eqb (Value_Kind val) KOption)).
  { intros [= <- <- <-]. split; [linked | now apply relReg_Set]. }
  destruct (Register_Value ret st) as [[rv ret1] st1] eqn:Ev.
  apply (Register_Value_related _ _ _ _ _ Hg) in Ev as [Hk1 Hg1].
  destruct rv as [current|e|a]; try stopped.
  destruct (negb (String.eqb (Value_Kind current) KOption)).
  { intros [= <- <- <-]. split; [linked | now apply relReg_Set]. }
  destruct (Value_Option current); try stopped.
  destruct (Value_Option val); try stopped.
  intros [= <- <- <-]. split; [linked | now apply relReg_Set].
Qed.

Lemma emitStmts_emitsIn cg ctx scope b stmts : emitsIn (emitStmts rec cg ctx scope b stmts).
Proof.
  induction stmts as [|stmt rest IH]; intros ret st r ret' st' Hg; cbn [emitStmts].
  - stopped.
  - unfold emitStmt. destruct (Call_ stmt) as [call|].
    + intros E. apply IH in E; [exact E|]. apply relReg_SetAsync; [|exact Hg].
      apply callStmtAsync_related.
    + destruct (ExprStmt_ stmt) as [expr|]; [|stopped].
      destruct (rEmitExpr rec cg ctx scope expr [] [] b ret st) as [[r1 ret1] st1] eqn:Ee.
      apply (respects_Expr _ Hrec) in Ee as [Hk Hg1]; [|exact Hg].
      destruct r1 as [u|e|a]; try stopped.
      intros E. apply IH in E as [Hk2 Hg2]; [|exact Hg1]. split; [linked | exact Hg2].
Qed.

Lemma EmitExpr_of_emitsIn cg ctx scope expr args opts b :
  emitsIn (EmitExpr_of rec cg ctx scope expr args opts b).
Proof.
  intros ret st r ret' st' Hg. unfold EmitExpr_of.
  destruct (FuncLit_ expr) as [lit|]; [now apply (respects_FuncLit _ Hrec)|].
  destruct (BasicLit_ expr) as [lit|]; [now apply (respects_BasicLit _ Hrec)|].
  destruct (CallExpr_ expr) as [call|]; [|stopped].
  intros [= <- <- <-]. split; [linked|].
  apply relReg_SetAsync; [apply callExprAsync_related | exact Hg].
Qed.

Lemma EmitBasicLit_of_emitsIn cg ctx scope lit : emitsIn (EmitBasicLit_of rec cg ctx scope lit).
Proof.
  intros ret st r ret' st' Hg. unfold EmitBasicLit_of, EmitRawHeredoc, emitHeredocPieces.
  destruct (Decimal lit); [intros [= <- <- <-]; split; [linked | now apply relReg_Set]|].
  destruct (Numeric lit); [intros [= <- <- <-]; split; [linked | now apply relReg_Set]|].
  destruct (Bool_ lit); [intros [= <- <- <-]; split; [linked | now apply relReg_Set]|].
  destruct (Str lit); [now apply (respects_StringLit _ Hrec)|].
  destruct (RawString lit); [intros [= <- <- <-]; split; [linked | now apply relReg_Set]|].
  destruct (Heredoc_ lit); [now apply (respects_Heredoc _ Hrec)|].
  destruct (RawHeredoc_ lit); [intros [= <- <- <-]; split; [linked | now apply relReg_Set]|].
  stopped.
Qed.

Lemma EmitStringLit_of_emitsIn cg ctx scope str : emitsIn (EmitStringLit_of rec cg ctx scope str).
Proof.
  intros ret st r ret' st' Hg. unfold EmitStringLit_of.
  destruct (stringPieces rec cg ctx scope _ [] st) as [[pieces|e|a] st1] eqn:Ep;
    apply stringPieces_runsIn in Ep; try stopped.
  intros [= <- <- <-]. split; [linked | now apply relReg_Set].
Qed.

Lemma EmitHeredoc_of_emitsIn cg ctx scope heredoc : emitsIn (EmitHeredoc_of rec cg ctx scope heredoc).
Proof.
  intros ret st r ret' st' Hg. unfold EmitHeredoc_of, emitHeredocPieces.
  destruct (heredocPieces rec cg ctx scope _ [] st) as [[pieces|e|a] st1] eqn:Ep;
    apply heredocPieces_runsIn in Ep; try stopped.
  intros [= <- <- <-]. split; [linked | now apply relReg_Set].
Qed.

Lemma EmitCallExpr_of_emitsIn cg ctx scope call : emitsIn (EmitCallExpr_of rec cg ctx scope call).
Proof.
  intros ret st r ret' st' Hg. unfold EmitCallExpr_of.
  destruct (Debug cg _ scope _ [] st) as [[u|e|a] st1] eqn:Ed;
    apply Debug_scopes, R_scopes in Ed; try stopped.
  destruct (rEvaluate rec cg _ scope None _ _ st1) as [[args|e|a] st2] eqn:Ee;
    apply (respects_Evaluate _ Hrec) in Ee; try stopped.
  intros E. apply (respects_IdentExpr _ Hrec) in E as [Hk Hg']; [|exact Hg].
  split; [linked | exact Hg'].
Qed.

Lemma EmitIdentExpr_of_emitsIn cg ctx scope ie lookup args opts b :
  emitsIn (EmitIdentExpr_of H rec cg ctx scope ie lookup args opts b).
Proof.
  intros ret st r ret' st' Hg. unfold EmitIdentExpr_of.
  destruct (Lookup st scope (Text lookup)) as [[holder obj]|]; [|stopped].
  destruct (Object_Node obj) as [|m|bd|fd|bc|id|f|e|ie'|i|s|l|l|k]; try stopped.
  - intros [= <- <- <-]. split; [linked|].
    apply relReg_SetAsync; [apply builtinAsync_related | exact Hg].
  - now apply (respects_FuncDecl _ Hrec).
  - now apply (respects_Binding _ Hrec).
  - destruct (Object_Data obj) as [|v|imod]; try stopped.
    destruct (Reference ie); [|stopped]. now apply (respects_IdentExpr _ Hrec).
  - now apply emitField_emitsIn.
Qed.

Lemma EmitImport_of_runsIn cg ctx mod_ id : runsIn (EmitImport_of H rec cg ctx mod_ id).
Proof.
  intros st r st'. unfold EmitImport_of.
  destruct (rEmitExpr rec cg _ _ _ [] [] None NewRegister st) as [[r1 ret1] st1] eqn:Ee.
  apply (respects_Expr _ Hrec) in Ee as [Hk Hg]; [|apply relReg_New].
  destruct r1 as [u|e|a]; try stopped.
  destruct (Register_Value ret1 st1) as [[rv ret2] st2] eqn:Ev.
  apply (Register_Value_related _ _ _ _ _ Hg) in Ev as [Hk1 _].
  destruct rv as [val|e|a]; try stopped.
  destruct (locateImport H cg _ mod_ id val st2) as [[[[dir|] filename]|e|a] st3] eqn:El;
    apply locateImport_scopes, R_scopes in El; try stopped.
  intros E. apply openImport_related in E. linked.
Qed.

Lemma EmitFuncDecl_of_emitsIn cg ctx fun_ args b : emitsIn (EmitFuncDecl_of rec cg ctx fun_ args b).
Proof.
  intros ret st r ret' st' Hg. unfold EmitFuncDecl_of.
  destruct (negb (length (Params fun_) =? length args)%nat); [stopped|].
  pose proof (R_call (NodeFuncDecl fun_) (FuncDecl_Scope fun_) (Params fun_) args st) as Hn.
  destruct (NewScope (NodeFuncDecl fun_) (FuncDecl_Scope fun_) st) as [scope st1].
  cbn [fst snd] in Hn.
  destruct (Debug cg _ scope _ [] _) as [[u|e|a] st2] eqn:Ed;
    apply Debug_scopes, R_scopes in Ed; try stopped.
  intros E. apply (respects_Block _ Hrec) in E as [Hk Hg']; [|exact Hg].
  split; [linked | exact Hg'].
Qed.

Lemma EmitBinding_of_emitsIn cg ctx b args : emitsIn (EmitBinding_of rec cg ctx b args).
Proof.
  intros ret st r ret' st' Hg. unfold EmitBinding_of.
  destruct (Closure (Bind b)); [now apply (respects_FuncDecl _ Hrec) | stopped].
Qed.

Lemma lookupCall_of_runsIn cg ctx scope lookup : runsIn (lookupCall_of H rec cg ctx scope lookup).
Proof.
  intros st r st'. unfold lookupCall_of.
  destruct (Lookup st scope (Text lookup)) as [[holder obj]|] eqn:El; [|stopped].
  apply Lookup_holds in El.
  destruct (Object_Node obj) as [|m|bd|fd|bc|id|f|e|ie'|i|s|l|l|k] eqn:En; try stopped.
  assert (Hgo :
    match Root st scope with
    | Some {| Scope_Node := NodeModule mod_ |} =>
        match rEmitImport rec cg ctx mod_ id st with
        | (Err e, st) => (Err e, st)
        | (Abort r, st) => (Abort r, st)
        | (Ok (imod, _), st) =>
            let st := setData holder (Text lookup) (DModule imod) st in
            match CheckReferences H (scopes st) mod_ (Text (ImportDecl_Name id)) (world st) with
            | (Some e, w) => (Err e, {| scopes := scopes st; world := w |})
            | (None, w) => (Ok tt, {| scopes := scopes st; world := w |})
            end
        end
    | _ => (Abort (GoPanic "interface conversion: ast.Node is not *ast.Module"), st)
    end = (r, st') -> R st st').
  { destruct (Root st scope) as [[[|mod_| | | | | | | | | | | |] parent objects]|]; try stopped.
    destruct (rEmitImport rec cg ctx mod_ id st) as [[[imod fn]|e|a] st1] eqn:Ei;
      apply (respects_Import _ Hrec) in Ei; try stopped.
    assert (Hi : R st (setData holder (Text lookup) (DModule imod) st1))
      by (eapply R_install; eauto).
    cbv zeta. destruct (CheckReferences H _ mod_ _ _) as [[e|] w]; intros [= <- <-];
      (eapply R_trans; [exact Hi | now apply R_scopes]). }
  destruct (Object_Data obj) as [|v|imod]; [exact Hgo | exact Hgo | stopped].
Qed.

Lemma EmitBlock_of_emitsIn cg ctx scope block b : emitsIn (EmitBlock_of rec cg ctx scope block b).
Proof.
  intros ret st r ret' st' Hg. unfold EmitBlock_of. destruct block as [block|]; [|stopped].
  now apply emitStmts_emitsIn.
Qed.

Lemma EmitCallStmt_of_emitsIn cg ctx scope call b : emitsIn (EmitCallStmt_of H rec cg ctx scope call b).
Proof.
  intros ret st r ret' st' Hg. unfold EmitCallStmt_of.
  destruct (rEvaluate rec cg _ scope None _ _ st) as [[args|e|a] st1] eqn:Ee;
    apply (respects_Evaluate _ Hrec) in Ee; try stopped.
  destruct (withOptions rec cg _ scope call b st1) as [[opts|e|a] st2] eqn:Ew;
    apply withOptions_runsIn in Ew; try stopped.
  destruct (breakpointOptions H _ call args opts) as [opts'|e|a]; try stopped.
  destruct (Debug cg _ scope _ opts' st2) as [[u|e|a] st3] eqn:Ed;
    apply Debug_scopes, R_scopes in Ed; try stopped.
  intros E. apply (respects_IdentExpr _ Hrec) in E as [Hk Hg']; [|exact Hg].
  split; [linked | exact Hg'].
Qed.

Lemma Evaluate_of_runsIn cg ctx scope b kinds exprs :
  runsIn (Evaluate_of rec cg ctx scope b kinds exprs).
Proof.
  intros st r st'. unfold Evaluate_of.
  destruct (negb (length kinds =? length exprs)%nat); [stopped|]. apply evaluateEach_runsIn.
Qed.

Lemma respects_callees : respects (callees H rec).
Proof.
  split; cbn.
  - apply EmitExpr_of_emitsIn.
  - intros cg ctx scope lit b. unfold EmitFuncLit_of. apply (respects_Block _ Hrec).
  - apply EmitBasicLit_of_emitsIn.
  - apply EmitStringLit_of_emitsIn.
  - apply EmitHeredoc_of_emitsIn.
  - apply EmitCallExpr_of_emitsIn.
  - apply EmitIdentExpr_of_emitsIn.
  - apply EmitImport_of_runsIn.
  - apply EmitFuncDecl_of_emitsIn.
  - apply EmitBinding_of_emitsIn.
  - apply lookupCall_of_runsIn.
  - apply EmitBlock_of_emitsIn.
  - apply EmitCallStmt_of_emitsIn.
  - apply Evaluate_of_runsIn.
Qed.

End Callees.

Lemma respects_evaluator (fuel : nat) : respects (evaluator H fuel).
Proof.
  induction fuel as [|fuel IH]; [apply respects_exhausted | now apply respects_callees].
Qed.


Lemma generateTarget_runsIn fuel cg ctx mod_ i target :
  runsIn (generateTarget H fuel cg ctx mod_ i target).
Proof.
  intros st r st'. unfold generateTarget.
  destruct (Debug cg ctx _ _ [] st) as [[u|e|a] st1] eqn:Ed;
    apply Debug_scopes, R_scopes in Ed; try stopped.
  destruct (EmitIdentExpr H fuel cg ctx _ _ _ [] [] None NewRegister st1) as [[r1 ret1] st2] eqn:Ee.
  apply (respects_IdentExpr _ (respects_evaluator fuel)) in Ee as [Hk Hg]; [|apply relReg_New].
  destruct r1 as [u'|e|a]; try stopped.
  destruct (Register_Value ret1 st2) as [[rv ret2] st3] eqn:Ev.
  apply (Register_Value_related _ _ _ _ _ Hg) in Ev as [Hk1 _].
  destruct rv as [value|e|a]; try stopped.
  destruct (Value_Request H value); stopped.
Qed.

Lemma generateFrom_runsIn fuel cg ctx mod_ targets :
  forall i requests, runsIn (generateFrom H fuel cg ctx mod_ i targets requests).
Proof.
  induction targets as [|target rest IH]; intros i requests st r st'; cbn [generateFrom].
  - stopped.
  - destruct (targetDefined mod_ target st) as [[]|]; try stopped.
    destruct (generateTarget H fuel cg ctx mod_ i target st) as [[request|e|a] st1] eqn:Eg;
      apply generateTarget_runsIn in Eg; try stopped.
    intros E. apply IH in E. linked.
Qed.


End Relation.

(** *** Scopes stay as they are *)

(** The object [after] is the object [before], but for the module that
    may have been set on it if it is an import. *)
Definition sameObject (before after : option Object) : Prop :=
  match before, after with
  | None, None => True
  | Some o, Some o' =>
      Object_Kind o' = Object_Kind o
      /\ Object_Ident o' = Object_Ident o
      /\ Object_Node o' = Object_Node o
      /\ (Object_Data o' = Object_Data o
          \/ exists n m, Object_Node o = NodeImportDecl n /\ Object_Data o' = DModule m)
  | _, _ => False
  end.

(** Every scope of [st] is a scope of [st'], at its address, for the same
    node and below the same parent, with the same names for the same
    objects. *)
Definition framed (st st' : State) : Prop :=
  forall h sc,
    scopes st !! h = Some sc ->
    exists sc',
      scopes st' !! h = Some sc'
      /\ Scope_Node sc' = Scope_Node sc
      /\ Parent sc' = Parent sc
      /\ forall name, sameObject (Objects sc !! name) (Objects sc' !! name).

Lemma sameObject_refl (o : option Object) : sameObject o o.
Proof. destruct o; cbn; auto. Qed.

Lemma sameObject_trans (a b c : option Object) :
  sameObject a b -> sameObject b c -> sameObject a c.
Proof.
  destruct a as [a|], b as [b|], c as [c|]; cbn; try tauto.
  intros (Hk & Hi & Hn & Hd) (Hk' & Hi' & Hn' & Hd').
  split; [congruence|]. split; [congruence|]. split; [congruence|].
  destruct Hd' as [Hd'|(n & m & Hn2 & Hd')].
  - destruct Hd as [Hd|(n & m & Hn1 & Hd)]; [left; congruence|].
    right. exists n, m. split; [exact Hn1 | congruence].
  - right. exists n, m. split; [congruence | exact Hd'].
Qed.

Lemma framed_refl (st : State) : framed st st.
Proof.
  intros h sc Hs. exists sc. split; [exact Hs|]. split; [reflexivity|]. split; [reflexivity|].
  intros name. apply sameObject_refl.
Qed.

Lemma framed_trans (st1 st2 st3 : State) : framed st1 st2 -> framed st2 st3 -> framed st1 st3.
Proof.
  intros H12 H23 h sc Hs.
  destruct (H12 h sc Hs) as (sc2 & Hs2 & Hn2 & Hp2 & Ho2).
  destruct (H23 h sc2 Hs2) as (sc3 & Hs3 & Hn3 & Hp3 & Ho3).
  exists sc3. split; [exact Hs3|]. split; [congruence|]. split; [congruence|].
  intros name. eapply sameObject_trans; eauto.
Qed.

Lemma framed_scopes (st st' : State) : scopes st' = scopes st -> framed st st'.
Proof. intros E h sc Hs. rewrite E. apply framed_refl. exact Hs. Qed.

Lemma framed_agree (st st' : State) :
  (forall h sc, scopes st !! h = Some sc -> scopes st' !! h = Some sc) -> framed st st'.
Proof.
  intros Hag h sc Hs. exists sc. split; [now apply Hag|].
  split; [reflexivity|]. split; [reflexivity|]. intros name. apply sameObject_refl.
Qed.

Lemma framed_call node parent params args st :
  framed st (insertParams (fst (NewScope node parent st)) params args (snd (NewScope node parent st))).
Proof.
  apply framed_agree. intros h sc Hs. unfold NewScope. cbn [fst snd].
  assert (Hne : h <> nextScope (scopes st)).
  { intros ->. now rewrite nextScope_fresh in Hs. }
  rewrite insertParams_outside by exact Hne. cbn.
  rewrite lookup_insert_ne; [exact Hs|]. intros E. now apply Hne.
Qed.

Lemma framed_store st parsed w e m built w1 w' :
  SemanticPass H (nextScope (scopes st)) parsed w = (e, m, built, w1) ->
  framed st {| scopes := storeScopes (nextScope (scopes st)) built (scopes st); world := w' |}.
Proof.
  intros _. apply framed_agree. intros h sc Hs. cbn [scopes].
  rewrite storeScopes_below; [exact Hs|]. apply nextScope_above. eauto.
Qed.

Lemma framed_install st st1 holder name obj n m :
  holds st holder name obj ->
  Object_Node obj = NodeImportDecl n ->
  framed st st1 ->
  framed st (setData holder name (DModule m) st1).
Proof.
  intros (sc0 & Hs0 & Ho0) Hn Hf h sc Hs.
  destruct (Hf h sc Hs) as (sc1 & Hs1 & Hn1 & Hp1 & Ho1).
  unfold setData. cbn [scopes]. destruct (decide (holder = h)) as [->|Hne].
  - rewrite lookup_alter_eq, Hs1. cbn. eexists. split; [reflexivity|]. cbn.
    split; [exact Hn1|]. split; [exact Hp1|]. intros name'.
    destruct (decide (name = name')) as [<-|Hne'].
    + rewrite lookup_alter_eq. specialize (Ho1 name).
      assert (sc = sc0) by congruence. subst sc0. rewrite Ho0 in *.
      destruct (Objects sc1 !! name) as [o1|]; [|contradiction].
      cbn in *. destruct Ho1 as (Hk & Hi & Hnd & _).
      split; [exact Hk|]. split; [exact Hi|]. split; [exact Hnd|].
      right. now exists n, m.
    + rewrite lookup_alter_ne by exact Hne'. apply Ho1.
  - rewrite lookup_alter_ne by exact Hne. exists sc1. auto.
Qed.

(** Every function of the generator leaves the scopes framed. *)
Lemma framed_evaluator (fuel : nat) : respects framed (evaluator H fuel).
Proof.
  apply respects_evaluator.
  - exact framed_refl.
  - exact framed_trans.
  - exact framed_scopes.
  - exact framed_call.
  - exact framed_store.
  - exact framed_install.
Qed.

Lemma Call_framed (st st' : State) : ImportProperties.Call H st st' -> framed st st'.
Proof.
  intros [fuel cg ctx mod_ targets st0 r st1 E
         |fuel cg ctx scope b kinds exprs st0 r st1 E
         |fuel cg ctx scope lookup st0 r st1 E
         |fuel cg ctx mod_ id st0 r st1 E
         |cg ctx scope bd args opts b v st0 r st1 E].
  - revert E. apply (generateFrom_runsIn framed framed_refl framed_trans framed_scopes
                       framed_call framed_store framed_install).
  - now apply (respects_Evaluate _ _ (framed_evaluator fuel)) in E.
  - now apply (respects_lookupCall _ _ (framed_evaluator fuel)) in E.
  - now apply (respects_Import _ _ (framed_evaluator fuel)) in E.
  - apply EmitBuiltinDecl_scopes in E. now apply framed_scopes.
Qed.

Lemma Later_framed (st st' : State) : Later H st st' -> framed st st'.
Proof.
  induction 1 as [st|st st1 st2 Hc _ IH]; [apply framed_refl|].
  eapply framed_trans; [apply Call_framed; exact Hc | exact IH].
Qed.

Lemma framed_size (st st' : State) : framed st st' -> size (scopes st) <= size (scopes st').
Proof.
  intros Hf. apply dom_subseteq_size. intros h Hh.
  apply elem_of_dom in Hh as [sc Hs]. destruct (Hf h sc Hs) as (sc' & Hs' & _).
  apply elem_of_dom. eauto.
Qed.

Lemma framed_Lookup_from (st st' : State) (n : nat) :
  framed st st' ->
  forall scope name h o,
    Lookup_from n (scopes st) scope name = Some (h, o) ->
    exists o',
      Lookup_from n (scopes st') scope name = Some (h, o') /\ sameObject (Some o) (Some o').
Proof.
  intros Hf. induction n as [|n IH]; intros scope name h o; cbn [Lookup_from]; [discriminate|].
  destruct (scopes st !! scope) as [sc|] eqn:Es; [|discriminate].
  destruct (Hf scope sc Es) as (sc' & -> & _ & Hp & Ho). specialize (Ho name).
  destruct (Objects sc !! name) as [found|].
  - intros [= <- <-]. destruct (Objects sc' !! name) as [found'|]; [|contradiction].
    exists found'. split; [reflexivity | exact Ho].
  - destruct (Objects sc' !! name); [contradiction|]. rewrite Hp.
    destruct (Parent sc); [apply IH | discriminate].
Qed.

(** Whatever is evaluated, the scopes that were there stay as the
    checker built them: each stays at its address, for its node and
    below its parent, and holds the same names for the same objects,
    whose only change is the module set on an import; so a name resolves
    afterwards to the object it resolved to before, in the same scope.
    This holds across any number of calls, and across a call of a
    function declaration. *)
Theorem evaluation_keeps_the_scopes :
  (forall st st', Later H st st' -> framed st st')
  /\ (forall fuel cg ctx fun_ args b st r ret' st',
        EmitFuncDecl H fuel cg ctx fun_ args b NewRegister st = (r, ret', st') -> framed st st')
  /\ (forall st st' scope name h o,
        framed st st' ->
        Lookup st scope name = Some (h, o) ->
        exists o',
          Lookup st' scope name = Some (h, o')
          /\ Object_Kind o' = Object_Kind o
          /\ Object_Ident o' = Object_Ident o
          /\ Object_Node o' = Object_Node o
          /\ (Object_Data o' = Object_Data o
              \/ exists n m, Object_Node o = NodeImportDecl n /\ Object_Data o' = DModule m)).
Proof.
  split; [exact Later_framed|]. split.
  - intros fuel cg ctx fun_ args b st r ret' st' E.
    apply (respects_FuncDecl _ _ (framed_evaluator fuel)) in E; [now destruct E|].
    apply relReg_New.
  - intros st st' scope name h o Hf Hl. unfold Lookup in *.
    destruct (framed_Lookup_from st st' _ Hf _ _ _ _ Hl) as (o' & Hl' & Hs).
    exists o'. split; [|exact Hs].
    eapply Lookup_from_more; [exact Hl' | now apply framed_size].
Qed.

End WithHost.

End FrameProperties.

(** ** The entry point (claim C1) *)

Module GenerateProperties.
Import GoStrings Reflect ast CodeGen CodeGenProperties BlockProperties ImportProperties.
Import GeneratorProperties FrameProperties.

Section WithHost.

Context {T : HostTypes} (H : @Host T).

(** The names of the root scope of a module are the same after any
    evaluation. *)
Lemma targetDefined_framed (mod_ : Module) (target : Target) (st st' : State) (defined : bool) :
  framed st st' ->
  targetDefined mod_ target st = Some defined ->
  targetDefined mod_ target st' = Some defined.
Proof.
  intros Hf. unfold targetDefined.
  destruct (scopes st !! Module_Scope mod_) as [sc|] eqn:Es; [|discriminate].
  destruct (Hf _ _ Es) as (sc' & -> & _ & _ & Ho). specialize (Ho (Target_Name target)).
  intros [= <-]. f_equal. apply bool_decide_ext.
  destruct (Objects sc !! Target_Name target), (Objects sc' !! Target_Name target);
    cbn in Ho; try contradiction; split; intros [x Hx]; try discriminate Hx; eauto.
Qed.

Lemma generateTarget_framed fuel cg ctx mod_ i target st r st' :
  generateTarget H fuel cg ctx mod_ i target st = (r, st') -> framed st st'.
Proof.
  apply (generateTarget_runsIn H framed framed_refl framed_trans framed_scopes
           framed_call (framed_store H) framed_install).
Qed.

(** Every target that was generated was defined when its turn came, in
    a state that the evaluations before it left. *)
Lemma Generated_defined fuel cg ctx mod_ i targets st requests st' :
  Generated H fuel cg ctx mod_ i targets st requests st' ->
  forall target, target ∈ targets ->
    exists st1, framed st st1 /\ targetDefined mod_ target st1 = Some true.
Proof.
  induction 1 as [i st|i target rest st st1 st2 request requests Hd Hg _ IH]; intros t Hin.
  - now apply elem_of_nil in Hin.
  - apply elem_of_cons in Hin as [->|Hin].
    + exists st. split; [apply framed_refl | exact Hd].
    + destruct (IH t Hin) as (st3 & Hf & Hd3). exists st3. split; [|exact Hd3].
      eapply framed_trans; [eapply generateTarget_framed; exact Hg | exact Hf].
Qed.


End WithHost.

(** The targets [default] and [a], and one that the module does not
    define. *)
Definition defaultTarget : Target := {| Target_Name := "default" |}.
Definition aTarget : Target := {| Target_Name := "a" |}.
Definition nopeTarget : Target := {| Target_Name := "nope" |}.

Definition defaultRequest : Demo.request := Demo.ReqOf ["scratch"].
Definition aRequest : Demo.request := Demo.ReqOf ["image alpine"; "run echo hi"].


End GenerateProperties.
